(** * Fractal explorer: the computation and colouring engine of
    [src/fractalExplorer.cpp], embedded in Rocq.

    Numbers are modelled as the program has them:
    - [int] is [Z]; signed overflow is undefined in C++: the renderers
      evaluate their pixel indices and their loop counters with
      [int_add] and [int_mul], which return [None] on overflow, and the
      other places where it could occur are pointed out;
    - [double] and [float] are IEEE 754 binary64 and binary32 values,
      represented by [spec_float] with the operations of the standard
      library's [SpecFloat] (round to nearest, ties to even);
    - [sf::Uint8] is a [Z] in [0, 255];
    - the functions of the C mathematical library ([log], [log10],
      [sin], [atan2], [powf]) are not part of the repository: they are
      the fields of the class [Libm], a parameter of everything that
      calls them;
    - a conversion from a floating-point value to an integer type whose
      result the target type cannot hold is undefined in C++: such
      conversions return [None]. *)

From stdpp Require Import prelude.
From Stdlib Require Import ZArith Lia SpecFloat Permutation.

Local Open Scope Z_scope.

(** ** IEEE 754 layer *)

Definition double := spec_float.
Definition float := spec_float.

(** Truncation toward zero and rounding toward minus infinity of the
    value [(-1)^s * m * 2^e]; [None] for infinities and NaN. *)
Definition SFtrunc (x : spec_float) : option Z :=
  match x with
  | S754_zero _ => Some 0
  | S754_finite s m e => Some (cond_Zopp s (Z.shiftl (Zpos m) e))
  | _ => None
  end.

Definition SFfloor (x : spec_float) : option Z :=
  match x with
  | S754_zero _ => Some 0
  | S754_finite s m e => Some (Z.shiftl (cond_Zopp s (Zpos m)) e)
  | _ => None
  end.

(** [static_cast<T>(x)] for an integer type [T] holding [lo..hi]. *)
Definition cast_range (lo hi : Z) (x : spec_float) : option Z :=
  z ← SFtrunc x; if bool_decide (lo ≤ z ≤ hi) then Some z else None.

Definition INT_MIN : Z := - 2 ^ 31.
Definition INT_MAX : Z := 2 ^ 31 - 1.

(** binary64 *)
Module D.
Definition prec : Z := 53.
Definition emax : Z := 1024.
Definition add : double → double → double := SFadd prec emax.
Definition sub : double → double → double := SFsub prec emax.
Definition mul : double → double → double := SFmul prec emax.
Definition div : double → double → double := SFdiv prec emax.
Definition ltb : double → double → bool := SFltb.
Definition fabs : double → double := SFabs.
Definition valid (x : double) : bool := valid_binary prec emax x.
(** The value [m * 2^e], rounded. *)
Definition lit (m e : Z) : double := binary_normalize prec emax m e false.
(** [int] to [double]; exact for every 32-bit [int]. *)
Definition of_int (z : Z) : double := lit z 0.
(** [float] to [double]; exact. *)
Definition of_float (x : float) : double :=
  match x with
  | S754_finite s m e => binary_round prec emax s m e
  | _ => x
  end.
(** [static_cast<sf::Uint8>(x)] *)
Definition to_uint8 : double → option Z := cast_range 0 255.
Definition to_int : double → option Z := cast_range INT_MIN INT_MAX.
End D.

(** binary32 *)
Module F.
Definition prec : Z := 24.
Definition emax : Z := 128.
Definition add : float → float → float := SFadd prec emax.
Definition sub : float → float → float := SFsub prec emax.
Definition valid (x : float) : bool := valid_binary prec emax x.
Definition lit (m e : Z) : float := binary_normalize prec emax m e false.
(** [double] to [float]: rounds, overflows to an infinity. *)
Definition of_double (x : double) : float :=
  match x with
  | S754_finite s m e => binary_round prec emax s m e
  | _ => x
  end.
(** [std::floor(float)] *)
Definition floor (x : float) : float :=
  match x with
  | S754_finite s m e =>
      if bool_decide (0 ≤ e) then x
      else binary_normalize prec emax (Z.shiftl (cond_Zopp s (Zpos m)) e) 0 false
  | _ => x
  end.
(** [static_cast<int>(x)] *)
Definition to_int : float → option Z := cast_range INT_MIN INT_MAX.
End F.

(** ** Dyadic bounds

    Values of floats are compared with dyadic numbers [K * 2^g] over
    the integers: [dle m1 e1 m2 e2] is [m1 * 2^e1 <= m2 * 2^e2], both
    sides scaled to the smaller exponent. *)

Definition dle (m1 e1 m2 e2 : Z) : Prop :=
  m1 * 2 ^ (e1 - Z.min e1 e2) ≤ m2 * 2 ^ (e2 - Z.min e1 e2).

(** The magnitude of [x] is at least [K * 2^g] ([x] may be infinite). *)
Definition mag_ge (K g : Z) (x : spec_float) : Prop :=
  match x with
  | S754_finite _ m e => dle K g (Zpos m) e
  | S754_infinity _ => True
  | _ => False
  end.

(** The magnitude of [x] is at most [K * 2^g] ([x] may be zero). *)
Definition mag_le (K g : Z) (x : spec_float) : Prop :=
  match x with
  | S754_finite _ m e => dle (Zpos m) e K g
  | S754_zero _ => True
  | _ => False
  end.

Definition sign_of (x : spec_float) : option bool :=
  match x with
  | S754_zero s | S754_infinity s | S754_finite s _ _ => Some s
  | S754_nan => None
  end.

(** [0 <= x <= 1] *)
Definition in_unit (x : spec_float) : Prop :=
  match x with
  | S754_zero _ => True
  | S754_finite false m e => dle (Zpos m) e 1 0
  | _ => False
  end.

(** [x] is finite with sign [s] and magnitude exactly the integer [K]. *)
Definition is_int (s : bool) (K : Z) (x : spec_float) : Prop :=
  match x with
  | S754_finite s' m e => s' = s ∧ dle K 0 (Zpos m) e ∧ dle (Zpos m) e K 0
  | _ => False
  end.

(** [x] is zero, or has sign [s] and magnitude at most [K]. *)
Definition small_signed (s : bool) (K : Z) (x : spec_float) : Prop :=
  match x with
  | S754_zero _ => True
  | S754_finite s' m e => s' = s ∧ dle (Zpos m) e K 0
  | _ => False
  end.

Definition exp_bounded (bound : Z) (x : spec_float) : Prop :=
  match x with
  | S754_finite _ _ e => e ≤ bound
  | _ => True
  end.

(** [x] is positive and finite with [Kl * 2^gl <= x <= Kh * 2^gh]. *)
Definition between (Kl gl Kh gh : Z) (x : spec_float) : Prop :=
  match x with
  | S754_finite false m e => dle Kl gl (Zpos m) e ∧ dle (Zpos m) e Kh gh
  | _ => False
  end.

(** ** The C mathematical library *)

Class Libm := {
  log : double → double;
  log10 : double → double;
  sin : double → double;
  atan2 : double → double → double;
  powf : float → float → float;
}.

(** ** Data model *)

(** [sf::Color]; the alpha channel is never read by the engine, which
    writes the constant 255. *)
Record Color := mkColor { r : Z; g : Z; b : Z }.

Global Instance Color_eq_dec : EqDecision Color.
Proof. solve_decision. Defined.

Record RenderState := {
  viewportX : double;
  viewportY : double;
  viewportSize : double;
  maxIterations : Z;
  colorDensity : float;
  showJulia : bool;
  juliaX : double;
  juliaY : double;
  colorScheme : Z;
  autoIterations : bool;
  fractalType : Z;
  stripes : bool;
  stripeFrequency : float;
  stripeIntensity : float;
  innerCalculation : bool;
}.

(** [ReturnInfo]: on the early-exit and capped paths only [iteration]
    is assigned, the other two fields stay uninitialised ([None]). *)
Record ReturnInfo := {
  iteration : Z;
  smoothIteration : option double;
  stripeSum : option double;
}.

Definition ESCAPE_RADIUS_SQUARED : double := D.mul (D.lit 100 0) (D.lit 100 0).
Definition PREVIEW_DOWNSCALE : Z := 12.

Definition PALETTES : list (list Color) :=
  [ (* Classic blue-gold palette *)
    [ mkColor 66 30 15; mkColor 25 7 26; mkColor 9 1 47;
      mkColor 4 4 73; mkColor 0 7 100; mkColor 12 44 138;
      mkColor 24 82 177; mkColor 57 125 209; mkColor 134 181 229;
      mkColor 211 236 248; mkColor 241 233 191; mkColor 248 201 95;
      mkColor 255 170 0; mkColor 204 128 0; mkColor 153 87 0 ];
    (* Fire palette *)
    [ mkColor 0 0 0; mkColor 20 0 0; mkColor 40 0 0;
      mkColor 80 0 0; mkColor 120 20 0; mkColor 160 40 0;
      mkColor 200 80 0; mkColor 240 120 0; mkColor 255 160 0;
      mkColor 255 200 0; mkColor 255 240 40; mkColor 255 255 100;
      mkColor 255 255 170; mkColor 255 255 220; mkColor 255 255 255 ];
    (* Grayscale palette *)
    [ mkColor 0 0 0; mkColor 32 32 32; mkColor 64 64 64;
      mkColor 96 96 96; mkColor 128 128 128; mkColor 160 160 160;
      mkColor 192 192 192; mkColor 224 224 224; mkColor 255 255 255 ];
    (* Ocean depths palette *)
    [ mkColor 3 13 30; mkColor 6 26 48; mkColor 9 38 67;
      mkColor 17 55 92; mkColor 25 71 116; mkColor 33 88 140;
      mkColor 41 105 165; mkColor 50 138 193; mkColor 64 174 224;
      mkColor 110 197 233; mkColor 158 218 241; mkColor 198 236 248;
      mkColor 214 249 255; mkColor 225 252 255; mkColor 240 255 255 ];
    (* Arctic palette *)
    [ mkColor 15 20 40; mkColor 20 30 65; mkColor 30 40 90;
      mkColor 40 60 120; mkColor 65 90 150; mkColor 95 130 180;
      mkColor 135 175 205; mkColor 175 205 225; mkColor 200 225 240;
      mkColor 220 235 245; mkColor 230 243 250; mkColor 240 250 253;
      mkColor 245 253 255; mkColor 250 255 255; mkColor 255 255 255 ] ].

(** [k % n] for an [int] [k] and a [size_t] [n]: [k] is first converted
    to the unsigned 64-bit type. *)
Definition mod_size (k : Z) (n : nat) : nat :=
  Z.to_nat ((k mod 2 ^ 64) mod Z.of_nat n).

(** One channel of [interpolateColors]. *)
Definition interpolateChannel (a c : Z) (factor : double) : option Z :=
  D.to_uint8 (D.add (D.of_int a) (D.mul factor (D.of_int (c - a)))).

Definition interpolateColors (c1 c2 : Color) (factor : double) : option Color :=
  r' ← interpolateChannel (r c1) (r c2) factor;
  g' ← interpolateChannel (g c1) (g c2) factor;
  b' ← interpolateChannel (b c1) (b c2) factor;
  Some (mkColor r' g' b').

(** The channels of an [sf::Color] are [Uint8]. *)
Definition uint8_color (c : Color) : bool :=
  bool_decide (0 ≤ r c ≤ 255) && bool_decide (0 ≤ g c ≤ 255) && bool_decide (0 ≤ b c ≤ 255).

(** A channel value other than zero, and a pair of colours that share
    such a channel; a palette is bright when every entry forms such a
    pair with its cyclic successor. *)
Definition bright (c : Z) : bool := bool_decide (1 ≤ c ≤ 255).

Definition bright_pair (c1 c2 : Color) : bool :=
  bright (r c1) && bright (r c2) || bright (g c1) && bright (g c2)
  || bright (b c1) && bright (b c2).

Definition bright_palette (palette : list Color) : bool :=
  forallb (λ i, match palette !! i,
                      palette !! mod_size (Z.of_nat i + 1) (length palette) with
                | Some c1, Some c2 => bright_pair c1 c2
                | _, _ => true
                end) (seq 0 (length palette)).

(** Sequencing of a loop body that may be undefined: [for x in l]. *)
Fixpoint for_each {S A : Type} (l : list A) (body : S → A → option S) (s : S) : option S :=
  match l with
  | [] => Some s
  | x :: l' => s' ← body s x; for_each l' body s'
  end.

(** [a + b] and [a * b] on [int]s: signed overflow is undefined. *)
Definition int_add (a b : Z) : option Z :=
  if bool_decide (INT_MIN ≤ a + b ≤ INT_MAX) then Some (a + b) else None.

Definition int_mul (a b : Z) : option Z :=
  if bool_decide (INT_MIN ≤ a * b ≤ INT_MAX) then Some (a * b) else None.

(** One turn of a loop [for (int c = ...; ...; c += step)] at the
    counter value [c]: the body, then the increment. *)
Definition stepped {A : Type} (c step : Z) (body : option A) : option A :=
  a ← body; _ ← int_add c step; Some a.
Global Arguments stepped : simpl never.

(** [for (int c = ...; ...; c += step)] for the values [l] that the
    counter takes while the loop test holds. *)
Definition for_int {S : Type} (l : list Z) (step : Z) (body : S → Z → option S) (s : S)
    : option S :=
  for_each l (λ s c, stepped c step (body s c)) s.

(** The values [v, v + step, ...] below [bound] taken by the counter of
    [for (c = v; c < bound; c += step)], at most [fuel] of them. *)
Fixpoint strided (fuel : nat) (v bound step : Z) : list Z :=
  match fuel with
  | O => []
  | S fuel' => if bool_decide (v < bound) then v :: strided fuel' (v + step) bound step else []
  end.

(** [pixels[idx] = v] on the caller-owned buffer, for an index [idx]
    of type [int]: a store outside the buffer is undefined, and no
    [int] is above [INT_MAX]. *)
Definition store (pixels : list Z) (idx v : Z) : option (list Z) :=
  if bool_decide (0 ≤ idx < Z.of_nat (length pixels) ∧ idx ≤ INT_MAX)
  then Some (<[Z.to_nat idx := v]> pixels) else None.

(** The text of lines 225-229, which lines 272-276 repeat with [idx]
    for [pixelIndex]: [int pixelIndex = (row * width + column) * 4],
    evaluated in [int], and the stores at [pixelIndex], [pixelIndex +
    1], [pixelIndex + 2] and [pixelIndex + 3]. *)
Definition storePixel (pixels : list Z) (row width column : Z) (color : Color)
    : option (list Z) :=
  rw ← int_mul row width;
  s ← int_add rw column;
  pixelIndex ← int_mul s 4;
  pixels ← store pixels pixelIndex (r color);
  i1 ← int_add pixelIndex 1;
  pixels ← store pixels i1 (g color);
  i2 ← int_add pixelIndex 2;
  pixels ← store pixels i2 (b color);
  i3 ← int_add pixelIndex 3;
  store pixels i3 255.

(** The four stores of one pixel, in program order. *)
Definition pixelStores (pixelIndex : Z) (color : Color) : list (Z * Z) :=
  [ (pixelIndex, r color); (pixelIndex + 1, g color);
    (pixelIndex + 2, b color); (pixelIndex + 3, 255) ].

Definition run_stores (ws : list (Z * Z)) (pixels : list Z) : option (list Z) :=
  for_each ws (λ p w, store p w.1 w.2) pixels.

(** All ways of merging the store sequences of concurrently running
    workers into one sequence, each worker's own order kept. *)
Inductive interleaves {A : Type} : list (list A) → list A → Prop :=
  | interleaves_done ts :
      Forall (λ t, t = []) ts → interleaves ts []
  | interleaves_step ts1 a t ts2 tr :
      interleaves (ts1 ++ t :: ts2) tr →
      interleaves (ts1 ++ (a :: t) :: ts2) (a :: tr).

Section Engine.
Context `{M : Libm}.

(** *** calculateFractal *)

(** The variables of the main loop. *)
Record LoopState := {
  s_zr : double; s_zi : double; s_zr2 : double; s_zi2 : double;
  s_stripeSum : float; s_i : Z;
}.

(** [i + 1 - log(log(zr2 + zi2) / 2) / log(2)] *)
Definition smooth (i : Z) (zr2 zi2 : double) : double :=
  D.sub (D.of_int (i + 1))
    (D.div (log (D.div (log (D.add zr2 zi2)) (D.of_int 2))) (log (D.of_int 2))).

(** The assignments made on the escape path and, with inner
    calculation, on the capped path. *)
Definition detail (s : LoopState) : ReturnInfo :=
  {| iteration := s_i s;
     smoothIteration := Some (smooth (s_i s) (s_zr2 s) (s_zi2 s));
     stripeSum := Some (D.of_float (s_stripeSum s)) |}.

Definition sentinel : ReturnInfo :=
  {| iteration := -1; smoothIteration := None; stripeSum := None |}.

Section Loop.
Variables (cr_actual ci_actual : double) (maxIter : Z) (fractalType : Z)
          (stripes : bool) (stripeFrequency : float) (innerCalculation : bool).

(** The loop condition [zr2 + zi2 < ESCAPE_RADIUS_SQUARED]. *)
Definition inside (s : LoopState) : bool :=
  D.ltb (D.add (s_zr2 s) (s_zi2 s)) ESCAPE_RADIUS_SQUARED.

(** The term added to [stripeSum] in one pass. *)
Definition stripeTerm (zr zi : double) : float :=
  powf (F.of_double (sin (D.mul (atan2 zi zr) (D.of_float stripeFrequency))))
       (F.lit 2 0).

(** One pass through the loop body, up to and including [i++]. *)
Definition pass (s : LoopState) : LoopState :=
  let zi := if bool_decide (fractalType = 0)
            then D.mul (D.mul (D.of_int 2) (s_zr s)) (s_zi s)
            else D.mul (D.of_int 2) (D.fabs (D.mul (s_zr s) (s_zi s))) in
  let zi := D.add zi ci_actual in
  let zr := D.add (D.sub (s_zr2 s) (s_zi2 s)) cr_actual in
  let zr2 := D.mul zr zr in
  let zi2 := D.mul zi zi in
  let stripeSum := if stripes then F.add (s_stripeSum s) (stripeTerm zr zi)
                   else s_stripeSum s in
  {| s_zr := zr; s_zi := zi; s_zr2 := zr2; s_zi2 := zi2;
     s_stripeSum := stripeSum; s_i := s_i s + 1 |}.

(** The loop variables after [k] passes. *)
Definition passes (k : nat) (s : LoopState) : LoopState := Nat.iter k pass s.

(** [stripeSum] after one addition for each of the passes [1 .. k]. *)
Definition accumulated (k : nat) (s : LoopState) : float :=
  fold_left (λ acc j, let s' := passes (S j) s in
                      F.add acc (stripeTerm (s_zr s') (s_zi s')))
            (seq 0 k) (s_stripeSum s).

(** The [while] loop; [None] when [fuel] passes were not enough. *)
Fixpoint mainLoop (fuel : nat) (s : LoopState) : option ReturnInfo :=
  match fuel with
  | O => None
  | S fuel' =>
      if inside s then
        let s' := pass s in
        if bool_decide (s_i s' = maxIter)
        then Some (if innerCalculation then detail s' else sentinel)
        else mainLoop fuel' s'
      else Some (detail s)
  end.
End Loop.

(** The number of loop tests after which the loop has returned or
    the counter [i] has left the range of [int]: with a positive cap
    the test [i == maxIter] succeeds in pass [maxIter] at the latest;
    otherwise it never does and [i++] overflows in pass [2^31]. *)
Definition loopFuel (maxIter : Z) : nat :=
  if bool_decide (0 < maxIter) then Z.to_nat maxIter else Z.to_nat (2 ^ 31).

(** The cardioid and period-2 bulb tests of the early bailout. *)
Definition inCardioid (cr ci : double) : bool :=
  let q := D.add (D.mul (D.sub cr (D.lit 1 (-2))) (D.sub cr (D.lit 1 (-2)))) (D.mul ci ci) in
  D.ltb (D.mul q (D.add q (D.sub cr (D.lit 1 (-2)))))
        (D.mul (D.mul (D.lit 1 (-2)) ci) ci).

Definition inBulb (cr ci : double) : bool :=
  D.ltb (D.add (D.mul (D.add cr (D.lit 1 0)) (D.add cr (D.lit 1 0))) (D.mul ci ci))
        (D.lit 1 (-4)).

Definition initialState (cr ci : double) (isJulia : bool) : LoopState :=
  let zr := if isJulia then cr else D.of_int 0 in
  let zi := if isJulia then ci else D.of_int 0 in
  {| s_zr := zr; s_zi := zi; s_zr2 := D.mul zr zr; s_zi2 := D.mul zi zi;
     s_stripeSum := F.lit 0 0; s_i := 0 |}.

(** [None]: the loop leaves the range of [int] (only with
    [maxIter <= 0]). *)
Definition calculateFractal (cr ci jr ji : double) (maxIter : Z) (isJulia : bool)
    (fractalType : Z) (stripes : bool) (stripeFrequency : float)
    (innerCalculation : bool) : option ReturnInfo :=
  let cr_actual := if isJulia then jr else cr in
  let ci_actual := if isJulia then ji else ci in
  if innerCalculation && negb isJulia && bool_decide (fractalType = 0)
     && (inCardioid cr ci || inBulb cr ci)
  then Some sentinel
  else mainLoop cr_actual ci_actual maxIter fractalType stripes stripeFrequency
         innerCalculation (loopFuel maxIter) (initialState cr ci isJulia).

(** *** Colour mapping

    The source has this text twice, at lines 207-223 of
    [renderFractalRegion] and at lines 250-266 of [renderPreview];
    [shade] is what both copies compute from a [ReturnInfo]. *)

(** [float iterations = ...] *)
Definition colorScalar (state : RenderState) (info : ReturnInfo) : option float :=
  if stripes state then
    ss ← stripeSum info;
    Some (F.of_double (D.mul (D.of_float (stripeIntensity state))
                             (D.div ss (D.of_int (iteration info)))))
  else
    sm ← smoothIteration info;
    Some (F.of_double (D.mul sm (D.of_float (colorDensity state)))).

(** [index], [fract] and the call of [interpolateColors]. *)
Definition mapColor (palette : list Color) (iterations : float) : option Color :=
  k ← F.to_int iterations;
  let index := mod_size k (length palette) in
  let fract := D.of_float (F.sub iterations (F.floor iterations)) in
  c1 ← palette !! index;
  c2 ← palette !! mod_size (Z.of_nat index + 1) (length palette);
  interpolateColors c1 c2 fract.

Definition shade (state : RenderState) (palette : list Color) (info : ReturnInfo)
    : option Color :=
  if bool_decide (iteration info = -1) then Some (mkColor 0 0 0)
  else iterations ← colorScalar state info; mapColor palette iterations.

Definition sample (state : RenderState) (cr ci : double) : option ReturnInfo :=
  calculateFractal cr ci (juliaX state) (juliaY state) (maxIterations state)
    (showJulia state) (fractalType state) (stripes state) (stripeFrequency state)
    (innerCalculation state).

(** *** renderFractalRegion *)

Definition pixelCoord (center halfSize pixelSize : double) (k : Z) : double :=
  D.add (D.sub center halfSize) (D.mul (D.of_int k) pixelSize).

Definition regionPixel (state : RenderState) (palette : list Color) (cr ci : double)
    : option Color :=
  info ← sample state cr ci; shade state palette info.

Definition renderFractalRegion (pixels : list Z) (state : RenderState)
    (startY endY width height : Z) : option (list Z) :=
  let pixelSize := D.div (viewportSize state) (D.of_int width) in
  let halfSize := D.div (viewportSize state) (D.of_int 2) in
  palette ← PALETTES !! mod_size (colorScheme state) (length PALETTES);
  for_int (seqZ startY (endY - startY)) 1 (λ pixels y,
    let ci := pixelCoord (viewportY state) halfSize pixelSize y in
    for_int (seqZ 0 width) 1 (λ pixels x,
      let cr := pixelCoord (viewportX state) halfSize pixelSize x in
      color ← regionPixel state palette cr ci;
      storePixel pixels y width x color) pixels) pixels.

(** The sequence of stores a worker running [renderFractalRegion]
    issues, row by row; [None] when the colour of some pixel is
    undefined or a loop counter overflows. *)
Definition rowStores (state : RenderState) (palette : list Color) (width y : Z)
    : option (list (Z * Z)) :=
  let pixelSize := D.div (viewportSize state) (D.of_int width) in
  let halfSize := D.div (viewportSize state) (D.of_int 2) in
  let ci := pixelCoord (viewportY state) halfSize pixelSize y in
  stepped y 1 (
    row ← mapM (λ x,
      let cr := pixelCoord (viewportX state) halfSize pixelSize x in
      stepped x 1 (
        color ← regionPixel state palette cr ci;
        Some (pixelStores ((y * width + x) * 4) color))) (seqZ 0 width);
    Some (concat row)).

Definition rowsStores (state : RenderState) (palette : list Color) (width : Z)
    (ys : list Z) : option (list (Z * Z)) :=
  rows ← mapM (rowStores state palette width) ys; Some (concat rows).

Definition regionStores (state : RenderState) (startY endY width : Z)
    : option (list (Z * Z)) :=
  palette ← PALETTES !! mod_size (colorScheme state) (length PALETTES);
  rowsStores state palette width (seqZ startY (endY - startY)).

(** *** renderPreview *)

Definition previewPixel (state : RenderState) (palette : list Color) (cr ci : double)
    : option Color :=
  info ← sample state cr ci; shade state palette info.

(** The counter values of an outer loop [for (c = 0; c < bound; c +=
    downscale)]; [None] when the loop does not end ([downscale <= 0]
    with a positive bound).  The increments themselves are those of
    [for_int]. *)
Definition blockOrigins (bound downscale : Z) : option (list Z) :=
  if bool_decide (0 < downscale) then Some (strided (Z.to_nat bound) 0 bound downscale)
  else if bool_decide (bound ≤ 0) then Some [] else None.

Definition renderPreview (pixels : list Z) (state : RenderState)
    (width height downscale : Z) : option (list Z) :=
  let pixelSize := D.div (viewportSize state) (D.of_int width) in
  let halfSize := D.div (viewportSize state) (D.of_int 2) in
  palette ← PALETTES !! mod_size (colorScheme state) (length PALETTES);
  ys ← blockOrigins height downscale;
  for_int ys downscale (λ pixels y,
    let ci := pixelCoord (viewportY state) halfSize pixelSize y in
    xs ← blockOrigins width downscale;
    for_int xs downscale (λ pixels x,
      let cr := pixelCoord (viewportX state) halfSize pixelSize x in
      color ← previewPixel state palette cr ci;
      (* Fill block with the same color *)
      for_int (seqZ 0 (Z.min downscale (height - y))) 1 (λ pixels by_,
        for_int (seqZ 0 (Z.min downscale (width - x))) 1 (λ pixels bx,
          row ← int_add y by_;
          column ← int_add x bx;
          storePixel pixels row width column color) pixels) pixels) pixels) pixels.

(** *** renderFractal *)

(** The row bands handed to the workers: [(startY, endY)] for
    [i = 0 .. NUM_THREADS - 1]. *)
Definition bands (NUM_THREADS height : Z) : list (Z * Z) :=
  let linesPerThread := height `quot` NUM_THREADS in
  (λ i, (i * linesPerThread,
         if bool_decide (i = NUM_THREADS - 1) then height else (i + 1) * linesPerThread))
    <$> seqZ 0 NUM_THREADS.

(** [renderFractal]: the possible final buffers ([None]: undefined
    behaviour). With [usePreview] the preview runs on the calling
    thread; otherwise one worker per band runs [renderFractalRegion]
    on the shared buffer and the stores of the workers are merged in
    an arbitrary order. *)
Inductive renderFractal (NUM_THREADS : Z) (pixels : list Z) (state : RenderState)
    (width height : Z) : bool → option (list Z) → Prop :=
  | renderFractal_preview :
      renderFractal NUM_THREADS pixels state width height true
        (renderPreview pixels state width height PREVIEW_DOWNSCALE)
  | renderFractal_undefined :
      mapM (λ se, regionStores state se.1 se.2 width) (bands NUM_THREADS height) = None →
      renderFractal NUM_THREADS pixels state width height false None
  | renderFractal_joined traces tr :
      mapM (λ se, regionStores state se.1 se.2 width) (bands NUM_THREADS height) = Some traces →
      interleaves traces tr →
      renderFractal NUM_THREADS pixels state width height false (run_stores tr pixels).

(** *** adjustIterations *)

Definition set_maxIterations (state : RenderState) (n : Z) : RenderState :=
  {| viewportX := viewportX state; viewportY := viewportY state;
     viewportSize := viewportSize state; maxIterations := n;
     colorDensity := colorDensity state; showJulia := showJulia state;
     juliaX := juliaX state; juliaY := juliaY state;
     colorScheme := colorScheme state; autoIterations := autoIterations state;
     fractalType := fractalType state; stripes := stripes state;
     stripeFrequency := stripeFrequency state;
     stripeIntensity := stripeIntensity state;
     innerCalculation := innerCalculation state |}.

(** [100 * log10(1 + zoomFactor)] *)
Definition scaledLogZoom (state : RenderState) : double :=
  let zoomFactor := D.div (D.lit 3 0) (viewportSize state) in
  D.mul (D.of_int 100) (log10 (D.add (D.of_int 1) zoomFactor)).

Definition adjustIterations (state : RenderState) : option RenderState :=
  if autoIterations state then
    k ← D.to_int (scaledLogZoom state);
    Some (set_maxIterations state (Z.max 100 (Z.min 10000 k)))
  else Some state.
End Engine.

(** The palette at an index of [PALETTES]: 0 classic, 1 fire,
    2 grayscale, 3 ocean depths, 4 arctic. *)
Definition palette_at (i : nat) : list Color := default [] (PALETTES !! i).

(** The colour mapping in the words of the specification:
    [index = floor(t) mod paletteLength], [frac = t - floor(t)], and
    the blend of [palette[index]] and [palette[(index + 1) mod
    paletteLength]] by [frac]; the modulo is the floor-based one. *)
Definition mapColor_floor (palette : list Color) (t : float) : option Color :=
  fl ← SFfloor t;
  let index := Z.to_nat (fl mod Z.of_nat (length palette)) in
  let frac := D.of_float (F.sub t (F.floor t)) in
  c1 ← palette !! index;
  c2 ← palette !! ((index + 1) mod length palette)%nat;
  interpolateColors c1 c2 frac.

(** ** Relations and traces used by the further properties *)

(** [b] is the negation of [a], or both are zeros (of any sign). *)
Definition mirror (a b : spec_float) : Prop :=
  match a, b with
  | S754_zero _, S754_zero _ => True
  | _, _ => b = SFopp a
  end.

(** Loop states of two runs at mirrored points: the imaginary parts are
    mirrored, everything else agrees. *)
Definition mirrored (s s' : LoopState) : Prop :=
  s_zr s' = s_zr s ∧ mirror (s_zi s) (s_zi s') ∧ s_zr2 s' = s_zr2 s ∧
  s_zi2 s' = s_zi2 s ∧ s_stripeSum s' = s_stripeSum s ∧ s_i s' = s_i s.

(** Every channel of [c] lies between the channels of [c1] and [c2]. *)
Definition channels_between (c1 c2 c : Color) : Prop :=
  Z.min (r c1) (r c2) ≤ r c ≤ Z.max (r c1) (r c2) ∧
  Z.min (g c1) (g c2) ≤ g c ≤ Z.max (g c1) (g c2) ∧
  Z.min (b c1) (b c2) ≤ b c ≤ Z.max (b c1) (b c2).

Section EngineStores.
Context `{M : Libm}.

(** The colour that both renderers compute for the sample point of the
    pixel column [x] and the pixel row [y]. *)
Definition pixelColor (state : RenderState) (palette : list Color) (width x y : Z)
    : option Color :=
  let pixelSize := D.div (viewportSize state) (D.of_int width) in
  let halfSize := D.div (viewportSize state) (D.of_int 2) in
  regionPixel state palette (pixelCoord (viewportX state) halfSize pixelSize x)
    (pixelCoord (viewportY state) halfSize pixelSize y).

(** The stores of the block fill of [renderPreview] (lines 270-278),
    in program order; [None] when a loop counter overflows. *)
Definition blockStores (width height downscale x y : Z) (color : Color)
    : option (list (Z * Z)) :=
  rows ← mapM (λ by_,
    stepped by_ 1 (
      cells ← mapM (λ bx,
        stepped bx 1 (Some (pixelStores (((y + by_) * width + (x + bx)) * 4) color)))
        (seqZ 0 (Z.min downscale (width - x)));
      Some (concat cells))) (seqZ 0 (Z.min downscale (height - y)));
  Some (concat rows).

(** The sequence of stores that [renderPreview] issues. *)
Definition previewStores (state : RenderState) (width height downscale : Z)
    : option (list (Z * Z)) :=
  palette ← PALETTES !! mod_size (colorScheme state) (length PALETTES);
  ys ← blockOrigins height downscale;
  rows ← mapM (λ y,
    stepped y downscale (
      xs ← blockOrigins width downscale;
      blocks ← mapM (λ x,
        stepped x downscale (
          color ← pixelColor state palette width x y;
          blockStores width height downscale x y color)) xs;
      Some (concat blocks))) ys;
  Some (concat rows).
End EngineStores.

Section EngineShot.
Context `{M : Libm}.

(** [saveHighResScreenshot], lines 308-337: the buffers that can reach
    [sf::Image::create]. [fresh] is the content of the buffer that
    [new sf::Uint8[...]] returns, which is indeterminate; the worker
    loop of lines 322-333 is the one of [renderFractal], run for the
    scaled width and height. *)
Definition saveHighResScreenshot (NUM_THREADS : Z) (fresh : list Z) (state : RenderState)
    (width height scale : Z) (image : option (list Z)) : Prop :=
  let hiResWidth := width * scale in
  let hiResHeight := height * scale in
  Z.of_nat (length fresh) = hiResWidth * hiResHeight * 4 ∧
  renderFractal NUM_THREADS fresh state hiResWidth hiResHeight false image.
End EngineShot.

(** ** Sample inputs

    The values that the C library of the build platform (glibc, x86-64)
    returns at the few arguments reached by the worked examples below;
    NaN stands for every argument that is not tabulated. *)

Definition from_table (entries : list (double * double)) (x : double) : double :=
  match find (λ p, SFeqb p.1 x) entries with
  | Some p => p.2
  | None => S754_nan
  end.

Definition sample_log : double → double :=
  from_table
    [ (D.lit 2 0, S754_finite false 6243314768165359 (-53));
      (D.lit 10600 0, S754_finite false 5217763162512724 (-49));
      (S754_finite false 5217763162512724 (-50), S754_finite false 6906207716954969 (-52));
      (D.lit 10000 0, S754_finite false 5184960683398422 (-49));
      (S754_finite false 5184960683398422 (-50), S754_finite false 6877805593716277 (-52)) ].

Definition sample_log10 : double → double :=
  from_table
    [ (D.lit 2 0, S754_finite false 5422874305198591 (-54));
      (D.lit 30000000001 0, S754_finite false 5898094922342021 (-49)) ].

(** [sin (+-0) = +-0], [atan2 (+0, x) = +0] for [x >= +0] and
    [powf (+0, 2) = +0] are exact (C11, annex F.10). *)
Definition sample_sin (x : double) : double :=
  match x with
  | S754_zero s => S754_zero s
  | _ => S754_nan
  end.

Definition sample_atan2 (y x : double) : double :=
  match y, x with
  | S754_zero false, (S754_zero false | S754_finite false _ _ | S754_infinity false) =>
      S754_zero false
  | _, _ => S754_nan
  end.

Definition sample_powf (x y : float) : float :=
  match x with
  | S754_zero false => if SFeqb y (F.lit 2 0) then S754_zero false else S754_nan
  | _ => S754_nan
  end.

Global Instance sample_libm : Libm := {|
  log := sample_log;
  log10 := sample_log10;
  sin := sample_sin;
  atan2 := sample_atan2;
  powf := sample_powf;
|}.

(** The [double] nearest to [1e-10]. *)
Definition d1e_10 : double := S754_finite false 7737125245533627 (-86).

(** The initial [RenderState] of [main], with the view, the cap and the
    mode left open. *)
Definition stateWith (size : double) (maxIter : Z) (julia stripesOn inner : bool)
    : RenderState :=
  {| viewportX := D.lit (-1) (-1); viewportY := D.lit 0 0; viewportSize := size;
     maxIterations := maxIter; colorDensity := F.of_double (D.lit 3602879701896397 (-54));
     showJulia := julia; juliaX := D.lit (-3602879701896397) (-52);
     juliaY := D.lit 5620492334958379 (-55); colorScheme := 0;
     autoIterations := true; fractalType := 0; stripes := stripesOn;
     stripeFrequency := F.lit 5 0; stripeIntensity := F.lit 10 0;
     innerCalculation := inner |}.

(** [state.stripeIntensity] after the key handlers of lines 646 and 653
    have set it to [x]. *)
Definition withStripeIntensity (state : RenderState) (x : float) : RenderState :=
  {| viewportX := viewportX state; viewportY := viewportY state;
     viewportSize := viewportSize state; maxIterations := maxIterations state;
     colorDensity := colorDensity state; showJulia := showJulia state;
     juliaX := juliaX state; juliaY := juliaY state;
     colorScheme := colorScheme state; autoIterations := autoIterations state;
     fractalType := fractalType state; stripes := stripes state;
     stripeFrequency := stripeFrequency state;
     stripeIntensity := x;
     innerCalculation := innerCalculation state |}.

(** The loop variables of the orbit of [z = 0] under [c = 0]. *)
Definition atOrigin (s : LoopState) : Prop :=
  s_zr s = D.lit 0 0 ∧ s_zi s = D.lit 0 0 ∧ s_zr2 s = D.lit 0 0 ∧ s_zi2 s = D.lit 0 0.

(** ** The event handlers of [main]

    The handlers of lines 472-665 as functions on the [RenderState];
    the local variables of [main] that they read (the mouse position,
    the position of the last drag step, the complex coordinates under
    the mouse) are arguments.  The keys S and H save screenshots and
    leave the state as it is. *)

Definition WINDOW_WIDTH : Z := 800.
Definition WINDOW_HEIGHT : Z := 800.

(** The [double] literals [1.1] and [0.1]. *)
Definition d1_1 : double := S754_finite false 4953959590107546 (-52).
Definition d0_1 : double := S754_finite false 7205759403792794 (-56).

Definition with_view (state : RenderState) (x y size : double) : RenderState :=
  {| viewportX := x; viewportY := y; viewportSize := size;
     maxIterations := maxIterations state;
     colorDensity := colorDensity state; showJulia := showJulia state;
     juliaX := juliaX state; juliaY := juliaY state;
     colorScheme := colorScheme state; autoIterations := autoIterations state;
     fractalType := fractalType state; stripes := stripes state;
     stripeFrequency := stripeFrequency state;
     stripeIntensity := stripeIntensity state;
     innerCalculation := innerCalculation state |}.

Definition with_autoIterations (state : RenderState) (auto : bool) : RenderState :=
  {| viewportX := viewportX state; viewportY := viewportY state;
     viewportSize := viewportSize state; maxIterations := maxIterations state;
     colorDensity := colorDensity state; showJulia := showJulia state;
     juliaX := juliaX state; juliaY := juliaY state;
     colorScheme := colorScheme state; autoIterations := auto;
     fractalType := fractalType state; stripes := stripes state;
     stripeFrequency := stripeFrequency state;
     stripeIntensity := stripeIntensity state;
     innerCalculation := innerCalculation state |}.

Definition with_julia (state : RenderState) (show : bool) (x y : double) : RenderState :=
  {| viewportX := viewportX state; viewportY := viewportY state;
     viewportSize := viewportSize state; maxIterations := maxIterations state;
     colorDensity := colorDensity state; showJulia := show;
     juliaX := x; juliaY := y;
     colorScheme := colorScheme state; autoIterations := autoIterations state;
     fractalType := fractalType state; stripes := stripes state;
     stripeFrequency := stripeFrequency state;
     stripeIntensity := stripeIntensity state;
     innerCalculation := innerCalculation state |}.

(** The colour controls: [colorScheme], [colorDensity], [fractalType],
    [stripes] and [stripeFrequency]. *)
Definition with_colors (state : RenderState) (scheme : Z) (density : float)
    (type : Z) (stripesOn : bool) (frequency : float) : RenderState :=
  {| viewportX := viewportX state; viewportY := viewportY state;
     viewportSize := viewportSize state; maxIterations := maxIterations state;
     colorDensity := density; showJulia := showJulia state;
     juliaX := juliaX state; juliaY := juliaY state;
     colorScheme := scheme; autoIterations := autoIterations state;
     fractalType := type; stripes := stripesOn;
     stripeFrequency := frequency;
     stripeIntensity := stripeIntensity state;
     innerCalculation := innerCalculation state |}.

(** [center - halfSize + pos * size / extent], the complex coordinate
    under the mouse (lines 484-485 and 520-523). *)
Definition mouseComplex (center size : double) (pos extent : Z) : double :=
  D.add (D.sub center (D.div size (D.of_int 2)))
        (D.div (D.mul (D.of_int pos) size) (D.of_int extent)).

Inductive Key :=
  | KeyR | KeyJ | KeyC | KeyS | KeyI | KeyK | KeyA | KeyUp | KeyDown
  | KeyT | KeyZ | KeyM | KeyN | KeyV | KeyB | KeyH | KeyOther.

Inductive Event :=
  | MouseWheelScrolled (mousePos : Z * Z) (delta : float)
  | MouseDragged (lastMousePos currentMousePos : Z * Z)
  | KeyPressed (code : Key) (mouseComplexX mouseComplexY : double).

Section Handlers.
Context `{M : Libm}.

(** Zoom with the mouse wheel, lines 477-500. *)
Definition onMouseWheel (state : RenderState) (mousePos : Z * Z) (delta : float)
    : option RenderState :=
  if bool_decide (0 ≤ mousePos.1 < WINDOW_WIDTH ∧ 0 ≤ mousePos.2 < WINDOW_HEIGHT) then
    let mouseX := mouseComplex (viewportX state) (viewportSize state) mousePos.1 WINDOW_WIDTH in
    let mouseY := mouseComplex (viewportY state) (viewportSize state) mousePos.2 WINDOW_HEIGHT in
    let zoomFactor := if SFltb (F.lit 0 0) delta then D.lit 1 (-1) else D.lit 2 0 in
    adjustIterations
      (with_view state
         (D.add mouseX (D.mul (D.sub (viewportX state) mouseX) zoomFactor))
         (D.add mouseY (D.mul (D.sub (viewportY state) mouseY) zoomFactor))
         (D.mul (viewportSize state) zoomFactor))
  else Some state.

(** Panning: a mouse move while dragging, lines 525-539. *)
Definition onMouseDrag (state : RenderState) (lastMousePos currentMousePos : Z * Z)
    : RenderState :=
  let deltaX := D.div (D.mul (D.of_int (lastMousePos.1 - currentMousePos.1))
                             (viewportSize state)) (D.of_int WINDOW_WIDTH) in
  let deltaY := D.div (D.mul (D.of_int (lastMousePos.2 - currentMousePos.2))
                             (viewportSize state)) (D.of_int WINDOW_HEIGHT) in
  with_view state (D.add (viewportX state) deltaX) (D.add (viewportY state) deltaY)
    (viewportSize state).

(** The key handlers, lines 543-662. *)
Definition onKeyPressed (state : RenderState) (code : Key)
    (mouseComplexX mouseComplexY : double) : option RenderState :=
  match code with
  | KeyR => adjustIterations (with_view state (D.lit (-1) (-1)) (D.lit 0 0) (D.lit 3 0))
  | KeyJ =>
      Some (if showJulia state
            then with_julia state false (juliaX state) (juliaY state)
            else with_julia state true mouseComplexX mouseComplexY)
  | KeyC =>
      Some (with_colors state
              (Z.of_nat (mod_size (colorScheme state + 1) (length PALETTES)))
              (colorDensity state) (fractalType state) (stripes state)
              (stripeFrequency state))
  | KeyI =>
      Some (set_maxIterations (with_autoIterations state false)
              (Z.min 10000 (maxIterations state * 2)))
  | KeyK =>
      Some (set_maxIterations (with_autoIterations state false)
              (Z.max 100 (maxIterations state `quot` 2)))
  | KeyA =>
      let state := with_autoIterations state (negb (autoIterations state)) in
      if autoIterations state then adjustIterations state else Some state
  | KeyUp =>
      Some (with_colors state (colorScheme state)
              (F.of_double (D.mul (D.of_float (colorDensity state)) d1_1))
              (fractalType state) (stripes state) (stripeFrequency state))
  | KeyDown =>
      Some (with_colors state (colorScheme state)
              (F.of_double (D.div (D.of_float (colorDensity state)) d1_1))
              (fractalType state) (stripes state) (stripeFrequency state))
  | KeyT =>
      Some (with_colors state (colorScheme state) (colorDensity state)
              ((fractalType state + 1) `rem` 2) (stripes state) (stripeFrequency state))
  | KeyZ =>
      Some (with_colors state (colorScheme state) (colorDensity state)
              (fractalType state) (negb (stripes state)) (stripeFrequency state))
  | KeyM =>
      Some (with_colors state (colorScheme state) (colorDensity state)
              (fractalType state) (stripes state)
              (F.of_double (D.add (D.of_float (stripeFrequency state)) d0_1)))
  | KeyN =>
      Some (with_colors state (colorScheme state) (colorDensity state)
              (fractalType state) (stripes state)
              (F.of_double (D.sub (D.of_float (stripeFrequency state)) d0_1)))
  | KeyV => Some (withStripeIntensity state (F.add (stripeIntensity state) (F.lit 1 0)))
  | KeyB => Some (withStripeIntensity state (F.sub (stripeIntensity state) (F.lit 1 0)))
  | KeyS | KeyH | KeyOther => Some state
  end.

Definition handleEvent (state : RenderState) (event : Event) : option RenderState :=
  match event with
  | MouseWheelScrolled mousePos delta => onMouseWheel state mousePos delta
  | MouseDragged lastMousePos currentMousePos =>
      Some (onMouseDrag state lastMousePos currentMousePos)
  | KeyPressed code mouseComplexX mouseComplexY =>
      onKeyPressed state code mouseComplexX mouseComplexY
  end.
End Handlers.

(** The [RenderState] that [main] declares (line 443), before its
    first call of [adjustIterations]. *)
Definition defaultState : RenderState := stateWith (D.lit 3 0) 128 false true false.

(** What every handler keeps: a cap in [100, 10000], a colour scheme
    that is a palette index, a fractal type 0 or 1, and inner
    calculation off. *)
Definition settled (state : RenderState) : Prop :=
  100 ≤ maxIterations state ≤ 10000 ∧
  0 ≤ colorScheme state < Z.of_nat (length PALETTES) ∧
  (fractalType state = 0 ∨ fractalType state = 1) ∧
  innerCalculation state = false.

(** ** The main loop (lines 443-712)

    The variables of [main] that outlive a frame.  [rendered] is not a
    variable of the program: it records the arguments [state] and
    [usePreview] of the last call of [renderFractal], whose result
    [texture.update] put on the screen. *)
Record MainState := {
  renderState : RenderState;
  lastMousePos : Z * Z;
  isDragging : bool;
  mouseComplexX : double;
  mouseComplexY : double;
  viewChanged : bool;
  pendingHighQualityRender : bool;
  windowOpen : bool;
  rendered : RenderState * bool;
}.

(** The events that [window.pollEvent] delivers; [mousePos] is what
    [sf::Mouse::getPosition] returns while the event is handled, and
    [left] tells whether the button is [sf::Mouse::Left]. *)
Inductive WindowEvent :=
  | EvClosed
  | EvMouseWheelScrolled (mousePos : Z * Z) (delta : float)
  | EvMouseButtonPressed (left : bool) (mousePos : Z * Z)
  | EvMouseButtonReleased (left : bool)
  | EvMouseMoved (mousePos : Z * Z)
  | EvKeyPressed (code : Key)
  | EvOther.

(** Whether the handler of a key sets [needsRedraw] (and clears
    [viewChanged] and [pendingHighQualityRender]); the A key does so
    when it has switched auto-iteration on. *)
Definition redraws (code : Key) (state : RenderState) : bool :=
  match code with
  | KeyS | KeyH | KeyOther => false
  | KeyA => autoIterations state
  | _ => true
  end.

Section MainLoop.
Context `{M : Libm}.

(** The body of [while (window.pollEvent(event))], lines 473-664, on
    the variables of [main] and the two flags of the frame,
    [needsRedraw] and [usePreview]. *)
Definition onEvent (vars : MainState * bool * bool) (event : WindowEvent)
    : option (MainState * bool * bool) :=
  let '(m, needsRedraw, usePreview) := vars in
  match event with
  | EvClosed =>
      Some ({| renderState := renderState m; lastMousePos := lastMousePos m;
               isDragging := isDragging m; mouseComplexX := mouseComplexX m;
               mouseComplexY := mouseComplexY m; viewChanged := viewChanged m;
               pendingHighQualityRender := pendingHighQualityRender m;
               windowOpen := false; rendered := rendered m |}, needsRedraw, usePreview)
  | EvMouseWheelScrolled mousePos delta =>
      if bool_decide (0 ≤ mousePos.1 < WINDOW_WIDTH ∧ 0 ≤ mousePos.2 < WINDOW_HEIGHT) then
        state ← onMouseWheel (renderState m) mousePos delta;
        Some ({| renderState := state; lastMousePos := lastMousePos m;
                 isDragging := isDragging m; mouseComplexX := mouseComplexX m;
                 mouseComplexY := mouseComplexY m; viewChanged := true;
                 pendingHighQualityRender := pendingHighQualityRender m;
                 windowOpen := windowOpen m; rendered := rendered m |}, true, true)
      else Some vars
  | EvMouseButtonPressed true mousePos =>
      Some ({| renderState := renderState m; lastMousePos := mousePos;
               isDragging := true; mouseComplexX := mouseComplexX m;
               mouseComplexY := mouseComplexY m; viewChanged := viewChanged m;
               pendingHighQualityRender := pendingHighQualityRender m;
               windowOpen := windowOpen m; rendered := rendered m |}, needsRedraw, true)
  | EvMouseButtonReleased true =>
      Some ({| renderState := renderState m; lastMousePos := lastMousePos m;
               isDragging := false; mouseComplexX := mouseComplexX m;
               mouseComplexY := mouseComplexY m; viewChanged := viewChanged m;
               pendingHighQualityRender := true;
               windowOpen := windowOpen m; rendered := rendered m |}, needsRedraw, usePreview)
  | EvMouseMoved currentMousePos =>
      let state := renderState m in
      let mcx := mouseComplex (viewportX state) (viewportSize state)
                   currentMousePos.1 WINDOW_WIDTH in
      let mcy := mouseComplex (viewportY state) (viewportSize state)
                   currentMousePos.2 WINDOW_HEIGHT in
      if isDragging m then
        Some ({| renderState := onMouseDrag state (lastMousePos m) currentMousePos;
                 lastMousePos := currentMousePos;
                 isDragging := true; mouseComplexX := mcx; mouseComplexY := mcy;
                 viewChanged := true;
                 pendingHighQualityRender := pendingHighQualityRender m;
                 windowOpen := windowOpen m; rendered := rendered m |}, true, true)
      else
        Some ({| renderState := state; lastMousePos := lastMousePos m;
                 isDragging := false; mouseComplexX := mcx; mouseComplexY := mcy;
                 viewChanged := viewChanged m;
                 pendingHighQualityRender := pendingHighQualityRender m;
                 windowOpen := windowOpen m; rendered := rendered m |},
              needsRedraw, usePreview)
  | EvKeyPressed code =>
      state ← onKeyPressed (renderState m) code (mouseComplexX m) (mouseComplexY m);
      if redraws code state then
        Some ({| renderState := state; lastMousePos := lastMousePos m;
                 isDragging := isDragging m; mouseComplexX := mouseComplexX m;
                 mouseComplexY := mouseComplexY m; viewChanged := false;
                 pendingHighQualityRender := false;
                 windowOpen := windowOpen m; rendered := rendered m |}, true, usePreview)
      else
        Some ({| renderState := state; lastMousePos := lastMousePos m;
                 isDragging := isDragging m; mouseComplexX := mouseComplexX m;
                 mouseComplexY := mouseComplexY m; viewChanged := viewChanged m;
                 pendingHighQualityRender := pendingHighQualityRender m;
                 windowOpen := windowOpen m; rendered := rendered m |},
              needsRedraw, usePreview)
  | EvMouseButtonPressed false _ | EvMouseButtonReleased false | EvOther => Some vars
  end.

(** One pass through the body of [while (window.isOpen())], lines
    468-711, for the events of the frame; [delayPassed] is the outcome
    of [scrollTimer.getElapsedTime().asSeconds() > SCROLL_RENDER_DELAY]. *)
Definition frame (m : MainState) (events : list WindowEvent) (delayPassed : bool)
    : option MainState :=
  vars ← for_each events onEvent (m, false, false);
  let '(m, needsRedraw, usePreview) := vars in
  let highQuality := (viewChanged m || pendingHighQualityRender m)
                     && negb (isDragging m) && delayPassed in
  let needsRedraw := needsRedraw || highQuality in
  let usePreview := usePreview && negb highQuality in
  Some {| renderState := renderState m; lastMousePos := lastMousePos m;
          isDragging := isDragging m; mouseComplexX := mouseComplexX m;
          mouseComplexY := mouseComplexY m;
          viewChanged := viewChanged m && negb highQuality;
          pendingHighQualityRender := pendingHighQualityRender m && negb highQuality;
          windowOpen := windowOpen m;
          rendered := if needsRedraw then (renderState m, usePreview) else rendered m |}.

(** The frames of the loop, one per element of [inputs], as long as the
    window is open. *)
Definition mainFrames (inputs : list (list WindowEvent * bool)) (m : MainState)
    : option MainState :=
  for_each inputs
    (λ m input, if windowOpen m then frame m input.1 input.2 else Some m) m.

(** [main] up to the loop, lines 443-464: the first call of
    [adjustIterations], the initial render and the initial values of the
    variables. *)
Definition mainStart : option MainState :=
  state ← adjustIterations defaultState;
  Some {| renderState := state; lastMousePos := (0, 0); isDragging := false;
          mouseComplexX := D.of_int 0; mouseComplexY := D.of_int 0;
          viewChanged := false; pendingHighQualityRender := false;
          windowOpen := true; rendered := (state, false) |}.
End MainLoop.

(** Two states that [renderFractal] cannot tell apart: they differ at
    most in [autoIterations], which only [adjustIterations] reads. *)
Definition same_picture (a b : RenderState) : Prop :=
  with_autoIterations a (autoIterations b) = b.

(** Within a frame: once a handler has changed what is drawn,
    [needsRedraw] is set. *)
Definition pending_ok (start : RenderState) (vars : MainState * bool * bool) : Prop :=
  vars.1.2 = true ∨ same_picture start (renderState vars.1.1).

(** * Properties *)

(** ** The main loop *)

Section LoopFacts.
Context `{M : Libm}.
Variables (cr_actual ci_actual : double) (fractalType : Z)
          (stripes : bool) (stripeFrequency : float).

Local Abbreviation pass1 := (pass cr_actual ci_actual fractalType stripes stripeFrequency).
Local Abbreviation orbit := (passes cr_actual ci_actual fractalType stripes stripeFrequency).
Local Abbreviation loop m inner :=
  (mainLoop cr_actual ci_actual m fractalType stripes stripeFrequency inner).

Lemma pass_i s : s_i (pass1 s) = s_i s + 1.
Proof. reflexivity. Qed.

Lemma passes_i k s : s_i (orbit k s) = s_i s + Z.of_nat k.
Proof.
  induction k as [|k IH]; simpl; [lia|]. rewrite IH. lia.
Qed.

Lemma passes_S k s : orbit (S k) s = orbit k (pass1 s).
Proof. apply Nat.iter_succ_r. Qed.

(** [stripeSum] changes only by the additions of the passes taken. *)
Lemma passes_stripeSum k s :
  s_stripeSum (orbit k s) =
  if stripes then accumulated cr_actual ci_actual fractalType stripes stripeFrequency k s
  else s_stripeSum s.
Proof.
  unfold accumulated. induction k as [|k IH]; [by destruct stripes|].
  rewrite seq_S, fold_left_app. cbn [fold_left Nat.add].
  change (orbit (S k) s) with (pass1 (orbit k s)).
  set (acc := fold_left _ (seq 0 k) _) in *.
  unfold pass at 1. cbn [s_stripeSum]. rewrite IH.
  by destruct stripes.
Qed.

(** A result that is not the sentinel carries a counter value that
    the loop reached from where it started. *)
Lemma mainLoop_iteration_ge m inner fuel s info :
  loop m inner fuel s = Some info →
  iteration info = -1 ∨ s_i s ≤ iteration info.
Proof.
  revert s. induction fuel as [|fuel IH]; intros s; simpl; [done|].
  destruct (inside s); [|intros [= <-]; right; simpl; lia].
  case_bool_decide as Hcap.
  - intros [= <-]. destruct inner; [right|left]; simpl; lia.
  - intros Hrun. destruct (IH _ Hrun) as [?|Hge]; [by left|right].
    simpl in Hge. lia.
Qed.

(** Raising the cap (and the fuel with it) keeps every result that
    escaped below the smaller cap. *)
Lemma mainLoop_raise_cap m1 m2 inner fuel1 fuel2 s info :
  loop m1 inner fuel1 s = Some info →
  0 ≤ iteration info < m1 → m1 ≤ m2 → (fuel1 ≤ fuel2)%nat →
  loop m2 inner fuel2 s = Some info.
Proof.
  revert s fuel2. induction fuel1 as [|fuel1 IH]; intros s fuel2; simpl; [done|].
  intros Hrun Hit Hm Hfuel.
  destruct fuel2 as [|fuel2]; [lia|]. simpl.
  destruct (inside s); [|done].
  case_bool_decide as Hcap1.
  { injection Hrun as <-. destruct inner; simpl in Hit; lia. }
  pose proof (mainLoop_iteration_ge _ _ _ _ _ Hrun) as Hge. simpl in Hge.
  rewrite bool_decide_false by (simpl; lia).
  apply IH; [done..|lia].
Qed.

(** The loop with cap [m] and [n] units of fuel, started with
    [s_i s + n = m]: it returns after [k <= n] passes. *)
Lemma mainLoop_returns m inner (n : nat) s :
  s_i s + Z.of_nat n = m → (0 < n)%nat →
  ∃ k : nat, (k ≤ n)%nat ∧
    (∀ j : nat, (j < k)%nat → inside (orbit j s) = true) ∧
    ((inside (orbit k s) = false ∧
      loop m inner n s = Some (detail (orbit k s))) ∨
     (k = n ∧
      loop m inner n s = Some (if inner then detail (orbit k s) else sentinel))).
Proof.
  revert s. induction n as [|n IH]; intros s Hi Hn; [lia|].
  simpl. destruct (inside s) eqn:Hin.
  - case_bool_decide as Hcap.
    + exists 1%nat. split; [lia|]. split.
      * intros j Hj. assert (j = 0%nat) as -> by lia. done.
      * right. split; [|done]. simpl in Hcap. lia.
    + destruct (IH (pass1 s)) as (k & Hk & Hbelow & Hres).
      { rewrite pass_i. lia. }
      { simpl in Hcap. lia. }
      exists (S k). rewrite passes_S. split; [lia|]. split.
      * intros [|j] Hj; [done|]. rewrite passes_S. apply Hbelow. lia.
      * destruct Hres as [?|[-> ?]]; [by left|by right].
  - exists 0%nat. split; [lia|]. split; [intros; lia|by left].
Qed.
End LoopFacts.

Section CalculateFractalFacts.
Context `{M : Libm}.

Lemma loopFuel_pos maxIter : (0 < loopFuel maxIter)%nat.
Proof. unfold loopFuel. case_bool_decide; lia. Qed.

Lemma loopFuel_cap maxIter : 0 < maxIter → Z.of_nat (loopFuel maxIter) = maxIter.
Proof. intros. unfold loopFuel. rewrite bool_decide_true by done. lia. Qed.

(** C7: a point that escaped after [i < m1] passes under the cap [m1]
    gets the same result (classification, [iteration], smooth value and
    stripe sum) under every cap [m2 >= m1]. *)
Theorem calculateFractal_cap_monotone cr ci jr ji m1 m2 isJulia fractalType
    stripes stripeFrequency innerCalculation info :
  calculateFractal cr ci jr ji m1 isJulia fractalType stripes stripeFrequency
    innerCalculation = Some info →
  0 ≤ iteration info < m1 →
  m1 ≤ m2 →
  calculateFractal cr ci jr ji m2 isJulia fractalType stripes stripeFrequency
    innerCalculation = Some info.
Proof.
  unfold calculateFractal. intros Hrun Hit Hm.
  destruct (_ && _ && _ && _).
  { injection Hrun as <-. simpl in Hit. lia. }
  eapply mainLoop_raise_cap; [exact Hrun|done..|].
  pose proof (loopFuel_cap m1) as H1. pose proof (loopFuel_cap m2) as H2. lia.
Qed.

(** C9: with a cap in [100, 10000] the call returns, and its main loop
    returns after [k <= maxIterations] passes: the loop test held before
    each of them, and either it fails after pass [k] (escape) or
    [k = maxIterations] (cap); [stripeSum] then holds exactly the
    additions of the passes [1 .. k]. *)
Theorem mainLoop_terminates (cr ci jr ji : double) (maxIter : Z) (isJulia : bool)
    (fractalType : Z) (stripes : bool) (stripeFrequency : float)
    (innerCalculation : bool) :
  100 ≤ maxIter ≤ 10000 →
  let cr_actual := if isJulia then jr else cr in
  let ci_actual := if isJulia then ji else ci in
  let s0 := initialState cr ci isJulia in
  let orbit := λ k, passes cr_actual ci_actual fractalType stripes stripeFrequency k s0 in
  let result := mainLoop cr_actual ci_actual maxIter fractalType stripes stripeFrequency
                  innerCalculation (loopFuel maxIter) s0 in
  is_Some (calculateFractal cr ci jr ji maxIter isJulia fractalType stripes
             stripeFrequency innerCalculation) ∧
  ∃ k : nat,
    Z.of_nat k ≤ maxIter ∧
    (∀ j : nat, (j < k)%nat → inside (orbit j) = true) ∧
    ((inside (orbit k) = false ∧ result = Some (detail (orbit k))) ∨
     (Z.of_nat k = maxIter ∧
      result = Some (if innerCalculation then detail (orbit k) else sentinel))) ∧
    s_stripeSum (orbit k) =
      (if stripes
       then accumulated cr_actual ci_actual fractalType stripes stripeFrequency k s0
       else F.lit 0 0).
Proof.
  intros Hcap cr_actual ci_actual s0 orbit result.
  destruct (mainLoop_returns cr_actual ci_actual fractalType stripes stripeFrequency
              maxIter innerCalculation (loopFuel maxIter) s0)
    as (k & Hk & Hbelow & Hres).
  { rewrite loopFuel_cap by lia. unfold s0. simpl. lia. }
  { apply loopFuel_pos. }
  assert (is_Some result) as Hsome.
  { unfold result. destruct Hres as [[_ ->]|[_ ->]]; eauto. }
  split.
  { unfold calculateFractal. destruct (_ && _ && _ && _); eauto. }
  exists k. split; [rewrite <- (loopFuel_cap maxIter) by lia; lia|].
  split; [exact Hbelow|]. split.
  - destruct Hres as [?|[-> ?]]; [by left|right].
    split; [apply loopFuel_cap; lia|done].
  - unfold orbit. rewrite passes_stripeSum. by destruct stripes.
Qed.
End CalculateFractalFacts.

(** ** The origin and the zero-pass escape *)

Section OriginFacts.
Context `{M : Libm}.
Variables (stripes : bool) (stripeFrequency : float).

Local Abbreviation zero := (D.lit 0 0).
Local Abbreviation pass0 := (pass zero zero 0 stripes stripeFrequency).

Lemma atOrigin_pass s : atOrigin s → atOrigin (pass0 s).
Proof.
  destruct s as [zr zi zr2 zi2 acc i]. unfold atOrigin. simpl.
  intros (-> & -> & -> & ->). by vm_compute.
Qed.

Lemma atOrigin_passes k s :
  atOrigin s → atOrigin (passes zero zero 0 stripes stripeFrequency k s).
Proof.
  intros Hs. induction k as [|k IH]; [done|]. by apply atOrigin_pass.
Qed.

Lemma atOrigin_inside s : atOrigin s → inside s = true.
Proof.
  destruct s as [zr zi zr2 zi2 acc i]. unfold atOrigin, inside. simpl.
  intros (_ & _ & -> & ->). by vm_compute.
Qed.

Lemma atOrigin_initial : atOrigin (initialState zero zero false).
Proof. by vm_compute. Qed.

(** C8: [c = (0,0)], Mandelbrot mode, standard type: for every cap of
    at least 100 the call returns the interior sentinel, with inner
    calculation on (the cardioid test matches) and off; the sum
    [zr2 + zi2] stays below the escape radius after every number of
    passes, and the full loop runs to the cap. *)
Theorem origin_is_interior (jr ji : double) (maxIter : Z) (innerCalculation : bool) :
  100 ≤ maxIter →
  calculateFractal zero zero jr ji maxIter false 0 stripes stripeFrequency
    innerCalculation = Some sentinel ∧
  inCardioid zero zero = true ∧
  (∀ k : nat, inside (passes zero zero 0 stripes stripeFrequency k
                        (initialState zero zero false)) = true) ∧
  mainLoop zero zero maxIter 0 stripes stripeFrequency false (loopFuel maxIter)
    (initialState zero zero false) = Some sentinel.
Proof.
  intros Hcap.
  assert (∀ k : nat, inside (passes zero zero 0 stripes stripeFrequency k
                               (initialState zero zero false)) = true) as Hin.
  { intros k. apply atOrigin_inside, atOrigin_passes, atOrigin_initial. }
  assert (mainLoop zero zero maxIter 0 stripes stripeFrequency false (loopFuel maxIter)
            (initialState zero zero false) = Some sentinel) as Hloop.
  { destruct (mainLoop_returns zero zero 0 stripes stripeFrequency maxIter false
                (loopFuel maxIter) (initialState zero zero false))
      as (k & _ & _ & [[Hout _]|[_ Hres]]).
    - rewrite loopFuel_cap by lia. simpl. lia.
    - apply loopFuel_pos.
    - by rewrite Hin in Hout.
    - exact Hres. }
  split; [|done].
  unfold calculateFractal. destruct innerCalculation; [done|exact Hloop].
Qed.
End OriginFacts.

Section ZeroPassFacts.
Context `{M : Libm}.

Lemma mul_nan_r (x : double) : D.mul x S754_nan = S754_nan.
Proof. by destruct x. Qed.

(** C10: in Julia mode a sample point whose squared modulus is not
    below the escape radius leaves the loop before the first pass: the
    call returns [iteration = 0] (not the sentinel) with a zero stripe
    sum; in stripe mode the colour scalar of both renderers is then
    computed as [stripeIntensity * (0 / 0)], a NaN, and its conversion
    to [int] is undefined for the region pixel and the preview pixel
    alike. *)
Theorem zero_pass_escape (state : RenderState) (palette : list Color) (cr ci : double) :
  showJulia state = true →
  stripes state = true →
  D.ltb (D.add (D.mul cr cr) (D.mul ci ci)) ESCAPE_RADIUS_SQUARED = false →
  ∃ info,
    sample state cr ci = Some info ∧
    iteration info = 0 ∧
    stripeSum info = Some (D.lit 0 0) ∧
    D.of_int (iteration info) = D.lit 0 0 ∧
    colorScalar state info = Some S754_nan ∧
    regionPixel state palette cr ci = None ∧
    previewPixel state palette cr ci = None.
Proof.
  intros Hjulia Hstripes Hout.
  assert (sample state cr ci = Some (detail (initialState cr ci true))) as Hsample.
  { unfold sample, calculateFractal. rewrite Hjulia.
    rewrite andb_false_r. simpl.
    pose proof (loopFuel_pos (maxIterations state)) as Hfuel.
    destruct (loopFuel (maxIterations state)) as [|fuel]; [lia|].
    simpl. unfold inside. simpl. by rewrite Hout. }
  assert (colorScalar state (detail (initialState cr ci true)) = Some S754_nan) as Hscalar.
  { unfold colorScalar. rewrite Hstripes. simpl.
    by rewrite mul_nan_r. }
  exists (detail (initialState cr ci true)).
  split; [done|]. split; [done|]. split; [by vm_compute|]. split; [done|].
  split; [done|].
  unfold regionPixel, previewPixel, shade. rewrite Hsample. simpl.
  rewrite Hscalar. done.
Qed.
End ZeroPassFacts.

(** ** Worked examples of the loop theorems *)

Lemma calculateFractal_cap_monotone_witness :
  (0 ≤ 3 < 100 ∧ 100 ≤ 10000) ∧
  calculateFractal (D.lit 2 0) (D.lit 2 0) (D.lit 0 0) (D.lit 0 0) 10000 false 0 false
    (F.lit 5 0) false
  = Some {| iteration := 3;
            smoothIteration := Some (S754_finite false 8050846884881960 (-52));
            stripeSum := Some (D.lit 0 0) |}.
Proof.
  split; [lia|].
  apply (calculateFractal_cap_monotone _ _ _ _ 100 10000);
    [by vm_compute | simpl; lia | lia].
Defined.

Lemma mainLoop_terminates_witness :
  100 ≤ 128 ≤ 10000 ∧
  is_Some (calculateFractal (D.lit 2 0) (D.lit 2 0) (D.lit 0 0) (D.lit 0 0) 128 false 0
             true (F.lit 5 0) false).
Proof.
  split; [lia|].
  apply (mainLoop_terminates (D.lit 2 0) (D.lit 2 0) (D.lit 0 0) (D.lit 0 0) 128 false 0
           true (F.lit 5 0) false).
  lia.
Defined.

Lemma origin_is_interior_witness :
  100 ≤ 128 ∧
  calculateFractal (D.lit 0 0) (D.lit 0 0) (D.lit 0 0) (D.lit 0 0) 128 false 0 true
    (F.lit 5 0) true = Some sentinel.
Proof.
  split; [lia|].
  apply (origin_is_interior true (F.lit 5 0) (D.lit 0 0) (D.lit 0 0) 128 true). lia.
Defined.

Lemma zero_pass_escape_witness :
  D.ltb (D.add (D.mul (D.lit 100 0) (D.lit 100 0)) (D.mul (D.lit 0 0) (D.lit 0 0)))
    ESCAPE_RADIUS_SQUARED = false ∧
  ∃ info,
    sample (stateWith (D.lit 3 0) 128 true true false) (D.lit 100 0) (D.lit 0 0) = Some info ∧
    iteration info = 0 ∧
    colorScalar (stateWith (D.lit 3 0) 128 true true false) info = Some S754_nan.
Proof.
  split; [by vm_compute|].
  destruct (zero_pass_escape (stateWith (D.lit 3 0) 128 true true false) []
              (D.lit 100 0) (D.lit 0 0))
    as (info & Hs & Hi & _ & _ & Hc & _); [done|done|by vm_compute|].
  exists info. done.
Defined.

(** ** Loops, stores and interleavings *)

Lemma for_each_ext {S A : Type} (l : list A) (f g : S → A → option S) (s : S) :
  (∀ s' a, a ∈ l → f s' a = g s' a) → for_each l f s = for_each l g s.
Proof.
  revert s. induction l as [|a l IH]; intros s Hfg; [done|]. simpl.
  rewrite Hfg by set_solver. destruct (g s a); [|done]. simpl.
  apply IH. intros; apply Hfg. set_solver.
Qed.

Lemma for_each_app {S A : Type} (l1 l2 : list A) (f : S → A → option S) (s : S) :
  for_each (l1 ++ l2) f s = s' ← for_each l1 f s; for_each l2 f s'.
Proof.
  revert s. induction l1 as [|a l1 IH]; intros s; [done|]. simpl.
  destruct (f s a); [|done]. simpl. apply IH.
Qed.

Lemma run_stores_app (ws1 ws2 : list (Z * Z)) (p : list Z) :
  run_stores (ws1 ++ ws2) p = p' ← run_stores ws1 p; run_stores ws2 p'.
Proof. apply for_each_app. Qed.

Lemma store_length (p p' : list Z) (i v : Z) :
  store p i v = Some p' → length p' = length p.
Proof.
  unfold store. case_bool_decide; [|done]. intros [= <-]. apply length_insert.
Qed.

Lemma store_commute (p : list Z) (i j v w : Z) :
  i ≠ j →
  (p' ← store p i v; store p' j w) = (p' ← store p j w; store p' i v).
Proof.
  intros Hij. unfold store.
  repeat (case_bool_decide; simpl; rewrite ?length_insert in *; try lia; try done).
  f_equal. apply list_insert_insert_ne. lia.
Qed.

(** Stores to pairwise distinct places may be issued in any order. *)
Lemma run_stores_Permutation (ws ws' : list (Z * Z)) (p : list Z) :
  ws ≡ₚ ws' → NoDup ws.*1 → run_stores ws p = run_stores ws' p.
Proof.
  intros Hperm. revert p.
  induction Hperm as [|x l l' _ IH|x y l|l l' l'' H1 IH1 H2 IH2]; intros p Hnd.
  - done.
  - unfold run_stores in *. simpl. destruct (store p x.1 x.2); [|done]. simpl.
    apply IH. by inversion Hnd.
  - unfold run_stores. simpl.
    assert (y.1 ≠ x.1) as Hne.
    { inversion Hnd as [|? ? Hnotin _]; subst. set_solver. }
    pose proof (store_commute p y.1 x.1 y.2 x.2 Hne) as Hc.
    destruct (store p y.1 y.2) as [p1|] eqn:E1; simpl in *.
    + rewrite Hc. by destruct (store p x.1 x.2).
    + destruct (store p x.1 x.2) as [p2|]; simpl in *; [by rewrite <- Hc|done].
  - rewrite IH1 by done. apply IH2. by rewrite <- H1.
Qed.

Lemma interleaves_Permutation {A : Type} (ts : list (list A)) (tr : list A) :
  interleaves ts tr → tr ≡ₚ concat ts.
Proof.
  induction 1 as [ts Hall|ts1 a t ts2 tr _ IH].
  - induction Hall as [|t ts -> _ IH]; [done|exact IH].
  - rewrite concat_app in *. simpl in *. rewrite IH.
    by rewrite Permutation_middle.
Qed.

Lemma interleaves_idle {A : Type} (ts : list (list A)) (tr : list A) :
  interleaves ts tr → interleaves ([] :: ts) tr.
Proof.
  induction 1 as [ts Hall|ts1 a t ts2 tr _ IH].
  - constructor. by constructor.
  - apply (interleaves_step ([] :: ts1)). exact IH.
Qed.

(** Running the workers one after the other is one of the merges. *)
Lemma interleaves_concat {A : Type} (ts : list (list A)) : interleaves ts (concat ts).
Proof.
  induction ts as [|t ts IH]; [by repeat constructor|].
  simpl. induction t as [|a t IHt]; [by apply interleaves_idle|].
  apply (interleaves_step []). exact IHt.
Qed.

(** A loop whose body issues the stores of a trace runs the
    concatenated trace. *)
Lemma for_each_stores {A : Type} (l : list A) (tracef : A → option (list (Z * Z)))
    (body : list Z → A → option (list Z)) (p : list Z) :
  (∀ p' a, body p' a = tr ← tracef a; run_stores tr p') →
  for_each l body p = trs ← mapM tracef l; run_stores (concat trs) p.
Proof.
  intros Hbody. revert p. induction l as [|a l IH]; intros p; [done|].
  simpl. rewrite Hbody. destruct (tracef a) as [tr|]; [|done]. simpl.
  destruct (mapM tracef l) as [trs|] eqn:Htrs; simpl.
  - rewrite run_stores_app. destruct (run_stores tr p); [|done]. simpl.
    rewrite IH. done.
  - destruct (run_stores tr p); [|done]. simpl. by rewrite IH.
Qed.

(** A counted loop whose body issues the stores of a trace runs the
    concatenated traces of its turns. *)
Lemma for_int_stores (l : list Z) (step : Z) (tracef : Z → option (list (Z * Z)))
    (body : list Z → Z → option (list Z)) (p : list Z) :
  (∀ p' c, c ∈ l → body p' c = tr ← tracef c; run_stores tr p') →
  for_int l step body p =
  trs ← mapM (λ c, stepped c step (tracef c)) l; run_stores (concat trs) p.
Proof.
  intros Hbody. unfold for_int.
  rewrite (for_each_ext l _ (λ p' c, stepped c step (tr ← tracef c; run_stores tr p'))).
  2:{ intros p' c Hc. by rewrite Hbody. }
  apply for_each_stores.
  intros p' c. unfold stepped.
  destruct (tracef c) as [tr|]; [|done]. simpl.
  destruct (int_add c step); simpl; by destruct (run_stores tr p').
Qed.

Lemma int_add_Some (a b : Z) : INT_MIN ≤ a + b ≤ INT_MAX → int_add a b = Some (a + b).
Proof. intros H. unfold int_add. by rewrite bool_decide_true. Qed.

Lemma int_mul_Some (a b : Z) : INT_MIN ≤ a * b ≤ INT_MAX → int_mul a b = Some (a * b).
Proof. intros H. unfold int_mul. by rewrite bool_decide_true. Qed.

Lemma stepped_Some {A : Type} (c step : Z) (x : option A) (a : A) :
  stepped c step x = Some a ↔ x = Some a ∧ INT_MIN ≤ c + step ≤ INT_MAX.
Proof.
  unfold stepped, int_add. destruct x as [a'|]; simpl.
  2:{ split; [done|]. by intros [? _]. }
  case_bool_decide; simpl; split.
  - by intros [= ->].
  - by intros [[= ->] _].
  - done.
  - by intros [_ ?].
Qed.

(** Where the index of a pixel is a non-negative [int], the products
    and sums that the source computes on the way to it are too. *)
Lemma index_in_int (width x y : Z) :
  0 ≤ x < width → 0 ≤ (y * width + x) * 4 ≤ INT_MAX →
  0 ≤ y ∧ 0 ≤ y * width ≤ INT_MAX ∧ 0 ≤ y * width + x ≤ INT_MAX.
Proof. intros Hx Hi. assert (0 ≤ y) by nia. nia. Qed.

Lemma store_None (p : list Z) (idx v : Z) :
  idx < 0 ∨ INT_MAX < idx → store p idx v = None.
Proof. intros H. unfold store. rewrite bool_decide_false; [done|lia]. Qed.

Lemma mapM_option_app {A B : Type} (f : A → option B) (l1 l2 : list A) :
  mapM f (l1 ++ l2) = k1 ← mapM f l1; k2 ← mapM f l2; Some (k1 ++ k2).
Proof.
  induction l1 as [|a l1 IH]; simpl.
  - by destruct (mapM f l2).
  - destruct (f a); [|done]. simpl. rewrite IH.
    destruct (mapM f l1); [|done]. simpl. by destruct (mapM f l2).
Qed.

Lemma mapM_concat_app {A B : Type} (f : A → option (list B)) (ls : list (list A)) :
  (rows ← mapM f (concat ls); Some (concat rows)) =
  (parts ← mapM (λ l, rows ← mapM f l; Some (concat rows)) ls; Some (concat parts)).
Proof.
  induction ls as [|l ls IH]; [done|]. simpl.
  rewrite mapM_option_app.
  destruct (mapM f l) as [k1|]; [|done]. simpl.
  destruct (mapM f (concat ls)) as [k2|],
           (mapM (λ l, rows ← mapM f l; Some (concat rows)) ls) as [parts|];
    simpl in *; try done.
  injection IH as IH. by rewrite concat_app, IH.
Qed.

(** ** The renderers *)

Section RenderFacts.
Context `{M : Libm}.

Lemma palette_defined (k : Z) : is_Some (PALETTES !! mod_size k (length PALETTES)).
Proof.
  apply lookup_lt_is_Some. unfold mod_size.
  pose proof (Z.mod_pos_bound (k mod 2 ^ 64) (Z.of_nat (length PALETTES))).
  simpl in *. lia.
Qed.

Lemma pixel_stores (p : list Z) (idx : Z) (color : Color) :
  (p1 ← store p idx (r color);
   p2 ← store p1 (idx + 1) (g color);
   p3 ← store p2 (idx + 2) (b color);
   store p3 (idx + 3) 255) = run_stores (pixelStores idx color) p.
Proof.
  unfold run_stores, pixelStores. simpl.
  destruct (store p idx (r color)) as [p1|]; [|done]. simpl.
  destruct (store p1 (idx + 1) (g color)) as [p2|]; [|done]. simpl.
  destruct (store p2 (idx + 2) (b color)) as [p3|]; [|done]. simpl.
  by destruct (store p3 (idx + 3) 255).
Qed.

(** The stores of a pixel of the row [row] and the column [column],
    with its index evaluated in [int], are the four stores at [(row *
    width + column) * 4] and the three places after it: an overflow on
    the way to the index leaves an index that is not an [int]. *)
Lemma storePixel_stores (p : list Z) (row width column : Z) (color : Color) :
  0 ≤ column < width →
  storePixel p row width column color =
  run_stores (pixelStores ((row * width + column) * 4) color) p.
Proof.
  intros Hc. rewrite <- pixel_stores. unfold storePixel.
  assert (INT_MIN = -2147483648 ∧ INT_MAX = 2147483647) as [Emin Emax] by done.
  destruct (decide (0 ≤ (row * width + column) * 4 ∧
                    (row * width + column) * 4 + 3 ≤ INT_MAX)) as [Hin|Hout].
  - destruct (index_in_int width column row Hc ltac:(lia)) as (Hrow & Hrw & Hs).
    rewrite (int_mul_Some row width) by lia. simpl.
    rewrite (int_add_Some (row * width) column) by lia. simpl.
    rewrite (int_mul_Some _ 4) by lia. simpl.
    rewrite !int_add_Some by lia. done.
  - rewrite (store_None p ((row * width + column) * 4)) by lia. simpl.
    destruct (int_mul row width) as [rw|] eqn:E1; [|done]. simpl.
    destruct (int_add rw column) as [s|] eqn:E2; [|done]. simpl.
    destruct (int_mul s 4) as [i|] eqn:E3; [|done]. simpl.
    unfold int_mul, int_add in E1, E2, E3.
    repeat case_bool_decide; simplify_eq.
    by rewrite store_None by lia.
Qed.

(** The same for a pixel of the block fill, at the row [y + by_] and
    the column [x + bx]. *)
Lemma fillPixel_stores (p : list Z) (width x y bx by_ : Z) (color : Color) :
  0 ≤ x + bx < width →
  (row ← int_add y by_; column ← int_add x bx; storePixel p row width column color) =
  run_stores (pixelStores (((y + by_) * width + (x + bx)) * 4) color) p.
Proof.
  intros Hc.
  assert (INT_MIN = -2147483648 ∧ INT_MAX = 2147483647) as [Emin Emax] by done.
  assert (∀ v, ¬ (INT_MIN ≤ y + by_ ≤ INT_MAX ∧ INT_MIN ≤ x + bx ≤ INT_MAX) →
               store p (((y + by_) * width + (x + bx)) * 4) v = None) as Hnone.
  { intros v Hout. apply store_None.
    destruct (decide (0 ≤ y + by_)); [right|left]; nia. }
  rewrite <- pixel_stores.
  destruct (int_add y by_) as [row|] eqn:E1; simpl.
  - destruct (int_add x bx) as [column|] eqn:E2; simpl.
    + unfold int_add in E1, E2. repeat case_bool_decide; simplify_eq.
      rewrite pixel_stores. by apply storePixel_stores.
    + unfold int_add in E2. case_bool_decide; [done|]. by rewrite Hnone by tauto.
  - unfold int_add in E1. case_bool_decide; [done|]. by rewrite Hnone by tauto.
Qed.

(** [renderFractalRegion] issues the stores of [regionStores]. *)
Lemma renderFractalRegion_stores (p : list Z) (state : RenderState)
    (startY endY width height : Z) :
  renderFractalRegion p state startY endY width height =
  tr ← regionStores state startY endY width; run_stores tr p.
Proof.
  unfold renderFractalRegion, regionStores, rowsStores.
  destruct (PALETTES !! _) as [palette|]; [|done]. simpl.
  rewrite (for_int_stores _ _ (λ y,
    row ← mapM (λ x,
      stepped x 1 (
        color ← regionPixel state palette
          (pixelCoord (viewportX state) (D.div (viewportSize state) (D.of_int 2))
             (D.div (viewportSize state) (D.of_int width)) x)
          (pixelCoord (viewportY state) (D.div (viewportSize state) (D.of_int 2))
             (D.div (viewportSize state) (D.of_int width)) y);
        Some (pixelStores ((y * width + x) * 4) color))) (seqZ 0 width);
    Some (concat row))).
  { unfold rowStores. by destruct (mapM _ _). }
  intros p' y _.
  rewrite (for_int_stores _ _ (λ x,
    color ← regionPixel state palette
      (pixelCoord (viewportX state) (D.div (viewportSize state) (D.of_int 2))
         (D.div (viewportSize state) (D.of_int width)) x)
      (pixelCoord (viewportY state) (D.div (viewportSize state) (D.of_int 2))
         (D.div (viewportSize state) (D.of_int width)) y);
    Some (pixelStores ((y * width + x) * 4) color))).
  { by destruct (mapM _ _). }
  intros p'' x Hx%elem_of_seqZ. destruct (regionPixel _ _ _ _) as [color|]; [|done]. simpl.
  apply storePixel_stores. lia.
Qed.

Lemma strided_unit (n : nat) (v bound : Z) :
  bound - v = Z.of_nat n → strided n v bound 1 = seqZ v (bound - v).
Proof.
  revert v. induction n as [|n IH]; intros v Hn; simpl.
  - by rewrite seqZ_nil by lia.
  - rewrite bool_decide_true by lia. rewrite seqZ_cons by lia.
    rewrite IH by lia. do 2 f_equal; lia.
Qed.

Lemma strided_rows (bound : Z) : strided (Z.to_nat bound) 0 bound 1 = seqZ 0 bound.
Proof.
  destruct (decide (0 ≤ bound)).
  - rewrite strided_unit by lia. f_equal. lia.
  - replace (Z.to_nat bound) with 0%nat by lia. simpl. by rewrite seqZ_nil by lia.
Qed.

(** C5: with [downscale = 1] the preview writes what the region
    renderer writes over the rows [0 .. height): the same buffer, or
    both are undefined. *)
Theorem renderPreview_unit_block (pixels : list Z) (state : RenderState) (width height : Z) :
  renderPreview pixels state width height 1 =
  renderFractalRegion pixels state 0 height width height.
Proof.
  unfold renderPreview, renderFractalRegion.
  destruct (PALETTES !! _) as [palette|]; [|done]. simpl.
  rewrite strided_rows, Z.sub_0_r. unfold for_int.
  apply for_each_ext. intros p y Hy. apply elem_of_seqZ in Hy. f_equal.
  rewrite strided_rows.
  apply for_each_ext. intros p' x Hx. apply elem_of_seqZ in Hx. f_equal.
  unfold previewPixel, regionPixel.
  destruct (sample _ _ _ ≫= _) as [color|]; [|done]. simpl.
  rewrite !Z.min_l by lia. change (seqZ 0 1) with [0]. cbn [for_each]. unfold stepped.
  rewrite (int_add_Some 0 1) by done.
  rewrite fillPixel_stores, storePixel_stores by lia. rewrite !Z.add_0_r.
  by destruct (run_stores _ p').
Qed.
End RenderFacts.

(** ** Row bands *)

Lemma concat_blocks (l : Z) (k : nat) :
  concat ((λ i, seqZ (i * l) l) <$> seqZ 0 (Z.of_nat k)) = seqZ 0 (Z.of_nat k * Z.max 0 l).
Proof.
  destruct (decide (0 ≤ l)) as [Hl|Hl].
  - rewrite Z.max_r by done. induction k as [|k IH]; [done|].
    rewrite seqZ_S, fmap_app, concat_app, IH. simpl.
    rewrite app_nil_r.
    replace (Z.of_nat (S k) * l) with (Z.of_nat k * l + l) by lia.
    rewrite seqZ_app by lia. done.
  - rewrite Z.max_l by lia. rewrite Z.mul_0_r. simpl.
    induction k as [|k IH]; [done|].
    rewrite seqZ_S, fmap_app, concat_app, IH. simpl.
    by rewrite seqZ_nil by lia.
Qed.

(** The bands of [renderFractal] cover the rows [0 .. height) once
    each, in order. *)
Lemma bands_rows (N height : Z) :
  1 ≤ N →
  concat ((λ se, seqZ se.1 (se.2 - se.1)) <$> bands N height) = seqZ 0 height.
Proof.
  intros HN. unfold bands.
  remember (Z.to_nat (N - 1)) as n eqn:Hn.
  assert (N = Z.of_nat (S n)) as -> by lia. clear Hn HN.
  set (l := height `quot` Z.of_nat (S n)).
  rewrite seqZ_S, !fmap_app, concat_app. simpl concat at 2.
  cbn [fmap list_fmap fst snd].
  rewrite bool_decide_true by lia. cbn [concat]. rewrite app_nil_r.
  rewrite <- list_fmap_compose.
  rewrite (list_fmap_ext _ (λ i, seqZ (i * l) l) (seqZ 0 (Z.of_nat n))).
  2:{ intros i x Hx. apply lookup_seqZ in Hx. simpl.
      rewrite bool_decide_false by lia. simpl. f_equal. lia. }
  rewrite concat_blocks.
  destruct (decide (0 ≤ height)) as [Hh|Hh].
  - assert (0 ≤ l) as Hl by (apply Z.quot_pos; lia).
    pose proof (Z.mul_quot_le height (Z.of_nat (S n)) Hh ltac:(lia)) as Hq. fold l in Hq.
    rewrite Z.max_r by done.
    replace (seqZ 0 height)
      with (seqZ 0 (Z.of_nat n * l + (height - Z.of_nat n * l))) by (f_equal; lia).
    rewrite seqZ_app by nia. do 2 f_equal; lia.
  - pose proof (Z.mul_quot_ge height (Z.of_nat (S n)) ltac:(lia) ltac:(lia)) as Hq.
    fold l in Hq.
    rewrite Z.max_l by nia. rewrite Z.mul_0_r. simpl.
    rewrite !seqZ_nil by nia. done.
Qed.

Lemma seqZ_to_nat (m n : Z) : seqZ m n = seqZ m (Z.of_nat (Z.to_nat n)).
Proof. unfold seqZ. by rewrite Nat2Z.id. Qed.

Lemma pixelStores_places (idx : Z) (color : Color) :
  (pixelStores idx color).*1 = seqZ idx 4.
Proof.
  unfold pixelStores, seqZ. simpl.
  by rewrite !(Z.add_comm idx).
Qed.

(** Traces that fill consecutive blocks of [len] places fill, one
    after the other, one block of places. *)
Lemma blocks_places (f : Z → option (list (Z * Z))) (base len : Z) :
  0 ≤ len →
  (∀ k tr, f k = Some tr → tr.*1 = seqZ (base + k * len) len) →
  ∀ (n : nat) (a : Z) (trs : list (list (Z * Z))),
    mapM f (seqZ a (Z.of_nat n)) = Some trs →
    (concat trs).*1 = seqZ (base + a * len) (Z.of_nat n * len).
Proof.
  intros Hlen Hf. induction n as [|n IH]; intros a trs.
  - simpl. by intros [= <-].
  - rewrite seqZ_cons by lia. simpl.
    destruct (f a) as [tr|] eqn:Hfa; [|done]. simpl.
    replace (Z.pred (Z.of_nat (S n))) with (Z.of_nat n) by lia.
    destruct (mapM f (seqZ (Z.succ a) (Z.of_nat n))) as [trs'|] eqn:Hrest; [|done].
    simpl. intros [= <-]. simpl. rewrite fmap_app.
    rewrite (Hf _ _ Hfa), (IH _ _ Hrest).
    replace (Z.of_nat (S n) * len) with (len + Z.of_nat n * len) by lia.
    rewrite seqZ_app by nia. do 2 f_equal. lia.
Qed.

Section BandFacts.
Context `{M : Libm}.

Lemma rowStores_places (state : RenderState) (palette : list Color) (width y : Z)
    (tr : list (Z * Z)) :
  rowStores state palette width y = Some tr →
  tr.*1 = seqZ (0 + y * (4 * Z.max 0 width)) (4 * Z.max 0 width).
Proof.
  unfold rowStores. intros [Hrows _]%stepped_Some.
  destruct (mapM _ _) as [row|] eqn:Hrow; [|done].
  simpl in Hrows. injection Hrows as <-.
  destruct (decide (0 ≤ width)) as [Hw|Hw].
  - rewrite Z.max_r by done.
    rewrite seqZ_to_nat in Hrow.
    eapply (blocks_places _ (y * width * 4) 4) in Hrow; [|lia|].
    + rewrite Hrow. f_equal; lia.
    + intros k tr' [Hpix _]%stepped_Some.
      destruct (regionPixel _ _ _ _) as [color|]; [|done].
      simpl in Hpix. injection Hpix as <-. rewrite pixelStores_places. f_equal. lia.
  - rewrite Z.max_l by lia. rewrite seqZ_nil in Hrow by lia.
    injection Hrow as <-. done.
Qed.

(** No place is written twice by the stores of a region. *)
Lemma regionStores_NoDup (state : RenderState) (startY endY width : Z) (tr : list (Z * Z)) :
  regionStores state startY endY width = Some tr → NoDup tr.*1.
Proof.
  unfold regionStores, rowsStores.
  destruct (PALETTES !! _) as [palette|]; [|done]. simpl.
  destruct (mapM _ _) as [rows|] eqn:Hrows; [|done]. simpl. intros [= <-].
  rewrite seqZ_to_nat in Hrows.
  eapply (blocks_places _ 0 (4 * Z.max 0 width)) in Hrows; [|lia|].
  - rewrite Hrows. apply NoDup_seqZ.
  - intros k tr' Hk. by apply rowStores_places in Hk.
Qed.

Lemma mapM_option_ext {A B : Type} (f g : A → option B) (l : list A) :
  (∀ x, f x = g x) → mapM f l = mapM g l.
Proof. intros Hfg. induction l as [|a l IH]; [done|]. simpl. by rewrite Hfg, IH. Qed.

Lemma mapM_option_fmap {A B C : Type} (f : B → option C) (g : A → B) (l : list A) :
  mapM f (g <$> l) = mapM (f ∘ g) l.
Proof.
  induction l as [|a l IH]; [done|]. rewrite fmap_cons.
  cbn [mapM]. by rewrite IH.
Qed.

(** The stores of the whole image are those of the bands, band after
    band. *)
Lemma regionStores_bands (state : RenderState) (N width height : Z) :
  1 ≤ N →
  regionStores state 0 height width =
  trs ← mapM (λ se, regionStores state se.1 se.2 width) (bands N height);
  Some (concat trs).
Proof.
  intros HN.
  destruct (palette_defined (colorScheme state)) as [palette Hpal].
  assert (∀ a b, regionStores state a b width =
                 rowsStores state palette width (seqZ a (b - a))) as Hreg.
  { intros a b. unfold regionStores. by rewrite Hpal. }
  rewrite Hreg.
  rewrite (mapM_option_ext _ (rowsStores state palette width ∘
                              (λ se, seqZ se.1 (se.2 - se.1))))
    by (intros se; apply Hreg).
  rewrite <- mapM_option_fmap. unfold rowsStores.
  rewrite <- (mapM_concat_app (rowStores state palette width)).
  by rewrite bands_rows, Z.sub_0_r.
Qed.

(** C1: for every number [N >= 1] of bands, the buffer left by the
    workers of [renderFractal] is, whatever the order in which their
    stores reach the buffer, the buffer that one call of
    [renderFractalRegion] over the rows [0 .. height) leaves (or both
    are undefined); so is the buffer left by rendering the bands one
    after the other. *)
Theorem renderFractal_band_independent (N : Z) (pixels : list Z) (state : RenderState)
    (width height : Z) :
  1 ≤ N →
  renderFractal N pixels state width height false
    (renderFractalRegion pixels state 0 height width height) ∧
  (∀ out, renderFractal N pixels state width height false out →
          out = renderFractalRegion pixels state 0 height width height) ∧
  for_each (bands N height)
    (λ p se, renderFractalRegion p state se.1 se.2 width height) pixels =
  renderFractalRegion pixels state 0 height width height.
Proof.
  intros HN.
  pose proof (regionStores_bands state N width height HN) as Hbands.
  pose proof (regionStores_NoDup state 0 height width) as Hnd.
  rewrite (renderFractalRegion_stores pixels state 0 height).
  destruct (mapM _ (bands N height)) as [traces|] eqn:Htraces; simpl in Hbands;
    rewrite Hbands in *; simpl.
  - split; [|split].
    + apply (renderFractal_joined _ _ _ _ _ traces); [done|apply interleaves_concat].
    + intros out Hout. inversion Hout as [|Hnone|traces' tr Hsome Hmerge]; subst.
      * congruence.
      * assert (traces' = traces) as -> by congruence.
        apply run_stores_Permutation.
        -- by apply interleaves_Permutation.
        -- apply interleaves_Permutation in Hmerge. rewrite Hmerge. by apply Hnd.
    + rewrite (for_each_stores _ (λ se, regionStores state se.1 se.2 width)).
      * by rewrite Htraces.
      * intros p' se. apply renderFractalRegion_stores.
  - split; [|split].
    + by apply renderFractal_undefined.
    + intros out Hout. inversion Hout; subst; congruence.
    + rewrite (for_each_stores _ (λ se, regionStores state se.1 se.2 width)).
      * by rewrite Htraces.
      * intros p' se. apply renderFractalRegion_stores.
Qed.
End BandFacts.

(** ** Rounding

    What [binary_round_aux], and with it every operation of [SpecFloat],
    returns on an exact input, and the bounds that follow for results
    compared with representable dyadic numbers. *)


Lemma pow2_pos (k : Z) : 0 ≤ k → 0 < 2 ^ k.
Proof. intros. by apply Z.pow_pos_nonneg. Qed.

Lemma pow2_split (a b : Z) : 0 ≤ a → 0 ≤ b → 2 ^ (a + b) = 2 ^ a * 2 ^ b.
Proof. intros. by apply Z.pow_add_r. Qed.

Lemma dle_at (c m1 e1 m2 e2 : Z) :
  c ≤ e1 → c ≤ e2 →
  dle m1 e1 m2 e2 ↔ m1 * 2 ^ (e1 - c) ≤ m2 * 2 ^ (e2 - c).
Proof.
  intros H1 H2. unfold dle. set (k := Z.min e1 e2).
  replace (e1 - c) with ((e1 - k) + (k - c)) by lia.
  replace (e2 - c) with ((e2 - k) + (k - c)) by lia.
  rewrite !pow2_split by lia. rewrite !Z.mul_assoc.
  pose proof (pow2_pos (k - c) ltac:(lia)).
  split; intros; nia.
Qed.

Lemma dle_elim (c m1 e1 m2 e2 : Z) :
  c ≤ e1 → c ≤ e2 → dle m1 e1 m2 e2 → m1 * 2 ^ (e1 - c) ≤ m2 * 2 ^ (e2 - c).
Proof. intros. by apply dle_at. Qed.

Lemma dle_intro (c m1 e1 m2 e2 : Z) :
  c ≤ e1 → c ≤ e2 → m1 * 2 ^ (e1 - c) ≤ m2 * 2 ^ (e2 - c) → dle m1 e1 m2 e2.
Proof. intros ? ? H. by apply (dle_at c). Qed.

Lemma digits2_bounds (m : positive) :
  2 ^ (Zpos (digits2_pos m) - 1) ≤ Zpos m < 2 ^ Zpos (digits2_pos m).
Proof.
  induction m as [p IH|p IH|]; simpl digits2_pos; [| |simpl; lia].
  - rewrite Pos2Z.inj_succ. replace (Z.succ (Zpos (digits2_pos p)) - 1)
      with ((Zpos (digits2_pos p) - 1) + 1) by lia.
    rewrite Z.pow_succ_r, pow2_split by lia. lia.
  - rewrite Pos2Z.inj_succ. replace (Z.succ (Zpos (digits2_pos p)) - 1)
      with ((Zpos (digits2_pos p) - 1) + 1) by lia.
    rewrite Z.pow_succ_r, pow2_split by lia. lia.
Qed.

Lemma pow2_le_mono (a b : Z) : 0 ≤ a ≤ b → 2 ^ a ≤ 2 ^ b.
Proof. intros. apply Z.pow_le_mono_r; lia. Qed.

Lemma pow2_lt_inv (a b : Z) : 0 ≤ b → 2 ^ a < 2 ^ b → a < b.
Proof.
  intros Hb Hlt. destruct (decide (a < b)); [done|].
  pose proof (pow2_le_mono b a ltac:(lia)). lia.
Qed.

(** digits from bounds *)
Lemma Zdigits2_unique (m k : Z) :
  0 < k → 2 ^ (k - 1) ≤ m < 2 ^ k → Zdigits2 m = k.
Proof.
  intros Hk [Hlo Hhi]. destruct m as [|p|p]; simpl.
  - pose proof (pow2_pos (k - 1) ltac:(lia)). lia.
  - pose proof (digits2_bounds p) as [Dlo Dhi].
    assert (Zpos (digits2_pos p) - 1 < k) by (apply pow2_lt_inv; lia).
    assert (k - 1 < Zpos (digits2_pos p)) by (apply pow2_lt_inv; lia).
    lia.
  - pose proof (pow2_pos (k - 1) ltac:(lia)). lia.
Qed.

Lemma iter_pos_iter {A : Type} (f : A → A) (p : positive) (x : A) :
  iter_pos f p x = Pos.iter f x p.
Proof.
  revert x. induction p as [p IH|p IH|]; intros x; cbn [iter_pos Pos.iter].
  - rewrite !IH. by rewrite !Pos.iter_swap.
  - by rewrite !IH.
  - done.
Qed.

Lemma shr_1_spec (m : Z) (r s : bool) :
  0 ≤ m →
  shr_1 {| shr_m := m; shr_r := r; shr_s := s |} =
  {| shr_m := m / 2; shr_r := Z.odd m; shr_s := r || s |}.
Proof.
  intros Hm. rewrite <- Z.div2_div. destruct m as [|[p|p|]|p]; try done.
Qed.

(** after [p] right shifts *)
Lemma shr_iter_spec (m : Z) (p : positive) :
  0 ≤ m →
  let mrs := iter_pos shr_1 p {| shr_m := m; shr_r := false; shr_s := false |} in
  shr_m mrs = m / 2 ^ Zpos p ∧
  (m mod 2 ^ Zpos p = 0 → shr_r mrs = false ∧ shr_s mrs = false).
Proof.
  intros Hm. cbv zeta. rewrite iter_pos_iter.
  induction p as [|p IH] using Pos.peano_ind.
  - cbn [Pos.iter]. rewrite shr_1_spec by done. cbn [shr_m shr_r shr_s]. split; [done|].
    intros Hmod. split; [|done]. change (2 ^ 1) with 2 in Hmod.
    apply Z.mod_divide in Hmod; [|lia]. destruct Hmod as [q ->].
    rewrite Z.odd_mul. apply andb_false_r.
  - rewrite Pos.iter_succ. destruct IH as [IHm IHrs].
    destruct (Pos.iter shr_1 _ p) as [m' r' s'] eqn:E. cbn [shr_m shr_r shr_s] in *.
    assert (0 ≤ m') by (subst m'; apply Z.div_pos; [done|by apply pow2_pos]).
    rewrite shr_1_spec by done. cbn [shr_m shr_r shr_s].
    rewrite Pos2Z.inj_succ, Z.pow_succ_r by lia.
    pose proof (pow2_pos (Zpos p) ltac:(lia)) as Hpp.
    split.
    + subst m'. rewrite Z.div_div by lia. f_equal. lia.
    + intros Hmod.
      apply Z.mod_divide in Hmod; [|lia]. destruct Hmod as [q Hq].
      assert (m mod 2 ^ Zpos p = 0) as H0.
      { apply Z.mod_divide; [lia|]. exists (q * 2). lia. }
      destruct (IHrs H0) as [-> ->]. split; [|done].
      subst m'. replace m with ((q * 2) * 2 ^ Zpos p) by lia.
      rewrite Z.div_mul by lia. rewrite Z.odd_mul. simpl. apply andb_false_r.
Qed.


Lemma rne_bounds (m : Z) (l : location) :
  m ≤ round_nearest_even m l ≤ m + 1 ∧ (l = loc_Exact → round_nearest_even m l = m).
Proof. destruct l as [|[]]; simpl; try destruct (Z.even m); split; (lia || done). Qed.

Section RoundSpec.
Variables prec emax : Z.
Hypothesis Hprec : 0 < prec.
Hypothesis Hemax : prec < emax.

Local Abbreviation emin := (SpecFloat.emin prec emax).
Local Abbreviation fexp := (SpecFloat.fexp prec emax).

Lemma fexp_ge_emin (x : Z) : emin ≤ fexp x.
Proof. unfold SpecFloat.fexp. lia. Qed.

Lemma shr_fexp_exact (m e : Z) :
  0 ≤ m →
  let k := Z.max 0 (fexp (Zdigits2 m + e) - e) in
  ∃ mrs, shr_fexp prec emax m e loc_Exact = (mrs, e + k) ∧
         shr_m mrs = m / 2 ^ k ∧
         (m mod 2 ^ k = 0 → loc_of_shr_record mrs = loc_Exact).
Proof.
  intros Hm k. unfold shr_fexp, shr. subst k.
  destruct (fexp (Zdigits2 m + e) - e) as [|p|p] eqn:Hn; cbn [shr_record_of_loc].
  - eexists. rewrite Z.add_0_r. split; [done|]. cbn [shr_m]. 
    split; [by rewrite Z.div_1_r|done].
  - rewrite Z.max_r by lia.
    destruct (shr_iter_spec m p Hm) as [Hshr Hex].
    eexists. split; [done|]. split; [done|].
    intros Hmod. destruct (Hex Hmod) as [Hr Hs].
    destruct (iter_pos shr_1 p _) as [m' r' s']. simpl in *. by subst.
  - eexists. rewrite Z.max_l by lia. rewrite Z.add_0_r. split; [done|]. cbn [shr_m].
    split; [by rewrite Z.div_1_r|done].
Qed.

(** What [binary_round_aux] returns on an exact input. *)
Lemma bra_exact_spec (s : bool) (m : positive) (e : Z) :
  let k := Z.max 0 (fexp (Zpos (digits2_pos m) + e) - e) in
  let e1 := e + k in
  ∃ m2, Zpos m / 2 ^ k ≤ m2 ≤ Zpos m / 2 ^ k + 1 ∧
        (Zpos m mod 2 ^ k = 0 → m2 = Zpos m / 2 ^ k) ∧
        binary_round_aux prec emax s (Zpos m) e loc_Exact =
          if decide (m2 = 0) then S754_zero s
          else
            let e3 := if decide (m2 = 2 ^ prec) then e1 + 1 else e1 in
            let m3 := if decide (m2 = 2 ^ prec) then 2 ^ (prec - 1) else m2 in
            if e3 <=? emax - prec then S754_finite s (Z.to_pos m3) e3
            else S754_infinity s.
Proof.
  intros k e1.
  pose proof (digits2_bounds m) as [Dlo Dhi]. set (d := Zpos (digits2_pos m)) in *.
  assert (0 ≤ k) as Hk by lia.
  pose proof (pow2_pos k Hk) as Hpk.
  pose proof (pow2_pos prec ltac:(lia)) as Hpp.
  assert (emin ≤ e1) as He1.
  { pose proof (fexp_ge_emin (d + e)). unfold SpecFloat.fexp in *. lia. }
  assert (Zpos m / 2 ^ k < 2 ^ prec) as Hm1.
  { apply Z.div_lt_upper_bound; [done|].
    rewrite <- pow2_split by lia.
    assert (2 ^ d ≤ 2 ^ (k + prec)); [|lia].
    apply pow2_le_mono. unfold SpecFloat.fexp in *. lia. }
  assert (0 ≤ Zpos m / 2 ^ k) as Hm1' by (apply Z.div_pos; lia).
  unfold binary_round_aux.
  destruct (shr_fexp_exact (Zpos m) e ltac:(lia)) as (mrs & -> & Hmrs & Hloc).
  change (Zdigits2 (Z.pos m)) with d in *. fold k in Hmrs, Hloc |- *. fold e1.
  set (m2 := round_nearest_even (shr_m mrs) (loc_of_shr_record mrs)).
  pose proof (rne_bounds (shr_m mrs) (loc_of_shr_record mrs)) as [Hb Hx].
  fold m2 in Hb, Hx. rewrite Hmrs in Hb, Hx.
  exists m2. split; [done|]. split; [by intros ?; rewrite Hx; auto; rewrite Hloc|].
  destruct (shr_fexp_exact m2 e1 ltac:(lia)) as (mrs2 & -> & Hmrs2 & _).
  rewrite Hmrs2.
  destruct (decide (m2 = 0)) as [->|Hnz].
  { simpl Zdigits2. rewrite Z.max_l by (unfold SpecFloat.fexp; lia).
    by rewrite Z.div_1_r. }
  destruct (decide (m2 = 2 ^ prec)) as [->|Hnc].
  - rewrite (Zdigits2_unique (2 ^ prec) (prec + 1)); [|lia|].
    2:{ replace (prec + 1 - 1) with prec by lia. rewrite (pow2_split prec 1) by lia.
        change (2 ^ 1) with 2. lia. }
    replace (Z.max 0 (fexp (prec + 1 + e1) - e1)) with 1
      by (unfold SpecFloat.fexp; lia).
    replace (2 ^ prec) with (2 ^ (prec - 1) * 2 ^ 1)
      by (rewrite <- pow2_split by lia; f_equal; lia).
    rewrite Z.div_mul by done.
    pose proof (pow2_pos (prec - 1) ltac:(lia)).
    destruct (2 ^ (prec - 1)) as [|q|q] eqn:Eq; try lia. done.
  - assert (Z.max 0 (fexp (Zdigits2 m2 + e1) - e1) = 0) as ->.
    { destruct m2 as [|q|q]; try lia. simpl Zdigits2.
      pose proof (digits2_bounds q) as [Qlo Qhi].
      assert (Zpos (digits2_pos q) - 1 < prec); [|unfold SpecFloat.fexp; lia].
      apply pow2_lt_inv; lia. }
    rewrite Z.div_1_r, Z.add_0_r.
    destruct m2 as [|q|q]; try lia. done.
Qed.
End RoundSpec.


Lemma pow2_ge_2 (a : Z) : 1 ≤ a → 2 ≤ 2 ^ a.
Proof. intros. change 2 with (2 ^ 1) at 1. apply pow2_le_mono. lia. Qed.

Section RoundBounds.
Variables prec emax : Z.
Hypothesis Hprec : 0 < prec.
Hypothesis Hemax : prec < emax.

Local Abbreviation emin := (SpecFloat.emin prec emax).
Local Abbreviation fexp := (SpecFloat.fexp prec emax).

(** The truncated mantissa is not below a representable lower bound. *)
Lemma trunc_lower (m : positive) (e K g : Z) :
  0 < K < 2 ^ prec → emin ≤ g →
  dle K g (Zpos m) e →
  let k := Z.max 0 (fexp (Zpos (digits2_pos m) + e) - e) in
  dle K g (Zpos m / 2 ^ k) (e + k).
Proof.
  intros HK Hg Hle k.
  pose proof (digits2_bounds m) as [Dlo Dhi]. set (d := Zpos (digits2_pos m)) in *.
  destruct (decide (k = 0)) as [->|Hk].
  { by rewrite Z.div_1_r, Z.add_0_r. }
  assert (k = fexp (d + e) - e ∧ 0 < k) as [Hkeq Hkpos] by lia.
  pose proof (pow2_pos k ltac:(lia)) as Hpk.
  destruct (decide (e + k ≤ g)) as [Hge|Hlt].
  - apply (dle_intro (e + k)); [lia..|]. apply (dle_elim e) in Hle; [|lia..].
    rewrite Z.sub_diag, Z.mul_1_r in *.
    replace (g - e) with ((g - (e + k)) + k) in Hle by lia.
    rewrite pow2_split in Hle by lia.
    apply Z.div_le_lower_bound; [done|]. lia.
  - assert (k = d - prec) as Hkd by (unfold SpecFloat.fexp in *; lia).
    apply (dle_intro g); [lia..|]. rewrite Z.sub_diag, Z.mul_1_r.
    assert (2 ^ (prec - 1) ≤ Zpos m / 2 ^ k) as Hm1.
    { apply Z.div_le_lower_bound; [done|]. rewrite <- pow2_split by lia.
      replace (k + (prec - 1)) with (d - 1) by lia. done. }
    pose proof (pow2_ge_2 (e + k - g) ltac:(lia)) as H2.
    pose proof (pow2_pos (prec - 1) ltac:(lia)) as Hpp.
    assert (2 ^ prec = 2 * 2 ^ (prec - 1)) as Hp2.
    { replace prec with (1 + (prec - 1)) at 1 by lia. by rewrite pow2_split by lia. }
    nia.
Qed.

(** The rounded mantissa is not above a representable upper bound. *)
Lemma round_upper (m : positive) (e K g m2 : Z) :
  0 < K < 2 ^ prec → emin ≤ g →
  dle (Zpos m) e K g →
  let k := Z.max 0 (fexp (Zpos (digits2_pos m) + e) - e) in
  Zpos m / 2 ^ k ≤ m2 ≤ Zpos m / 2 ^ k + 1 →
  (Zpos m mod 2 ^ k = 0 → m2 = Zpos m / 2 ^ k) →
  dle m2 (e + k) K g.
Proof.
  intros HK Hg Hle k Hm2 Hexact.
  pose proof (digits2_bounds m) as [Dlo Dhi]. set (d := Zpos (digits2_pos m)) in *.
  destruct (decide (k = 0)) as [Hk0|Hk].
  { rewrite Hk0 in *. rewrite Z.add_0_r. rewrite Hexact by (by rewrite Z.mod_1_r).
    by rewrite Z.div_1_r. }
  assert (k = fexp (d + e) - e ∧ 0 < k) as [Hkeq Hkpos] by lia.
  pose proof (pow2_pos k ltac:(lia)) as Hpk.
  pose proof (Z.div_mod (Zpos m) (2 ^ k) ltac:(lia)) as Hdm.
  pose proof (Z.mod_pos_bound (Zpos m) (2 ^ k) Hpk) as Hmod.
  set (m1 := Zpos m / 2 ^ k) in *. set (rem := Zpos m mod 2 ^ k) in *.
  destruct (decide (rem = 0)) as [Hrem|Hrem].
  { rewrite (Hexact Hrem). apply (dle_intro (Z.min e g)); [lia..|].
    apply (dle_elim (Z.min e g)) in Hle; [|lia..].
    replace (e + k - Z.min e g) with (k + (e - Z.min e g)) by lia.
    rewrite pow2_split by lia. nia. }
  destruct (decide (e + k ≤ g)) as [Hge|Hlt].
  - apply (dle_intro (e + k)); [lia..|]. apply (dle_elim e) in Hle; [|lia..].
    rewrite Z.sub_diag, Z.mul_1_r in *.
    replace (g - e) with ((g - (e + k)) + k) in Hle by lia.
    rewrite pow2_split in Hle by lia.
    pose proof (pow2_pos (g - (e + k)) ltac:(lia)).
    nia.
  - exfalso.
    assert (k = d - prec) as Hkd by (unfold SpecFloat.fexp in *; lia).
    apply (dle_elim (Z.min e g)) in Hle; [|lia..].
    set (c := Z.min e g) in *.
    pose proof (pow2_pos (e - c) ltac:(lia)) as Hpe.
    pose proof (pow2_pos (g - c) ltac:(lia)) as Hpg.
    assert (2 ^ (prec + (g - c)) ≤ 2 ^ ((d - 1) + (e - c))) as Hpow
      by (apply pow2_le_mono; lia).
    rewrite !pow2_split in Hpow by lia.
    nia.
Qed.

Lemma bra_lower (s : bool) (m : positive) (e K g : Z) :
  0 < K < 2 ^ prec → emin ≤ g →
  dle K g (Zpos m) e →
  let x := binary_round_aux prec emax s (Zpos m) e loc_Exact in
  mag_ge K g x ∧ sign_of x = Some s.
Proof.
  intros HK Hg Hle.
  destruct (bra_exact_spec prec emax Hprec s m e) as (m2 & Hm2 & _ & ->).
  pose proof (trunc_lower m e K g HK Hg Hle) as Hlow. cbv zeta in Hlow.
  set (k := Z.max 0 (fexp (Zpos (digits2_pos m) + e) - e)) in *.
  set (e1 := e + k) in *.
  assert (dle K g m2 e1) as Hm2le.
  { apply (dle_intro (Z.min g e1)); [lia..|]. apply (dle_elim (Z.min g e1)) in Hlow; [|lia..].
    pose proof (pow2_pos (e1 - Z.min g e1) ltac:(lia)). nia. }
  assert (0 < m2) as Hpos.
  { apply (dle_elim (Z.min g e1)) in Hm2le; [|lia..].
    pose proof (pow2_pos (e1 - Z.min g e1) ltac:(lia)).
    pose proof (pow2_pos (g - Z.min g e1) ltac:(lia)). nia. }
  destruct (decide (m2 = 0)); [lia|]. cbv zeta.
  destruct (decide (m2 = 2 ^ prec)) as [Hc|Hc].
  - destruct (_ <=? _); [|done]. split; [|done]. simpl.
    pose proof (pow2_pos (prec - 1) ltac:(lia)). rewrite Z2Pos.id by done.
    apply (dle_intro (Z.min g e1)); [lia..|]. apply (dle_elim (Z.min g e1)) in Hm2le; [|lia..].
    replace (e1 + 1 - Z.min g e1) with (1 + (e1 - Z.min g e1)) by lia.
    rewrite pow2_split by lia. rewrite Hc in Hm2le.
    replace prec with ((prec - 1) + 1) in Hm2le at 1 by lia.
    rewrite pow2_split in Hm2le by lia. lia.
  - destruct (_ <=? _); [|done]. split; [|done]. simpl. by rewrite Z2Pos.id.
Qed.

Lemma bra_upper (s : bool) (m : positive) (e K g : Z) :
  0 < K < 2 ^ prec → emin ≤ g ≤ emax - prec →
  e ≤ emax - prec ∨ e ≤ fexp (Zpos (digits2_pos m) + e) →
  dle (Zpos m) e K g →
  let x := binary_round_aux prec emax s (Zpos m) e loc_Exact in
  mag_le K g x ∧ sign_of x = Some s.
Proof.
  intros HK Hg He Hle.
  destruct (bra_exact_spec prec emax Hprec s m e) as (m2 & Hm2 & Hex & ->).
  pose proof (round_upper m e K g m2 HK (proj1 Hg) Hle Hm2 Hex) as Hup.
  pose proof (digits2_bounds m) as [Dlo Dhi].
  set (d := Zpos (digits2_pos m)) in *.
  set (k := Z.max 0 (fexp (d + e) - e)) in *.
  set (e1 := e + k) in *.
  destruct (decide (m2 = 0)); [done|]. cbv zeta.
  assert (0 < m2) as Hpos.
  { assert (0 ≤ Zpos m / 2 ^ k) by (apply Z.div_pos; [lia|apply pow2_pos; lia]). lia. }
  pose proof (pow2_pos (prec - 1) ltac:(lia)) as Hpp1.
  assert (2 ^ prec = 2 ^ (prec - 1) * 2) as Hp2.
  { replace prec with ((prec - 1) + 1) at 1 by lia. by rewrite pow2_split by lia. }
  set (e3 := if decide (m2 = 2 ^ prec) then e1 + 1 else e1).
  set (m3 := if decide (m2 = 2 ^ prec) then 2 ^ (prec - 1) else m2).
  assert (0 < m3) as Hm3 by (unfold m3; destruct (decide _); lia).
  assert (e1 ≤ e3 ∧ m3 * 2 ^ (e3 - e1) = m2) as [He3 Hm3v].
  { unfold e3, m3. destruct (decide _) as [->|].
    - split; [lia|]. replace (e1 + 1 - e1) with 1 by lia. change (2 ^ 1) with 2. lia.
    - split; [lia|]. rewrite Z.sub_diag. lia. }
  assert (dle m3 e3 K g) as Hfin.
  { apply (dle_intro (Z.min g e1)); [lia..|]. apply (dle_elim (Z.min g e1)) in Hup; [|lia..].
    replace (e3 - Z.min g e1) with ((e3 - e1) + (e1 - Z.min g e1)) by lia.
    rewrite pow2_split by lia. nia. }
  assert (e3 ≤ emax - prec) as Hnoover.
  { (* a mantissa of full width forces [e3 <= g] *)
    assert (2 ^ (prec - 1) ≤ m3 → e3 ≤ g) as Hnormal.
    { intros Hfull. destruct (decide (e3 ≤ g)); [done|exfalso].
      apply (dle_elim g) in Hfin; [|lia..]. rewrite Z.sub_diag, Z.mul_1_r in Hfin.
      pose proof (pow2_ge_2 (e3 - g) ltac:(lia)). nia. }
    destruct (decide (k = 0)) as [Hk0|Hk0].
    - (* no shift: [m2 = m] *)
      assert (m2 = Zpos m) as Hm2m.
      { rewrite Hk0 in *. rewrite Hex by (by rewrite Z.mod_1_r). by rewrite Z.div_1_r. }
      assert (Zpos m < 2 ^ prec) as Hsmall.
      { assert (2 ^ d ≤ 2 ^ prec); [|lia]. apply pow2_le_mono.
        unfold SpecFloat.fexp in *. lia. }
      assert (e3 = e) as He3e by (unfold e3; destruct (decide _); lia).
      destruct He as [He|He]; [lia|].
      unfold SpecFloat.fexp, SpecFloat.emin in *.
      destruct (decide (e = 3 - emax - prec)); [lia|].
      assert (d = prec) as Hd by lia.
      apply Z.le_trans with g; [|lia]. apply Hnormal.
      unfold m3. destruct (decide _); [lia|]. rewrite Hm2m, <- Hd. done.
    - unfold SpecFloat.fexp, SpecFloat.emin in *.
      destruct (decide (e1 = 3 - emax - prec)) as [Hsub|Hnorm].
      + unfold e3. destruct (decide _); lia.
      + assert (k = d - prec) as Hkd by lia.
        apply Z.le_trans with g; [|lia]. apply Hnormal.
        assert (2 ^ (prec - 1) ≤ Zpos m / 2 ^ k) as Hm1.
        { pose proof (pow2_pos k ltac:(lia)).
          apply Z.div_le_lower_bound; [done|]. rewrite <- pow2_split by lia.
          replace (k + (prec - 1)) with (d - 1) by lia. done. }
        unfold m3. destruct (decide _); lia. }
  fold e3 m3. rewrite (proj2 (Z.leb_le _ _) Hnoover).
  split; [|done]. simpl. by rewrite Z2Pos.id.
Qed.
End RoundBounds.


Lemma iter_xO_value (m d : positive) :
  Zpos (Pos.iter xO m d) = Zpos m * 2 ^ Zpos d.
Proof.
  induction d as [|d IH] using Pos.peano_ind.
  - simpl. lia.
  - rewrite Pos.iter_succ, Pos2Z.inj_xO, IH, Pos2Z.inj_succ, Z.pow_succ_r by lia. lia.
Qed.

Lemma iter_xO_digits (m d : positive) :
  Zpos (digits2_pos (Pos.iter xO m d)) = Zpos (digits2_pos m) + Zpos d.
Proof.
  induction d as [|d IH] using Pos.peano_ind.
  - simpl. lia.
  - rewrite Pos.iter_succ. simpl digits2_pos. rewrite Pos2Z.inj_succ, IH. lia.
Qed.

Lemma shl_align_spec (mx : positive) (ex ex' : Z) :
  ∃ mz ez, shl_align mx ex ex' = (mz, ez) ∧ ez = Z.min ex ex' ∧
           Zpos mz = Zpos mx * 2 ^ (ex - ez) ∧
           Zpos (digits2_pos mz) + ez = Zpos (digits2_pos mx) + ex.
Proof.
  unfold shl_align. destruct (ex' - ex) as [|d|d] eqn:Hd.
  - exists mx, ex. rewrite Z.min_l by lia. rewrite Z.sub_diag. split; [done|]. lia.
  - exists mx, ex. rewrite Z.min_l by lia. rewrite Z.sub_diag. split; [done|]. lia.
  - exists (Pos.iter xO mx d), ex'. rewrite Z.min_r by lia. split; [done|].
    rewrite iter_xO_value, iter_xO_digits.
    replace (ex - ex') with (Zpos d) by lia. lia.
Qed.

Lemma dle_trans (m1 e1 m2 e2 m3 e3 : Z) :
  dle m1 e1 m2 e2 → dle m2 e2 m3 e3 → dle m1 e1 m3 e3.
Proof.
  intros H12 H23. set (c := Z.min e1 (Z.min e2 e3)).
  apply (dle_elim c) in H12; [|lia..]. apply (dle_elim c) in H23; [|lia..].
  apply (dle_intro c); [lia..|]. lia.
Qed.

Lemma dle_refl (m e : Z) : dle m e m e.
Proof. unfold dle. lia. Qed.

(** rescaling a mantissa *)
Lemma dle_shift_l (m e k m' e' : Z) :
  0 ≤ k → dle (m * 2 ^ k) (e - k) m' e' ↔ dle m e m' e'.
Proof.
  intros Hk. set (c := Z.min (e - k) e').
  assert (m * 2 ^ k * 2 ^ (e - k - c) = m * 2 ^ (e - c)) as Heq.
  { rewrite <- Z.mul_assoc, <- pow2_split by lia. do 2 f_equal. lia. }
  split; intros H.
  - apply (dle_elim c) in H; [|lia..]. apply (dle_intro c); [lia..|]. lia.
  - apply (dle_elim c) in H; [|lia..]. apply (dle_intro c); [lia..|]. lia.
Qed.

Lemma dle_shift_r (m e k m' e' : Z) :
  0 ≤ k → dle m' e' (m * 2 ^ k) (e - k) ↔ dle m' e' m e.
Proof.
  intros Hk. set (c := Z.min (e - k) e').
  assert (m * 2 ^ k * 2 ^ (e - k - c) = m * 2 ^ (e - c)) as Heq.
  { rewrite <- Z.mul_assoc, <- pow2_split by lia. do 2 f_equal. lia. }
  split; intros H.
  - apply (dle_elim c) in H; [|lia..]. apply (dle_intro c); [lia..|]. lia.
  - apply (dle_elim c) in H; [|lia..]. apply (dle_intro c); [lia..|]. lia.
Qed.

Section RoundNormalize.
Variables prec emax : Z.
Hypothesis Hprec : 0 < prec.
Hypothesis Hemax : prec < emax.

Local Abbreviation emin := (SpecFloat.emin prec emax).
Local Abbreviation fexp := (SpecFloat.fexp prec emax).

Lemma binary_round_lower (s : bool) (m : positive) (e K g : Z) :
  0 < K < 2 ^ prec → emin ≤ g →
  dle K g (Zpos m) e →
  mag_ge K g (binary_round prec emax s m e) ∧
  sign_of (binary_round prec emax s m e) = Some s.
Proof.
  intros HK Hg Hle. unfold binary_round.
  destruct (shl_align_spec m e (fexp (Zpos (digits2_pos m) + e)))
    as (mz & ez & -> & Hez & Hmz & _).
  apply (bra_lower prec emax Hprec); [done..|].
  rewrite Hmz. replace ez with (e - (e - ez)) at 2 by lia.
  apply dle_shift_r; [lia|done].
Qed.

Lemma binary_round_upper (s : bool) (m : positive) (e K g : Z) :
  0 < K < 2 ^ prec → emin ≤ g ≤ emax - prec →
  dle (Zpos m) e K g →
  mag_le K g (binary_round prec emax s m e) ∧
  sign_of (binary_round prec emax s m e) = Some s.
Proof.
  intros HK Hg Hle. unfold binary_round.
  destruct (shl_align_spec m e (fexp (Zpos (digits2_pos m) + e)))
    as (mz & ez & -> & Hez & Hmz & Hdz).
  apply (bra_upper prec emax Hprec Hemax); [done..| |].
  - right. rewrite Hdz. lia.
  - rewrite Hmz. replace ez with (e - (e - ez)) at 2 by lia.
    apply dle_shift_l; [lia|done].
Qed.

(** Integers of at most [prec] bits convert exactly. *)
Lemma binary_normalize_int (z : Z) :
  z ≠ 0 → Z.abs z < 2 ^ prec →
  is_int (z <? 0) (Z.abs z) (binary_normalize prec emax z 0 false).
Proof.
  intros Hz Hsmall.
  assert (emin ≤ 0 ≤ emax - prec) as Hg by (unfold SpecFloat.emin; lia).
  destruct z as [|p|p]; [done|..]; simpl binary_normalize; simpl Z.ltb; simpl Z.abs in *.
  - pose proof (binary_round_lower false p 0 (Zpos p) 0 ltac:(lia) ltac:(lia) (dle_refl _ _)) as [Hl Hs].
    pose proof (binary_round_upper false p 0 (Zpos p) 0 ltac:(lia) Hg (dle_refl _ _)) as [Hu _].
    destruct (binary_round prec emax false p 0) as [| | |s' m' e']; try done.
    simpl in *. injection Hs as ->. done.
  - pose proof (binary_round_lower true p 0 (Zpos p) 0 ltac:(lia) ltac:(lia) (dle_refl _ _)) as [Hl Hs].
    pose proof (binary_round_upper true p 0 (Zpos p) 0 ltac:(lia) Hg (dle_refl _ _)) as [Hu _].
    destruct (binary_round prec emax true p 0) as [| | |s' m' e']; try done.
    simpl in *. injection Hs as ->. done.
Qed.
End RoundNormalize.


Lemma shiftl_lower (K : Z) (m : positive) (e : Z) :
  dle K 0 (Zpos m) e → K ≤ Z.shiftl (Zpos m) e.
Proof.
  intros Hle. destruct (decide (0 ≤ e)).
  - rewrite Z.shiftl_mul_pow2 by done. apply (dle_elim 0) in Hle; [|lia..].
    rewrite !Z.sub_0_r in Hle. simpl in Hle. lia.
  - rewrite Z.shiftl_div_pow2 by lia. apply (dle_elim e) in Hle; [|lia..].
    rewrite Z.sub_diag, Z.sub_0_l, Z.mul_1_r in Hle.
    apply Z.div_le_lower_bound; [apply pow2_pos; lia|lia].
Qed.

(** [Kh * 2^gh] bounds the value, [B + 1] bounds [Kh * 2^gh] strictly. *)
Lemma shiftl_upper (K g B : Z) (m : positive) (e : Z) :
  g ≤ 0 → K < (B + 1) * 2 ^ (- g) →
  dle (Zpos m) e K g → Z.shiftl (Zpos m) e ≤ B.
Proof.
  intros Hg HK Hle.
  pose proof (pow2_pos (- g) ltac:(lia)) as Hpg.
  destruct (decide (0 ≤ e)).
  - rewrite Z.shiftl_mul_pow2 by done. apply (dle_elim g) in Hle; [|lia..].
    rewrite Z.sub_diag, Z.mul_1_r in Hle.
    replace (e - g) with (e + - g) in Hle by lia. rewrite pow2_split in Hle by lia.
    assert (Zpos m * 2 ^ e * 2 ^ (- g) < (B + 1) * 2 ^ (- g)) as Hlt by lia.
    apply Z.mul_lt_mono_pos_r in Hlt; lia.
  - rewrite Z.shiftl_div_pow2 by lia.
    pose proof (pow2_pos (- e) ltac:(lia)) as Hpe.
    assert (Zpos m / 2 ^ (- e) < B + 1); [|lia].
    apply Z.div_lt_upper_bound; [done|].
    set (c := Z.min e g). apply (dle_elim c) in Hle; [|lia..].
    pose proof (pow2_pos (e - c) ltac:(lia)) as Pe.
    pose proof (pow2_pos (g - c) ltac:(lia)) as Pg.
    assert (2 ^ (- e) * 2 ^ (e - c) = 2 ^ (- g) * 2 ^ (g - c)) as E1.
    { rewrite <- !pow2_split by lia. f_equal. lia. }
    assert (K * 2 ^ (g - c) < (B + 1) * 2 ^ (- g) * 2 ^ (g - c)) as H1.
    { apply Z.mul_lt_mono_pos_r; done. }
    assert (Zpos m * 2 ^ (e - c) < 2 ^ (- e) * (B + 1) * 2 ^ (e - c)) as Hlt.
    { replace (2 ^ (- e) * (B + 1) * 2 ^ (e - c))
        with ((B + 1) * (2 ^ (- e) * 2 ^ (e - c))) by ring.
      rewrite E1. lia. }
    apply Z.mul_lt_mono_pos_r in Hlt; lia.
Qed.

Section RoundClients.
Variables prec emax : Z.
Hypothesis Hprec : 0 < prec.
Hypothesis Hemax : prec < emax.

Local Abbreviation emin := (SpecFloat.emin prec emax).

Lemma bra_exp_bounded (s : bool) (m : positive) (e : Z) :
  exp_bounded (emax - prec) (binary_round_aux prec emax s (Zpos m) e loc_Exact).
Proof.
  destruct (bra_exact_spec prec emax Hprec s m e) as (m2 & _ & _ & ->).
  destruct (decide (m2 = 0)); [done|]. cbv zeta.
  destruct (_ <=? _) eqn:E; [|done]. simpl. lia.
Qed.

Lemma binary_normalize_exp_bounded (z e : Z) (s0 : bool) :
  exp_bounded (emax - prec) (binary_normalize prec emax z e s0).
Proof.
  destruct z as [|p|p]; [done|..]; simpl; unfold binary_round;
    destruct (shl_align _ _ _); apply bra_exp_bounded.
Qed.

(** The product of a factor in [0, 1] and a float of integer value
    [K] is zero or has the sign of the integer and at most its
    magnitude. *)
Lemma mul_unit_int (f x : spec_float) (s : bool) (K : Z) :
  in_unit f → is_int s K x → exp_bounded (emax - prec) x → 0 < K < 2 ^ prec →
  small_signed s K (SFmul prec emax f x).
Proof.
  intros Hf Hx Hb HK.
  destruct x as [| | |sx mx ex]; try done. destruct Hx as (-> & Hlo & Hhi).
  destruct f as [sf| | |[] mf ef]; try done. simpl in Hf, Hb |- *.
  assert (emin ≤ 0 ≤ emax - prec) as Hg by (unfold SpecFloat.emin; lia).
  set (c1 := Z.min ef 0). set (c2 := Z.min ex 0).
  apply (dle_elim c1) in Hf; [|lia..]. apply (dle_elim c2) in Hhi; [|lia..].
  pose proof (pow2_pos (ef - c1) ltac:(lia)) as P1.
  pose proof (pow2_pos (ex - c2) ltac:(lia)) as P2.
  pose proof (pow2_pos (0 - c1) ltac:(lia)) as P3.
  pose proof (pow2_pos (0 - c2) ltac:(lia)) as P4.
  assert (ef ≤ 0) as Hef.
  { destruct (decide (ef ≤ 0)); [done|exfalso]. unfold c1 in *. rewrite Z.min_r in * by lia.
    rewrite Z.sub_0_r in *. pose proof (pow2_ge_2 ef ltac:(lia)). simpl in Hf. nia. }
  destruct (bra_upper prec emax Hprec Hemax s (mf * mx) (ef + ex) K 0 HK Hg) as [Hm Hs].
  - left. lia.
  - apply (dle_intro (c1 + c2)); [lia..|]. rewrite Pos2Z.inj_mul.
    replace (ef + ex - (c1 + c2)) with ((ef - c1) + (ex - c2)) by lia.
    replace (0 - (c1 + c2)) with ((0 - c1) + (0 - c2)) by lia.
    rewrite !pow2_split by lia. nia.
  - destruct (binary_round_aux _ _ _ _ _ _) as [| | |s' m' e']; try done.
    simpl in *. split; [congruence|done].
Qed.

(** Adding such a product to a float of positive integer value [a]
    gives at least [min a (a + d)]. *)
Lemma add_int_small (x y : spec_float) (a d : Z) :
  is_int false a x → small_signed (d <? 0) (Z.abs d) y →
  1 ≤ a → 1 ≤ a + d → Z.min a (a + d) < 2 ^ prec →
  mag_ge (Z.min a (a + d)) 0 (SFadd prec emax x y) ∧
  sign_of (SFadd prec emax x y) = Some false.
Proof.
  intros Hx Hy Ha Hc Hsmall.
  destruct x as [| | |sx mx ex]; try done. destruct Hx as (-> & Hlo & Hhi).
  assert (emin ≤ 0) as Hg by (unfold SpecFloat.emin; lia).
  destruct y as [sy| | |sy my ey]; try done.
  { simpl. split; [|done]. eapply dle_trans; [|exact Hlo].
    apply (dle_intro 0); [lia..|]. lia. }
  destruct Hy as (-> & Hy). cbn [SFadd].
  set (ez := Z.min ex ey).
  destruct (shl_align_spec mx ex ez) as (mx' & ex' & -> & Hex' & Hmx & _).
  destruct (shl_align_spec my ey ez) as (my' & ey' & -> & Hey' & Hmy & _).
  cbn [fst]. assert (ex' = ez) as -> by lia. assert (ey' = ez) as -> by lia.
  clear Hex' Hey'.
  set (c := Z.min ez 0).
  apply (dle_elim c) in Hlo; [|lia..]. apply (dle_elim c) in Hhi; [|lia..].
  apply (dle_elim c) in Hy; [|lia..].
  pose proof (pow2_pos (ez - c) ltac:(lia)) as P0.
  pose proof (pow2_pos (0 - c) ltac:(lia)) as P1.
  assert (2 ^ (ex - c) = 2 ^ (ex - ez) * 2 ^ (ez - c)) as Ex
    by (rewrite <- pow2_split by lia; f_equal; lia).
  assert (2 ^ (ey - c) = 2 ^ (ey - ez) * 2 ^ (ez - c)) as Ey
    by (rewrite <- pow2_split by lia; f_equal; lia).
  change (cond_Zopp false (Zpos mx')) with (Zpos mx').
  set (M := Zpos mx' + cond_Zopp (d <? 0) (Zpos my')).
  assert (Z.min a (a + d) * 2 ^ (0 - c) ≤ M * 2 ^ (ez - c)) as HM.
  { unfold M. destruct (d <? 0) eqn:Hd; simpl cond_Zopp.
    - apply Z.ltb_lt in Hd. nia.
    - apply Z.ltb_ge in Hd. nia. }
  clearbody M. destruct M as [|p|p]; try nia.
  simpl binary_normalize.
  apply binary_round_lower; [done|lia|done|].
  apply (dle_intro c); [lia..|]. done.
Qed.

Lemma cast_positive (lo hi K : Z) (x : spec_float) :
  1 ≤ K → mag_ge K 0 x → sign_of x = Some false →
  cast_range lo hi x ≠ Some 0.
Proof.
  intros HK Hx Hs. unfold cast_range.
  destruct x as [| | |s m e]; try done. simpl in *. injection Hs as ->.
  simpl. apply shiftl_lower in Hx. case_bool_decide; [|done].
  intros [= ?]. lia.
Qed.
End RoundClients.


Lemma digits_to_pos (z k : Z) :
  0 < k → 2 ^ (k - 1) ≤ z < 2 ^ k → Zpos (digits2_pos (Z.to_pos z)) = k.
Proof.
  intros Hk Hz. pose proof (pow2_pos (k - 1) ltac:(lia)).
  destruct z as [|p|p]; try lia. simpl.
  by apply (Zdigits2_unique (Zpos p) k).
Qed.

Section RoundValid.
Variables prec emax : Z.
Hypothesis Hprec : 0 < prec.
Hypothesis Hemax : prec < emax.

Local Abbreviation emin := (SpecFloat.emin prec emax).
Local Abbreviation fexp := (SpecFloat.fexp prec emax).

(** Rounding an input whose exponent is not above the canonical one
    gives a canonical float. *)
Lemma bra_valid (s : bool) (m : positive) (e : Z) :
  e ≤ fexp (Zpos (digits2_pos m) + e) →
  valid_binary prec emax (binary_round_aux prec emax s (Zpos m) e loc_Exact) = true.
Proof.
  intros He.
  destruct (bra_exact_spec prec emax Hprec s m e) as (m2 & Hm2 & _ & ->).
  pose proof (digits2_bounds m) as [Dlo Dhi].
  set (d := Zpos (digits2_pos m)) in *.
  set (k := Z.max 0 (fexp (d + e) - e)) in *.
  assert (k = fexp (d + e) - e) as Hk by lia.
  pose proof (pow2_pos k ltac:(lia)) as Hpk.
  pose proof (pow2_pos (prec - 1) ltac:(lia)) as Hpp.
  assert (2 ^ prec = 2 ^ (prec - 1) * 2) as Hp2.
  { replace prec with ((prec - 1) + 1) at 1 by lia. by rewrite pow2_split by lia. }
  assert (0 ≤ Zpos m / 2 ^ k) as Hm1 by (apply Z.div_pos; lia).
  destruct (decide (m2 = 0)); [done|]. cbv zeta.
  destruct (_ <=? _) eqn:Hfit; [|done].
  apply Z.leb_le in Hfit. simpl. unfold bounded, canonical_mantissa.
  apply andb_true_iff. split; [|by apply Z.leb_le]. apply Z.eqb_eq.
  unfold SpecFloat.fexp, SpecFloat.emin in *.
  destruct (decide (3 - emax - prec ≤ d + e - prec)) as [Hnormal|Hsub].
  - assert (k = d - prec) as Hkd by lia.
    assert (2 ^ (prec - 1) ≤ Zpos m / 2 ^ k) as Hlow.
    { apply Z.div_le_lower_bound; [done|]. rewrite <- pow2_split by lia.
      replace (k + (prec - 1)) with (d - 1) by lia. done. }
    assert (Zpos m / 2 ^ k < 2 ^ prec) as Hhigh.
    { apply Z.div_lt_upper_bound; [done|]. rewrite <- pow2_split by lia.
      replace (k + prec) with d by lia. done. }
    destruct (decide (m2 = 2 ^ prec)) as [Hc|Hc].
    + rewrite (digits_to_pos (2 ^ (prec - 1)) prec); lia.
    + rewrite (digits_to_pos m2 prec); lia.
  - assert (k = 3 - emax - prec - e) as Hkd by lia.
    assert (Zpos m / 2 ^ k < 2 ^ (prec - 1)) as Hhigh.
    { apply Z.div_lt_upper_bound; [done|]. rewrite <- pow2_split by lia.
      assert (2 ^ d ≤ 2 ^ (k + (prec - 1))); [|lia].
      apply pow2_le_mono. lia. }
    destruct (decide (m2 = 2 ^ prec)) as [Hc|Hc]; [lia|].
    destruct m2 as [|q|q]; try lia. simpl Z.to_pos.
    pose proof (digits2_bounds q) as [Qlo Qhi].
    assert (Zpos (digits2_pos q) - 1 < prec); [|lia].
    apply pow2_lt_inv; lia.
Qed.

Lemma binary_round_valid (s : bool) (m : positive) (e : Z) :
  valid_binary prec emax (binary_round prec emax s m e) = true.
Proof.
  unfold binary_round.
  destruct (shl_align_spec m e (fexp (Zpos (digits2_pos m) + e)))
    as (mz & ez & -> & Hez & _ & Hdz).
  apply bra_valid. rewrite Hdz. lia.
Qed.
End RoundValid.


(** ** Colour interpolation *)


Lemma D_prec_pos : 0 < D.prec. Proof. done. Qed.
Lemma D_prec_emax : D.prec < D.emax. Proof. done. Qed.
Lemma F_prec_pos : 0 < F.prec. Proof. done. Qed.
Lemma F_prec_emax : F.prec < F.emax. Proof. done. Qed.

Lemma pow2_le_255 : 255 < 2 ^ D.prec. Proof. done. Qed.

Lemma of_int_is_int (z : Z) :
  z ≠ 0 → Z.abs z ≤ 255 → is_int (z <? 0) (Z.abs z) (D.of_int z).
Proof.
  intros. apply (binary_normalize_int D.prec D.emax D_prec_pos D_prec_emax); [done|].
  pose proof pow2_le_255. lia.
Qed.

Lemma mul_unit_zero (f : double) (s : bool) :
  in_unit f → small_signed false 0 (D.mul f (S754_zero s)).
Proof. destruct f as [| | |[] ? ?]; done. Qed.

(** A channel whose two end points are not zero is never mapped to
    zero by a blend factor in [0, 1]. *)
Lemma interpolateChannel_positive (a c : Z) (factor : double) :
  1 ≤ a ≤ 255 → 1 ≤ c ≤ 255 → in_unit factor →
  interpolateChannel a c factor ≠ Some 0.
Proof.
  intros Ha Hc Hf. unfold interpolateChannel, D.to_uint8.
  pose proof pow2_le_255 as H255.
  pose proof (of_int_is_int a ltac:(lia) ltac:(lia)) as Hx.
  replace (a <? 0) with false in Hx by lia. rewrite Z.abs_eq in Hx by lia.
  assert (small_signed (c - a <? 0) (Z.abs (c - a)) (D.mul factor (D.of_int (c - a))))
    as Hy.
  { destruct (decide (c - a = 0)) as [->|Hd].
    - by apply mul_unit_zero.
    - apply (mul_unit_int D.prec D.emax D_prec_pos D_prec_emax); [done| | |lia].
      + apply of_int_is_int; lia.
      + apply (binary_normalize_exp_bounded D.prec D.emax D_prec_pos). }
  destruct (add_int_small D.prec D.emax D_prec_pos D_prec_emax _ _ a (c - a) Hx Hy)
    as [Hge Hs]; [lia..|].
  apply (cast_positive 0 255 (Z.min a (a + (c - a)))); [lia|done..].
Qed.

Lemma bright_spec (c : Z) : bright c = true → 1 ≤ c ≤ 255.
Proof. unfold bright. by intros ?%bool_decide_eq_true. Qed.

Lemma interpolateColors_not_black (c1 c2 : Color) (factor : double) :
  bright_pair c1 c2 = true → in_unit factor →
  interpolateColors c1 c2 factor ≠ Some (mkColor 0 0 0).
Proof.
  intros Hpair Hf. unfold interpolateColors.
  destruct (interpolateChannel (r c1) (r c2) factor) as [r'|] eqn:Hr; [|done].
  destruct (interpolateChannel (g c1) (g c2) factor) as [g'|] eqn:Hg; [|done].
  destruct (interpolateChannel (b c1) (b c2) factor) as [b'|] eqn:Hb; [|done].
  simpl. intros [= -> -> ->].
  unfold bright_pair in Hpair.
  apply orb_true_iff in Hpair as [Hpair|Hpair];
    [apply orb_true_iff in Hpair as [Hpair|Hpair]|];
    apply andb_true_iff in Hpair as [H1 H2];
    apply bright_spec in H1, H2.
  - by apply (interpolateChannel_positive _ _ factor H1 H2 Hf).
  - by apply (interpolateChannel_positive _ _ factor H1 H2 Hf).
  - by apply (interpolateChannel_positive _ _ factor H1 H2 Hf).
Qed.

Lemma of_float_in_unit (x : float) : in_unit x → in_unit (D.of_float x).
Proof.
  destruct x as [| | |[] m e]; try done. simpl. intros Hx.
  destruct (binary_round_upper D.prec D.emax D_prec_pos D_prec_emax false m e 1 0)
    as [Hle Hs]; [done..|].
  destruct (binary_round _ _ _ _ _) as [| | |s' m' e']; try done.
  simpl in *. by injection Hs as ->.
Qed.

Lemma valid_digits (prec emax : Z) (s : bool) (m : positive) (e : Z) :
  valid_binary prec emax (S754_finite s m e) = true → Zpos m < 2 ^ prec ∨ prec ≤ 0.
Proof.
  simpl. unfold bounded, canonical_mantissa, SpecFloat.fexp.
  intros [Hc _]%andb_true_iff. apply Z.eqb_eq in Hc.
  pose proof (digits2_bounds m) as [_ Hhi].
  destruct (decide (0 < prec)); [left|right; lia].
  assert (2 ^ Zpos (digits2_pos m) ≤ 2 ^ prec); [|lia].
  apply pow2_le_mono. lia.
Qed.

(** The fractional part [t - floor t] of a binary32 number. *)
Lemma fract_in_unit (t : float) (k : Z) :
  F.valid t = true → F.to_int t = Some k →
  in_unit (F.sub t (F.floor t)).
Proof.
  intros Hvalid Hk.
  destruct t as [s| | |s m e]; try done.
  { by destruct s. }
  clear Hk. apply valid_digits in Hvalid as [Hm|?]; [|done].
  unfold F.floor. case_bool_decide as He.
  { (* no fractional bits *)
    unfold F.sub. cbn [SFsub]. rewrite Z.sub_diag. done. }
  assert (e < 0) as He' by lia. clear He.
  set (k2 := 2 ^ (- e)).
  assert (0 < k2) as Hk2 by (apply pow2_pos; lia).
  assert (2 ≤ k2) as Hk2' by (apply pow2_ge_2; lia).
  rewrite Z.shiftl_div_pow2 by lia. fold k2.
  set (q := cond_Zopp s (Zpos m) / k2).
  pose proof (Z.div_mod (cond_Zopp s (Zpos m)) k2 ltac:(lia)) as Hdm.
  pose proof (Z.mod_pos_bound (cond_Zopp s (Zpos m)) k2 Hk2) as Hmod.
  fold q in Hdm. set (rem := cond_Zopp s (Zpos m) mod k2) in *.
  assert (2 ^ F.prec = 16777216) as Hp by done.
  destruct (decide (q = 0)) as [Hq|Hq].
  { rewrite Hq. simpl binary_normalize. unfold F.sub. cbn [SFsub].
    destruct s; simpl in Hdm; [lia|]. simpl.
    apply (dle_intro e); [lia..|]. rewrite Z.sub_diag, Z.sub_0_l. fold k2. lia. }
  assert (Z.abs q < 2 ^ F.prec) as Hqsmall.
  { destruct s; simpl in Hdm; nia. }
  pose proof (binary_normalize_int F.prec F.emax F_prec_pos F_prec_emax q Hq Hqsmall) as Hfl.
  assert ((q <? 0) = s) as Hsq.
  { destruct s; simpl in Hdm; [apply Z.ltb_lt|apply Z.ltb_ge]; nia. }
  rewrite Hsq in Hfl.
  destruct (binary_normalize F.prec F.emax q 0 false) as [| | |sq mq eq]; try done.
  destruct Hfl as (-> & Hlo & Hhi).
  unfold F.sub. cbn [SFsub].
  set (ez := Z.min e eq).
  destruct (shl_align_spec m e ez) as (m' & e1 & -> & He1 & Hm' & _).
  destruct (shl_align_spec mq eq ez) as (mq' & e2 & -> & He2 & Hmq' & _).
  cbn [fst]. assert (e1 = ez) as -> by lia. assert (e2 = ez) as -> by lia.
  apply (dle_elim ez) in Hlo; [|lia..]. apply (dle_elim ez) in Hhi; [|lia..].
  assert (2 ^ (0 - ez) = k2 * 2 ^ (e - ez)) as Hsplit.
  { unfold k2. rewrite <- pow2_split by lia. f_equal. lia. }
  pose proof (pow2_pos (e - ez) ltac:(lia)) as Pe.
  set (M := cond_Zopp s (Zpos m') - cond_Zopp s (Zpos mq')).
  assert (0 ≤ M < 2 ^ (0 - ez)) as HM.
  { unfold M. rewrite Hm', Hmq'. destruct s; simpl in *; nia. }
  clearbody M. destruct M as [|p|p]; [done| |lia].
  simpl binary_normalize.
  destruct (binary_round_upper F.prec F.emax F_prec_pos F_prec_emax false p ez 1 0)
    as [Hle Hs]; [done|done| |].
  { apply (dle_intro ez); [lia..|]. rewrite Z.sub_diag. lia. }
  destruct (binary_round _ _ _ _ _) as [| | |s' m'' e'']; try done.
  simpl in *. by injection Hs as ->.
Qed.

Lemma mod_size_lt (k : Z) (n : nat) : (0 < n)%nat → (mod_size k n < n)%nat.
Proof.
  intros Hn. unfold mod_size.
  pose proof (Z.mod_pos_bound (k mod 2 ^ 64) (Z.of_nat n) ltac:(lia)). lia.
Qed.

(** Over a palette without a dark pair of neighbours the interpolation
    path never gives black. *)
Lemma mapColor_not_black (palette : list Color) (t : float) :
  bright_palette palette = true → F.valid t = true →
  mapColor palette t ≠ Some (mkColor 0 0 0).
Proof.
  intros Hpal Hvalid. unfold mapColor.
  destruct (F.to_int t) as [k|] eqn:Hk; [|done]. simpl.
  set (index := mod_size k (length palette)).
  destruct (palette !! index) as [c1|] eqn:H1; [|done]. simpl.
  destruct (palette !! mod_size _ _) as [c2|] eqn:H2; [|done]. simpl.
  apply interpolateColors_not_black.
  - unfold bright_palette in Hpal. rewrite forallb_forall in Hpal.
    specialize (Hpal index). rewrite H1, H2 in Hpal. apply Hpal.
    apply in_seq. apply lookup_lt_Some in H1. lia.
  - apply of_float_in_unit. by apply (fract_in_unit t k).
Qed.

Lemma of_double_valid (x : double) : F.valid (F.of_double x) = true.
Proof.
  destruct x as [| | |s m e]; try done.
  apply (binary_round_valid F.prec F.emax F_prec_pos).
Qed.

Lemma colorScalar_valid (state : RenderState) (info : ReturnInfo) (t : float) :
  colorScalar state info = Some t → F.valid t = true.
Proof.
  unfold colorScalar. destruct (stripes state).
  - destruct (stripeSum info); [|done]. simpl. intros [= <-]. apply of_double_valid.
  - destruct (smoothIteration info); [|done]. simpl. intros [= <-]. apply of_double_valid.
Qed.

(** ** The iteration policy *)



Lemma dle_exp_bound (m : positive) (e K g p : Z) :
  0 ≤ p → 0 < K < 2 ^ p → dle (Zpos m) e K g → e < g + p.
Proof.
  intros Hp HK Hle. set (c := Z.min e g). apply (dle_elim c) in Hle; [|lia..].
  pose proof (pow2_pos (e - c) ltac:(lia)) as Pe.
  pose proof (pow2_pos (g - c) ltac:(lia)) as Pg.
  assert (2 ^ (e - c) < 2 ^ (p + (g - c))) as Hlt.
  { rewrite pow2_split by lia. nia. }
  apply pow2_lt_inv in Hlt; lia.
Qed.

Lemma clamp_trunc_floor (x : spec_float) (tz : Z) :
  SFtrunc x = Some tz →
  ∃ fz, SFfloor x = Some fz ∧
        Z.max 100 (Z.min 10000 tz) = Z.max 100 (Z.min 10000 fz).
Proof.
  destruct x as [s| | |s m e]; try done; cbn [SFtrunc SFfloor];
    intros [= <-]; eexists; (split; [done|]); [done|].
  destruct s; [|done]. cbn [cond_Zopp].
  pose proof (proj2 (Z.shiftl_nonneg (Zpos m) e) ltac:(lia)).
  assert (¬ 0 ≤ Z.shiftl (- Zpos m) e) by (rewrite Z.shiftl_nonneg; lia).
  lia.
Qed.

(** [100 * x] for [x] between two dyadic bounds. *)
Lemma mul_100_between (Kl gl Kh gh : Z) (x : double) :
  0 < 100 * Kl < 2 ^ D.prec → 0 < 100 * Kh < 2 ^ D.prec →
  SpecFloat.emin D.prec D.emax ≤ gl → SpecFloat.emin D.prec D.emax ≤ gh ≤ 0 →
  between Kl gl Kh gh x →
  between (100 * Kl) gl (100 * Kh) gh (D.mul (D.of_int 100) x).
Proof.
  intros HKl HKh Hgl Hgh Hx.
  destruct x as [| | |[] m e]; try done. destruct Hx as [Hlo Hhi].
  change (D.of_int 100) with (S754_finite false 7036874417766400 (-46)).
  unfold D.mul. cbn [SFmul xorb].
  assert (2 ^ D.prec = 9007199254740992) as Ep by done.
  pose proof (dle_exp_bound m e Kh gh D.prec ltac:(done) ltac:(lia) Hhi) as Hexp.
  assert (∀ c, c ≤ -46 + e →
            Zpos (7036874417766400 * m) * 2 ^ (-46 + e - c) = 100 * (Zpos m * 2 ^ (e - c)))
    as Hprod.
  { intros c Hc. rewrite Pos2Z.inj_mul.
    replace (e - c) with (46 + (-46 + e - c)) by lia. rewrite pow2_split by lia.
    change (2 ^ 46) with 70368744177664. lia. }
  destruct (bra_lower D.prec D.emax D_prec_pos false (7036874417766400 * m) (-46 + e)
              (100 * Kl) gl) as [Hl Hs]; [lia|done|..].
  { set (c := Z.min gl (-46 + e)). apply (dle_intro c); [lia..|].
    apply (dle_elim c) in Hlo; [|lia..]. rewrite Hprod by lia. lia. }
  destruct (bra_upper D.prec D.emax D_prec_pos D_prec_emax false (7036874417766400 * m)
              (-46 + e) (100 * Kh) gh) as [Hu _]; [lia| |left|..].
  { change (D.emax - D.prec) with 971. lia. }
  { change (D.emax - D.prec) with 971. change D.prec with 53 in Hexp. lia. }
  { set (c := Z.min gh (-46 + e)). apply (dle_intro c); [lia..|].
    apply (dle_elim c) in Hhi; [|lia..]. rewrite Hprod by lia. lia. }
  destruct (binary_round_aux _ _ _ _ _ _) as [| | |s' m' e']; try done.
  simpl in *. by injection Hs as ->.
Qed.

(** The conversion to [int] of a positive float between dyadic bounds
    that enclose no integer but [n]. *)
Lemma to_int_between (Kl gl Kh gh n : Z) (x : double) :
  INT_MIN ≤ n ≤ INT_MAX → gl ≤ 0 → gh ≤ 0 →
  n * 2 ^ (- gl) ≤ Kl → Kh < (n + 1) * 2 ^ (- gh) →
  between Kl gl Kh gh x → D.to_int x = Some n.
Proof.
  intros Hn Hgl Hgh Hl Hh Hx.
  destruct x as [| | |[] m e]; try done. destruct Hx as [Hlo Hhi].
  unfold D.to_int, cast_range. cbn [SFtrunc cond_Zopp mbind option_bind].
  assert (n ≤ Z.shiftl (Zpos m) e) as H1.
  { apply shiftl_lower. eapply dle_trans; [|exact Hlo].
    apply (dle_intro gl); [lia..|]. rewrite Z.sub_diag, Z.sub_0_l. lia. }
  pose proof (shiftl_upper Kh gh n m e Hgh Hh Hhi) as H2.
  assert (Z.shiftl (Zpos m) e = n) as -> by lia.
  by rewrite bool_decide_true.
Qed.

Lemma int_range_30 : INT_MIN ≤ 30 ≤ INT_MAX.
Proof. by vm_compute. Qed.

Lemma int_range_1047 : INT_MIN ≤ 1047 ≤ INT_MAX.
Proof. by vm_compute. Qed.

Section Adjust.
Context `{M : Libm}.

(** C3 (amended): with auto-iteration enabled and the conversion of
    [100 * log10 (1 + zoom)] to [int] defined, [adjustIterations] sets
    [maxIterations] to [clamp (floor (100 * log10 (1 + zoom)), 100,
    10000)], [zoom = 3.0 / viewportSize] (the code truncates, which
    after the clamp is the same as the floor).  For [viewportSize =
    3.0] the result is 100, and for [viewportSize = 1e-10] it is 1047,
    not the ceiling 10000, for every [log10] that is within [0.3008 ..
    0.3018] at 2 and within [10.4765 .. 10.4786] at 30000000001. *)
Theorem adjustIterations_policy (state : RenderState) :
  autoIterations state = true →
  (∀ k, D.to_int (scaledLogZoom state) = Some k →
        ∃ fl, SFfloor (scaledLogZoom state) = Some fl ∧
              adjustIterations state =
              Some (set_maxIterations state (Z.max 100 (Z.min 10000 fl)))) ∧
  (viewportSize state = D.lit 3 0 →
   between 77 (-8) 309 (-10) (log10 (D.lit 2 0)) →
   adjustIterations state = Some (set_maxIterations state 100)) ∧
  (viewportSize state = d1e_10 →
   between 1341 (-7) 5365 (-9) (log10 (D.lit 30000000001 0)) →
   adjustIterations state = Some (set_maxIterations state 1047)).
Proof.
  intros Hauto. unfold adjustIterations. rewrite Hauto. split; [|split].
  - intros k Hk. rewrite Hk. simpl.
    unfold D.to_int, cast_range in Hk.
    destruct (SFtrunc (scaledLogZoom state)) as [tz|] eqn:Htz; [|done].
    simpl in Hk. case_bool_decide; [|done]. injection Hk as <-.
    destruct (clamp_trunc_floor _ _ Htz) as (fz & Hfz & Heq).
    exists fz. by rewrite Heq.
  - intros Hsize Hlog. unfold scaledLogZoom. rewrite Hsize.
    change (D.add (D.of_int 1) (D.div (D.lit 3 0) (D.lit 3 0))) with (D.lit 2 0).
    apply (mul_100_between 77 (-8) 309 (-10)) in Hlog; [|done..].
    rewrite (to_int_between (100 * 77) (-8) (100 * 309) (-10) 30 _ int_range_30 ltac:(lia) ltac:(lia)
               ltac:(by vm_compute) ltac:(by vm_compute) Hlog).
    done.
  - intros Hsize Hlog. unfold scaledLogZoom. rewrite Hsize.
    change (D.add (D.of_int 1) (D.div (D.lit 3 0) d1e_10))
      with (D.lit 30000000001 0).
    apply (mul_100_between 1341 (-7) 5365 (-9)) in Hlog; [|done..].
    rewrite (to_int_between (100 * 1341) (-7) (100 * 5365) (-9) 1047 _ int_range_1047 ltac:(lia) ltac:(lia)
               ltac:(by vm_compute) ltac:(by vm_compute) Hlog).
    done.
Qed.
End Adjust.

Lemma adjustIterations_policy_witness :
  autoIterations (stateWith (D.lit 3 0) 128 false true false) = true ∧
  adjustIterations (stateWith (D.lit 3 0) 128 false true false) =
  Some (set_maxIterations (stateWith (D.lit 3 0) 128 false true false) 100).
Proof.
  split; [reflexivity|].
  apply (adjustIterations_policy (stateWith (D.lit 3 0) 128 false true false));
    [reflexivity | reflexivity | split; by vm_compute].
Defined.

(** At [viewportSize = 1e-10] the zoom is [3e10], [100 * log10 (1 +
    3e10)] is [1047.7...], and [maxIterations] becomes 1047. *)
Lemma adjustIterations_small_viewport :
  maxIterations <$> adjustIterations (stateWith d1e_10 128 false true false) = Some 1047 ∧
  adjustIterations (stateWith d1e_10 128 false true false) ≠
  Some (set_maxIterations (stateWith d1e_10 128 false true false) 10000).
Proof. split; by vm_compute. Qed.

(** ** Band independence on a sample *)

Lemma renderFractal_band_independent_witness :
  1 ≤ 2 ∧
  renderFractalRegion (replicate 64 7) (stateWith (D.lit 1 (-10)) 128 false false true) 0 4 4 4 =
  Some (concat (replicate 16 [0; 0; 0; 255])) ∧
  ∀ out, renderFractal 2 (replicate 64 7) (stateWith (D.lit 1 (-10)) 128 false false true)
           4 4 false out →
         out = Some (concat (replicate 16 [0; 0; 0; 255])).
Proof.
  split; [lia|]. split; [by vm_compute|]. intros out Hout.
  apply (renderFractal_band_independent 2 (replicate 64 7)
           (stateWith (D.lit 1 (-10)) 128 false false true) 4 4 ltac:(lia)) in Hout.
  rewrite Hout. by vm_compute.
Defined.

(** ** The colour index at negative scalars *)

Lemma SFfloor_nonneg (t : float) (k : Z) :
  SFltb t (F.lit 0 0) = false → SFtrunc t = Some k → SFfloor t = Some k ∧ 0 ≤ k.
Proof.
  destruct t as [s| | |s m e]; try done.
  - by intros _ [= <-].
  - destruct s; [done|]. intros _ [= <-]. split; [done|].
    apply Z.shiftl_nonneg. lia.
Qed.

(** At a scalar that is not negative the code computes the mapping of
    the specification. *)
Lemma mapColor_floor_nonneg (palette : list Color) (t : float) (k : Z) :
  Z.of_nat (length palette) < 2 ^ 64 →
  SFltb t (F.lit 0 0) = false → F.to_int t = Some k →
  mapColor palette t = mapColor_floor palette t.
Proof.
  intros Hlen Hsign Hk. unfold mapColor, mapColor_floor. rewrite Hk.
  unfold F.to_int, cast_range in Hk.
  destruct (SFtrunc t) as [tz|] eqn:Htz; [|done]. simpl in Hk.
  case_bool_decide as Hrange; [|done]. injection Hk as <-.
  destruct (SFfloor_nonneg t tz Hsign Htz) as [-> Hpos]. simpl.
  assert (mod_size tz (length palette) = Z.to_nat (tz mod Z.of_nat (length palette))) as ->.
  { unfold mod_size. rewrite (Z.mod_small tz); [done|].
    unfold INT_MAX in Hrange. lia. }
  set (index := Z.to_nat _).
  destruct (palette !! index) as [c1|] eqn:H1; [|done]. simpl.
  apply lookup_lt_Some in H1. clearbody index.
  assert (mod_size (Z.of_nat index + 1) (length palette) = ((index + 1) mod length palette)%nat)
    as ->; [|done].
  unfold mod_size. change (2 ^ 64) with 18446744073709551616 in *.
  rewrite (Z.mod_small (Z.of_nat index + 1) 18446744073709551616) by lia.
  replace (Z.of_nat index + 1) with (Z.of_nat (index + 1)) by lia.
  rewrite <- Nat2Z.inj_mod. apply Nat2Z.id.
Qed.

Lemma SFsub_diag (prec emax : Z) (x : spec_float) (k : Z) :
  SFtrunc x = Some k → SFsub prec emax x x = S754_zero false.
Proof.
  destruct x as [[]| | |s m e]; try done. intros _. cbn [SFsub]. by rewrite Z.sub_diag.
Qed.

Lemma shiftl_is_int (K : Z) (m : positive) (e : Z) :
  0 ≤ K → dle K 0 (Zpos m) e → dle (Zpos m) e K 0 → Z.shiftl (Zpos m) e = K.
Proof.
  intros HK Hlo Hhi. apply shiftl_lower in Hlo.
  apply (shiftl_upper K 0 K) in Hhi; [lia|lia|simpl; lia].
Qed.

(** With the blend factor zero a channel is the channel of the first
    colour. *)
Lemma interpolateChannel_zero (a c : Z) (s : bool) :
  0 ≤ a ≤ 255 → 0 ≤ c ≤ 255 → interpolateChannel a c (S754_zero s) = Some a.
Proof.
  intros Ha Hc. unfold interpolateChannel, D.to_uint8.
  assert (∃ s', D.mul (S754_zero s) (D.of_int (c - a)) = S754_zero s') as [s' ->].
  { destruct (decide (c - a = 0)) as [->|Hd]; [by eexists|].
    pose proof (of_int_is_int (c - a) Hd ltac:(lia)) as Hi.
    destruct (D.of_int (c - a)) as [| | |sd md ed]; try done. by eexists. }
  destruct (decide (a = 0)) as [->|Hne]; [by destruct s'|].
  pose proof (of_int_is_int a Hne ltac:(lia)) as Hi.
  replace (a <? 0) with false in Hi by lia. rewrite Z.abs_eq in Hi by lia.
  destruct (D.of_int a) as [| | |sa ma ea]; try done. destruct Hi as (-> & Hlo & Hhi).
  unfold D.add, cast_range. cbn [SFadd SFtrunc cond_Zopp mbind option_bind].
  rewrite (shiftl_is_int a) by (done || lia).
  by rewrite bool_decide_true.
Qed.

Lemma interpolateColors_zero (c1 c2 : Color) (s : bool) :
  uint8_color c1 = true → uint8_color c2 = true →
  interpolateColors c1 c2 (S754_zero s) = Some c1.
Proof.
  unfold uint8_color. intros H1 H2.
  repeat (apply andb_true_iff in H1 as [H1 ?]). repeat (apply andb_true_iff in H2 as [H2 ?]).
  repeat match goal with H : bool_decide _ = true |- _ => apply bool_decide_eq_true in H end.
  unfold interpolateColors. rewrite !interpolateChannel_zero by done. by destruct c1.
Qed.

(** At a scalar that is its own floor the blend is the palette entry
    at the index, which is [(k mod 2^64) mod length] for the scalar
    [k]. *)
Lemma mapColor_integer (palette : list Color) (t : float) (k : Z) :
  forallb uint8_color palette = true →
  F.floor t = t → F.to_int t = Some k →
  mapColor palette t = palette !! mod_size k (length palette).
Proof.
  intros Hpal Hfl Hk. unfold mapColor. rewrite Hk, Hfl. simpl.
  unfold F.to_int, cast_range in Hk.
  destruct (SFtrunc t) as [tz|] eqn:Htz; [|done].
  unfold F.sub. rewrite (SFsub_diag _ _ _ _ Htz).
  change (D.of_float (S754_zero false)) with (S754_zero false).
  set (index := mod_size k (length palette)).
  destruct (palette !! index) as [c1|] eqn:H1; [|done]. simpl.
  assert (0 < length palette)%nat as Hlen by (apply lookup_lt_Some in H1; lia).
  destruct (lookup_lt_is_Some_2 palette (mod_size (Z.of_nat index + 1) (length palette))
              (mod_size_lt _ _ Hlen)) as [c2 H2].
  rewrite H2. simpl.
  rewrite forallb_forall in Hpal.
  apply interpolateColors_zero; apply Hpal, list_elem_of_In; by eapply list_elem_of_lookup_2.
Qed.

(** C4 (the code at negative scalars): over the Classic palette, at
    the scalar [-1] the code gives [palette[0] = (66, 30, 15)] where
    [palette[(-1) mod 15] = palette[14] = (153, 87, 0)] is specified,
    and at [-0.5] it gives [(45, 18, 20)], the blend of [palette[0]]
    and [palette[1]], where the blend [(109, 58, 7)] of [palette[14]]
    and [palette[0]] is specified; the scalar [-0.5] is what stripe
    mode computes from [stripeIntensity = -1], [stripeSum = 2] and
    [iteration = 4]. *)
Theorem mapColor_negative_scalar :
  mapColor (palette_at 0) (F.lit (-1) 0) = Some (mkColor 66 30 15) ∧
  mapColor_floor (palette_at 0) (F.lit (-1) 0) = Some (mkColor 153 87 0) ∧
  palette_at 0 !! Z.to_nat ((-1) mod 15) = Some (mkColor 153 87 0) ∧
  mapColor (palette_at 0) (F.lit (-1) (-1)) = Some (mkColor 45 18 20) ∧
  mapColor_floor (palette_at 0) (F.lit (-1) (-1)) = Some (mkColor 109 58 7) ∧
  shade (withStripeIntensity (stateWith (D.lit 3 0) 128 false true false) (F.lit (-1) 0))
    (palette_at 0)
    {| iteration := 4; smoothIteration := None; stripeSum := Some (D.lit 2 0) |} =
  Some (mkColor 45 18 20).
Proof. repeat split; by vm_compute. Qed.

(** ** The cardioid test next to the period-2 bulb *)

(** At [c = -0.75 + 2^-27 i] the sum [q] rounds to 1, [q + (cr -
    0.25)] is zero, and the cardioid test accepts the point. *)
Lemma inCardioid_bulb_root : inCardioid (D.lit (-3) (-2)) (D.lit 1 (-27)) = true.
Proof. by vm_compute. Qed.

(** * Further properties of the engine and of the event handlers *)

(** ** The shape of a result *)

Section ResultFacts.
Context `{M : Libm}.

Lemma mainLoop_shape cr_actual ci_actual m fractalType stripes stripeFrequency inner fuel s info :
  mainLoop cr_actual ci_actual m fractalType stripes stripeFrequency inner fuel s = Some info →
  (info = sentinel ∧ inner = false) ∨
  ∃ k : nat,
    info = detail (passes cr_actual ci_actual fractalType stripes stripeFrequency k s) ∧
    (s_i s < m → s_i s + Z.of_nat k < m ∨ (s_i s + Z.of_nat k = m ∧ inner = true)).
Proof.
  revert s. induction fuel as [|fuel IH]; intros s; simpl; [done|].
  destruct (inside s).
  2:{ intros [= <-]. right. exists 0%nat. split; [done|]. lia. }
  case_bool_decide as Hcap.
  - intros [= <-]. destruct inner; [right|by left].
    exists 1%nat. split; [done|]. simpl in Hcap. intros _. right. split; [lia|done].
  - intros Hrun. destruct (IH _ Hrun) as [?|(k & -> & Hk)]; [by left|right].
    exists (S k). rewrite passes_S. split; [done|].
    simpl in Hk, Hcap. intros Hlt.
    destruct Hk as [?|[? ?]]; [lia|left; lia|right; split; [lia|done]].
Qed.

(** A result of [calculateFractal] is the sentinel, or all of its
    fields are assigned: its counter is not negative, not above a
    positive cap, and below it when inner calculation is off; without
    stripes its stripe sum is zero; and the colour scalar that the
    renderers compute from it reads assigned fields only. *)
Theorem calculateFractal_detail_assigned (cr ci jr ji : double) (maxIter : Z)
    (isJulia : bool) (fractalType : Z) (stripes : bool) (stripeFrequency : float)
    (innerCalculation : bool) (info : ReturnInfo) :
  calculateFractal cr ci jr ji maxIter isJulia fractalType stripes stripeFrequency
    innerCalculation = Some info →
  info = sentinel ∨
  (0 ≤ iteration info ∧
   is_Some (smoothIteration info) ∧ is_Some (stripeSum info) ∧
   (0 < maxIter → iteration info ≤ maxIter) ∧
   (0 < maxIter → innerCalculation = false → iteration info < maxIter) ∧
   (stripes = false → stripeSum info = Some (D.lit 0 0)) ∧
   ∀ state, is_Some (colorScalar state info)).
Proof.
  unfold calculateFractal. destruct (_ && _ && _ && _); [intros [= <-]; by left|].
  intros Hrun. apply mainLoop_shape in Hrun as [[-> _]|(k & -> & Hk)]; [by left|right].
  cbn [initialState s_i] in Hk.
  unfold detail. cbn [iteration smoothIteration stripeSum]. rewrite passes_i.
  cbn [initialState s_i].
  split; [lia|]. split; [eauto|]. split; [eauto|].
  split; [lia|]. split.
  { intros Hm Hin. destruct (Hk Hm) as [?|[_ ?]]; [lia|congruence]. }
  split.
  { intros ->. rewrite passes_stripeSum. done. }
  intros state. unfold colorScalar.
  match goal with |- context [if ?b then _ else _] => destruct b end; simpl; eauto.
Qed.

Lemma mainLoop_stripes cr_actual ci_actual m fractalType stripes stripeFrequency
    stripes' stripeFrequency' inner fuel s s' info :
  s_zr s' = s_zr s → s_zi s' = s_zi s → s_zr2 s' = s_zr2 s → s_zi2 s' = s_zi2 s →
  s_i s' = s_i s →
  mainLoop cr_actual ci_actual m fractalType stripes stripeFrequency inner fuel s = Some info →
  ∃ info',
    mainLoop cr_actual ci_actual m fractalType stripes' stripeFrequency' inner fuel s'
      = Some info' ∧
    iteration info' = iteration info ∧ smoothIteration info' = smoothIteration info.
Proof.
  revert s s'. induction fuel as [|fuel IH]; intros s s' Hzr Hzi Hzr2 Hzi2 Hi; simpl; [done|].
  unfold inside. rewrite Hzr2, Hzi2.
  destruct (D.ltb _ _).
  2:{ intros [= <-]. eexists. split; [done|]. unfold detail. simpl.
      by rewrite Hzr2, Hzi2, Hi. }
  simpl. rewrite Hi. case_bool_decide as Hcap.
  - intros [= <-]. eexists. split; [done|]. destruct inner; [|done].
    unfold detail. simpl. by rewrite Hzr, Hzi, Hzr2, Hzi2, Hi.
  - apply IH; simpl; by rewrite ?Hzr, ?Hzi, ?Hzr2, ?Hzi2, ?Hi.
Qed.

(** The stripe settings do not reach the orbit: for every other choice
    of [stripes] and [stripeFrequency] the call returns a result with
    the same counter and the same smooth value. *)
Theorem calculateFractal_stripes_irrelevant (cr ci jr ji : double) (maxIter : Z)
    (isJulia : bool) (fractalType : Z) (stripes : bool) (stripeFrequency : float)
    (stripes' : bool) (stripeFrequency' : float) (innerCalculation : bool)
    (info : ReturnInfo) :
  calculateFractal cr ci jr ji maxIter isJulia fractalType stripes stripeFrequency
    innerCalculation = Some info →
  ∃ info',
    calculateFractal cr ci jr ji maxIter isJulia fractalType stripes' stripeFrequency'
      innerCalculation = Some info' ∧
    iteration info' = iteration info ∧ smoothIteration info' = smoothIteration info.
Proof.
  unfold calculateFractal. destruct (_ && _ && _ && _); [intros [= <-]; by eexists|].
  by apply mainLoop_stripes.
Qed.
End ResultFacts.

(** ** Mirror symmetry *)


Lemma mirror_opp (a : spec_float) : mirror a (SFopp a).
Proof. by destruct a. Qed.

Lemma bra_opp (prec emax : Z) (s : bool) (m e : Z) (l : location) :
  binary_round_aux prec emax (negb s) m e l = SFopp (binary_round_aux prec emax s m e l).
Proof.
  unfold binary_round_aux.
  destruct (shr_fexp prec emax m e l) as [mrs' e'].
  destruct (shr_fexp prec emax _ e' loc_Exact) as [mrs'' e''].
  destruct (shr_m mrs''); [done| |done]. by destruct (_ <=? _).
Qed.

Lemma binary_round_opp (prec emax : Z) (s : bool) (m : positive) (e : Z) :
  binary_round prec emax (negb s) m e = SFopp (binary_round prec emax s m e).
Proof.
  unfold binary_round. destruct (shl_align _ _ _) as [mz ez]. apply bra_opp.
Qed.

Lemma binary_normalize_opp (prec emax : Z) (m e : Z) :
  m ≠ 0 →
  binary_normalize prec emax (- m) e false = SFopp (binary_normalize prec emax m e false).
Proof.
  destruct m as [|p|p]; [done|..]; intros _; simpl;
    [apply (binary_round_opp prec emax false)|].
  by rewrite <- (binary_round_opp prec emax true).
Qed.

Lemma SFmul_opp_r (prec emax : Z) (x y : spec_float) :
  SFmul prec emax x (SFopp y) = SFopp (SFmul prec emax x y).
Proof.
  destruct x as [sx|sx| |sx mx ex], y as [sy|sy| |sy my ey]; cbn [SFmul SFopp];
    rewrite <- ?negb_xorb_r; try done.
  apply bra_opp.
Qed.

Lemma SFmul_opp_opp (prec emax : Z) (x y : spec_float) :
  SFmul prec emax (SFopp x) (SFopp y) = SFmul prec emax x y.
Proof.
  destruct x as [sx|sx| |sx mx ex], y as [sy|sy| |sy my ey]; cbn [SFmul SFopp];
    by rewrite ?xorb_negb_negb.
Qed.

Lemma SFmul_mirror (prec emax : Z) (x a b : spec_float) :
  mirror a b → mirror (SFmul prec emax x a) (SFmul prec emax x b).
Proof.
  intros Hab.
  assert (b = SFopp a ∨ ∃ sa sb, a = S754_zero sa ∧ b = S754_zero sb) as [->|(sa & sb & -> & ->)].
  { destruct a, b; try (by left); right; eauto. }
  - rewrite SFmul_opp_r. apply mirror_opp.
  - by destruct x.
Qed.

Lemma SFmul_mirror_sq (prec emax : Z) (a b : spec_float) :
  mirror a b → SFmul prec emax b b = SFmul prec emax a a.
Proof.
  intros Hab.
  assert (b = SFopp a ∨ ∃ sa sb, a = S754_zero sa ∧ b = S754_zero sb) as [->|(sa & sb & -> & ->)].
  { destruct a, b; try (by left); right; eauto. }
  - apply SFmul_opp_opp.
  - simpl. by rewrite !xorb_nilpotent.
Qed.

Lemma cond_Zopp_negb (s : bool) (z : Z) : cond_Zopp (negb s) z = - cond_Zopp s z.
Proof. destruct s; simpl; lia. Qed.

Lemma SFadd_mirror (prec emax : Z) (a b c : spec_float) :
  mirror a b → mirror (SFadd prec emax a c) (SFadd prec emax b (SFopp c)).
Proof.
  intros Hab.
  assert (b = SFopp a ∨ ∃ sa sb, a = S754_zero sa ∧ b = S754_zero sb) as [->|(sa & sb & -> & ->)].
  { destruct a, b; try (by left); right; eauto. }
  - destruct a as [sa|sa| |sa ma ea], c as [sc|sc| |sc mc ec];
      try (by destruct sa, sc); try done.
    cbn [SFadd SFopp]. rewrite !cond_Zopp_negb.
    set (N := cond_Zopp sa _ + cond_Zopp sc _).
    replace (- cond_Zopp sa _ + - cond_Zopp sc _) with (- N) by (unfold N; lia).
    destruct (decide (N = 0)) as [->|HN]; [done|].
    rewrite binary_normalize_opp by done. apply mirror_opp.
  - destruct c as [sc|sc| |sc mc ec]; try done. by destruct sa, sb, sc.
Qed.

Section MirrorFacts.
Context `{M : Libm}.


Lemma pass_mirrored cr_actual ci_actual stripeFrequency s s' :
  mirrored s s' →
  mirrored (pass cr_actual ci_actual 0 false stripeFrequency s)
           (pass cr_actual (SFopp ci_actual) 0 false stripeFrequency s').
Proof.
  intros (Hzr & Hzi & Hzr2 & Hzi2 & Hsum & Hi). unfold mirrored, pass. simpl.
  rewrite Hzr, Hzr2, Hzi2, Hsum, Hi.
  assert (mirror (D.add (D.mul (D.mul (D.of_int 2) (s_zr s)) (s_zi s)) ci_actual)
                 (D.add (D.mul (D.mul (D.of_int 2) (s_zr s)) (s_zi s')) (SFopp ci_actual)))
    as Hnew by by apply SFadd_mirror, SFmul_mirror.
  split; [done|]. split; [done|]. split; [done|]. split; [|done].
  by apply SFmul_mirror_sq.
Qed.

Lemma mainLoop_mirrored cr_actual ci_actual m stripeFrequency inner fuel s s' :
  mirrored s s' →
  mainLoop cr_actual (SFopp ci_actual) m 0 false stripeFrequency inner fuel s' =
  mainLoop cr_actual ci_actual m 0 false stripeFrequency inner fuel s.
Proof.
  revert s s'. induction fuel as [|fuel IH]; intros s s' Hs; [done|].
  pose proof (pass_mirrored cr_actual ci_actual stripeFrequency s s' Hs) as Hp.
  destruct Hs as (Hzr & Hzi & Hzr2 & Hzi2 & Hsum & Hi).
  cbn [mainLoop]. unfold inside. rewrite Hzr2, Hzi2.
  destruct (D.ltb _ _).
  2:{ unfold detail. by rewrite Hzr2, Hzi2, Hsum, Hi. }
  rewrite (IH _ _ Hp).
  destruct Hp as (Hzr' & Hzi' & Hzr2' & Hzi2' & Hsum' & Hi').
  rewrite Hi'. unfold detail. by rewrite Hzr2', Hzi2', Hsum', Hi'.
Qed.

Lemma inCardioid_mirror (cr ci : double) : inCardioid cr (SFopp ci) = inCardioid cr ci.
Proof.
  unfold inCardioid, D.mul.
  by rewrite SFmul_opp_opp, (SFmul_opp_r _ _ (D.lit 1 (-2)) ci), SFmul_opp_opp.
Qed.

Lemma inBulb_mirror (cr ci : double) : inBulb cr (SFopp ci) = inBulb cr ci.
Proof. unfold inBulb, D.mul. by rewrite SFmul_opp_opp. Qed.

(** The standard fractal without stripes is mirror symmetric, bit for
    bit: at the conjugate sample point (with the conjugate Julia seed)
    [calculateFractal] returns the same result. *)
Theorem calculateFractal_conjugate (cr ci jr ji : double) (maxIter : Z) (isJulia : bool)
    (stripeFrequency : float) (innerCalculation : bool) :
  calculateFractal cr (SFopp ci) jr (SFopp ji) maxIter isJulia 0 false stripeFrequency
    innerCalculation =
  calculateFractal cr ci jr ji maxIter isJulia 0 false stripeFrequency innerCalculation.
Proof.
  unfold calculateFractal. rewrite inCardioid_mirror, inBulb_mirror.
  destruct (_ && _ && _ && _); [done|].
  destruct isJulia.
  - apply mainLoop_mirrored. unfold mirrored, initialState. simpl.
    split; [done|]. split; [apply mirror_opp|]. split; [done|].
    split; [|done]. apply SFmul_opp_opp.
  - apply (mainLoop_mirrored cr ci). done.
Qed.
End MirrorFacts.

(** ** Blends stay between their end points *)

Section RoundBetween.
Variables prec emax : Z.
Hypothesis Hprec : 0 < prec.
Hypothesis Hemax : prec < emax.

Local Abbreviation emin := (SpecFloat.emin prec emax).

Lemma trunc_between (lo hi : Z) (s : bool) (m : positive) (e : Z) :
  0 ≤ lo → 0 < hi < 2 ^ prec →
  dle lo 0 (Zpos m) e → dle (Zpos m) e hi 0 →
  lo ≤ Z.shiftl (Zpos m) e ≤ hi.
Proof.
  intros Hlo Hhi H1 H2. split; [by apply shiftl_lower|].
  apply (shiftl_upper hi 0 hi); [lia|simpl; lia|done].
Qed.

(** The sum of the integer [a] and a value between 0 and [d], both
    ends in [0, 2^prec), truncates to an integer between [a] and
    [a + d]. *)
Lemma add_int_between (x y : spec_float) (a d : Z) :
  (if decide (a = 0) then x = S754_zero false else is_int false a x) →
  small_signed (d <? 0) (Z.abs d) y →
  0 ≤ a → 0 ≤ a + d → Z.max a (a + d) < 2 ^ prec →
  ∃ v, SFtrunc (SFadd prec emax x y) = Some v ∧ Z.min a (a + d) ≤ v ≤ Z.max a (a + d).
Proof.
  intros Hx Hy Ha Hc Hsmall.
  assert (emin ≤ 0 ≤ emax - prec) as Hg by (unfold SpecFloat.emin; lia).
  assert (0 ≤ Z.min a (a + d) ≤ Z.max a (a + d)) as Hmm by lia.
  destruct (decide (a = 0)) as [->|Hane].
  { (* the first end point is zero *)
    subst x. rewrite Z.add_0_l in *.
    destruct y as [sy| | |sy my ey]; try done.
    { exists 0. split; [by destruct sy|]. lia. }
    destruct Hy as (-> & Hy). replace (d <? 0) with false by lia.
    rewrite Z.abs_eq in Hy by lia.
    exists (Z.shiftl (Zpos my) ey). split; [done|].
    assert (0 < d).
    { apply (dle_elim (Z.min ey 0)) in Hy; [|lia..].
      pose proof (pow2_pos (ey - Z.min ey 0) ltac:(lia)).
      pose proof (pow2_pos (0 - Z.min ey 0) ltac:(lia)). nia. }
    rewrite Z.min_l, Z.max_r by lia.
    split; [apply Z.shiftl_nonneg; lia|].
    apply (shiftl_upper d 0 d); [lia|simpl; lia|done]. }
  destruct x as [| | |sx mx ex]; try done. destruct Hx as (-> & Hlo & Hhi).
  destruct y as [sy| | |sy my ey]; try done.
  { (* nothing is added *)
    exists (Z.shiftl (Zpos mx) ex). split; [done|].
    pose proof (trunc_between a a false mx ex ltac:(lia) ltac:(lia) Hlo Hhi). lia. }
  destruct Hy as (-> & Hy). cbn [SFadd].
  set (ez := Z.min ex ey).
  destruct (shl_align_spec mx ex ez) as (mx' & ex' & -> & Hex' & Hmx & _).
  destruct (shl_align_spec my ey ez) as (my' & ey' & -> & Hey' & Hmy & _).
  cbn [fst]. assert (ex' = ez) as -> by lia. assert (ey' = ez) as -> by lia.
  clear Hex' Hey'.
  set (c := Z.min ez 0).
  apply (dle_elim c) in Hlo; [|lia..]. apply (dle_elim c) in Hhi; [|lia..].
  apply (dle_elim c) in Hy; [|lia..].
  pose proof (pow2_pos (ez - c) ltac:(lia)) as P0.
  pose proof (pow2_pos (0 - c) ltac:(lia)) as P1.
  assert (2 ^ (ex - c) = 2 ^ (ex - ez) * 2 ^ (ez - c)) as Ex
    by (rewrite <- pow2_split by lia; f_equal; lia).
  assert (2 ^ (ey - c) = 2 ^ (ey - ez) * 2 ^ (ez - c)) as Ey
    by (rewrite <- pow2_split by lia; f_equal; lia).
  change (cond_Zopp false (Zpos mx')) with (Zpos mx').
  set (P := 2 ^ (0 - c)) in *. set (Q := 2 ^ (ez - c)) in *.
  assert (Zpos mx' * Q = a * P) as HX.
  { rewrite Hmx, <- Z.mul_assoc, <- Ex. lia. }
  assert (0 < Zpos my' * Q ≤ Z.abs d * P) as HY.
  { rewrite Hmy, <- Z.mul_assoc, <- Ey. split; [|done].
    apply Z.mul_pos_pos; [|apply pow2_pos]; lia. }
  set (M := Zpos mx' + cond_Zopp (d <? 0) (Zpos my')).
  assert (Z.min a (a + d) * P ≤ M * Q ≤ Z.max a (a + d) * P) as HM.
  { unfold M. rewrite Z.mul_add_distr_r, HX. clear Hlo Hhi Hy Ex Ey Hmx Hmy HX.
    destruct (d <? 0) eqn:Hd.
    - apply Z.ltb_lt in Hd. change (cond_Zopp true (Zpos my')) with (- Zpos my').
      rewrite Z.min_r, Z.max_l by lia. rewrite Z.abs_neq in HY by lia.
      rewrite Z.mul_opp_l in *. rewrite Z.mul_add_distr_r. lia.
    - apply Z.ltb_ge in Hd. change (cond_Zopp false (Zpos my')) with (Zpos my').
      rewrite Z.min_l, Z.max_r by lia. rewrite Z.abs_eq in HY by lia.
      rewrite Z.mul_add_distr_r. lia. }
  set (lo := Z.min a (a + d)) in *. set (hi := Z.max a (a + d)) in *.
  clearbody M lo hi. clear Hlo Hhi Hy Ex Ey Hmx Hmy Ha Hc Hane HX HY.
  destruct M as [|p|p].
  - exists 0. split; [done|]. rewrite Z.mul_0_l in HM. nia.
  - simpl binary_normalize.
    assert (0 < hi) as Hmax by nia.
    destruct (binary_round_upper prec emax Hprec Hemax false p ez hi 0)
      as [Hup Hs]; [lia|done| |].
    { apply (dle_intro c); [lia..|]. lia. }
    destruct (decide (lo = 0)) as [Hmin|Hmin].
    + destruct (binary_round prec emax false p ez) as [s'| | |s' m' e']; try done.
      { exists 0. split; [done|]. lia. }
      simpl in Hs, Hup. injection Hs as ->.
      exists (Z.shiftl (Zpos m') e'). split; [done|]. split.
      * rewrite Hmin. apply Z.shiftl_nonneg. lia.
      * apply (shiftl_upper hi 0 hi); [lia|simpl; lia|done].
    + destruct (binary_round_lower prec emax Hprec false p ez lo 0)
        as [Hlow _]; [lia|lia| |].
      { apply (dle_intro c); [lia..|]. lia. }
      destruct (binary_round prec emax false p ez) as [s'| | |s' m' e']; try done.
      simpl in Hs, Hup, Hlow. injection Hs as ->.
      exists (Z.shiftl (Zpos m') e'). split; [done|].
      apply (trunc_between _ _ false); [lia|lia|done..].
  - exfalso. pose proof (Pos2Z.neg_is_neg p). nia.
Qed.
End RoundBetween.

Lemma of_int_cases (a : Z) :
  0 ≤ a ≤ 255 →
  if decide (a = 0) then D.of_int a = S754_zero false else is_int false a (D.of_int a).
Proof.
  intros Ha. destruct (decide (a = 0)) as [->|Hne]; [done|].
  pose proof (of_int_is_int a Hne ltac:(lia)) as Hi.
  replace (a <? 0) with false in Hi by lia. by rewrite Z.abs_eq in Hi by lia.
Qed.

Lemma mul_unit_small (a c : Z) (factor : double) :
  0 ≤ a ≤ 255 → 0 ≤ c ≤ 255 → in_unit factor →
  small_signed (c - a <? 0) (Z.abs (c - a)) (D.mul factor (D.of_int (c - a))).
Proof.
  intros Ha Hc Hf. pose proof pow2_le_255 as H255.
  destruct (decide (c - a = 0)) as [->|Hd].
  - by apply mul_unit_zero.
  - apply (mul_unit_int D.prec D.emax D_prec_pos D_prec_emax); [done| | |lia].
    + apply of_int_is_int; lia.
    + apply (binary_normalize_exp_bounded D.prec D.emax D_prec_pos).
Qed.

(** A channel of a blend by a factor in [0, 1] is defined and lies
    between the channels of the two colours. *)
Lemma interpolateChannel_between (a c : Z) (factor : double) :
  0 ≤ a ≤ 255 → 0 ≤ c ≤ 255 → in_unit factor →
  ∃ v, interpolateChannel a c factor = Some v ∧ Z.min a c ≤ v ≤ Z.max a c.
Proof.
  intros Ha Hc Hf. unfold interpolateChannel, D.to_uint8, cast_range.
  pose proof pow2_le_255 as H255.
  destruct (add_int_between D.prec D.emax D_prec_pos D_prec_emax
              (D.of_int a) (D.mul factor (D.of_int (c - a))) a (c - a))
    as (v & Hv & Hrange); [by apply of_int_cases|by apply mul_unit_small|lia..|].
  replace (a + (c - a)) with c in Hrange by lia.
  exists v. unfold D.add. rewrite Hv. simpl.
  rewrite bool_decide_true by lia. done.
Qed.


Lemma uint8_color_spec (c : Color) :
  uint8_color c = true → 0 ≤ r c ≤ 255 ∧ 0 ≤ g c ≤ 255 ∧ 0 ≤ b c ≤ 255.
Proof.
  unfold uint8_color. intros H.
  repeat (apply andb_true_iff in H as [H ?]).
  repeat match goal with H : bool_decide _ = true |- _ => apply bool_decide_eq_true in H end.
  done.
Qed.

Lemma interpolateColors_blend (c1 c2 : Color) (factor : double) :
  uint8_color c1 = true → uint8_color c2 = true → in_unit factor →
  ∃ c, interpolateColors c1 c2 factor = Some c ∧ channels_between c1 c2 c ∧
       uint8_color c = true.
Proof.
  intros (Hr1 & Hg1 & Hb1)%uint8_color_spec (Hr2 & Hg2 & Hb2)%uint8_color_spec Hf.
  destruct (interpolateChannel_between (r c1) (r c2) factor) as (vr & Er & Hr); [done..|].
  destruct (interpolateChannel_between (g c1) (g c2) factor) as (vg & Eg & Hg); [done..|].
  destruct (interpolateChannel_between (b c1) (b c2) factor) as (vb & Eb & Hb); [done..|].
  exists (mkColor vr vg vb). unfold interpolateColors. rewrite Er, Eg, Eb.
  split; [done|]. split; [done|].
  unfold uint8_color. simpl. rewrite !bool_decide_true by lia. done.
Qed.

(** For a factor in [0, 1] the blend of two colours is defined (no
    conversion to [sf::Uint8] is out of range) and each of its
    channels lies between the channels of the two colours. *)
Theorem interpolateColors_between (c1 c2 : Color) (factor : double) :
  uint8_color c1 = true → uint8_color c2 = true → in_unit factor →
  ∃ c, interpolateColors c1 c2 factor = Some c ∧ channels_between c1 c2 c ∧
       uint8_color c = true.
Proof. apply interpolateColors_blend. Qed.

(** Over a palette that is not empty the colour mapping is undefined
    only through the conversion of the scalar to [int]: the two palette
    indices are in range, the blend factor is in [0, 1], and the result
    lies between two palette entries. *)
Theorem mapColor_defined (palette : list Color) (t : float) (k : Z) :
  palette ≠ [] → forallb uint8_color palette = true →
  F.valid t = true → F.to_int t = Some k →
  ∃ c1 c2 c,
    palette !! mod_size k (length palette) = Some c1 ∧
    palette !! mod_size (Z.of_nat (mod_size k (length palette)) + 1) (length palette)
      = Some c2 ∧
    mapColor palette t = Some c ∧ channels_between c1 c2 c.
Proof.
  intros Hne Hpal Hvalid Hk.
  assert (0 < length palette)%nat as Hlen by (destruct palette; [done|simpl; lia]).
  destruct (lookup_lt_is_Some_2 palette _ (mod_size_lt k _ Hlen)) as [c1 H1].
  destruct (lookup_lt_is_Some_2 palette _
              (mod_size_lt (Z.of_nat (mod_size k (length palette)) + 1) _ Hlen)) as [c2 H2].
  rewrite forallb_forall in Hpal.
  destruct (interpolateColors_blend c1 c2 (D.of_float (F.sub t (F.floor t))))
    as (c & Hc & Hbetween & _).
  { apply Hpal, list_elem_of_In. by eapply list_elem_of_lookup_2. }
  { apply Hpal, list_elem_of_In. by eapply list_elem_of_lookup_2. }
  { apply of_float_in_unit. by eapply fract_in_unit. }
  exists c1, c2, c. split; [done|]. split; [done|]. split; [|done].
  unfold mapColor. rewrite Hk. simpl. rewrite H1. simpl. rewrite H2. done.
Qed.

(** ** Black and the interior *)

Lemma mapColor_is_Some (palette : list Color) (t : float) (k : Z) :
  palette ≠ [] → forallb uint8_color palette = true →
  F.valid t = true → F.to_int t = Some k → is_Some (mapColor palette t).
Proof.
  intros Hne Hpal Hvalid Hk.
  assert (0 < length palette)%nat as Hlen by (destruct palette; [done|simpl; lia]).
  destruct (lookup_lt_is_Some_2 palette _ (mod_size_lt k _ Hlen)) as [c1 H1].
  destruct (lookup_lt_is_Some_2 palette _
              (mod_size_lt (Z.of_nat (mod_size k (length palette)) + 1) _ Hlen)) as [c2 H2].
  rewrite forallb_forall in Hpal.
  destruct (interpolateColors_blend c1 c2 (D.of_float (F.sub t (F.floor t))))
    as (c & Hc & _ & _).
  { apply Hpal, list_elem_of_In. by eapply list_elem_of_lookup_2. }
  { apply Hpal, list_elem_of_In. by eapply list_elem_of_lookup_2. }
  { apply of_float_in_unit. by eapply fract_in_unit. }
  exists c. unfold mapColor. rewrite Hk. simpl. rewrite H1. simpl. rewrite H2. done.
Qed.

(** C2 (amended): for every state and palette the sentinel [iteration
    = -1] is shaded black.  Over a palette in which every entry has,
    together with its cyclic successor, a channel that is not zero in
    either of the two (of the five palettes: Classic, Ocean Depths and
    Arctic), a result with [iteration <> -1] is never shaded black, and
    whenever its colour scalar converts to [int] its colour is defined
    and is not black.  Where the scalar does not convert to [int] the
    colour mapping is undefined.  Fire and Grayscale are not such
    palettes, and over them the interpolation path gives black at the
    scalar 0. *)
Theorem black_is_interior (state : RenderState) (palette : list Color) (info : ReturnInfo) :
  (iteration info = -1 → shade state palette info = Some (mkColor 0 0 0)) ∧
  (iteration info ≠ -1 → bright_palette palette = true →
   shade state palette info ≠ Some (mkColor 0 0 0)) ∧
  (iteration info ≠ -1 → bright_palette palette = true →
   palette ≠ [] → forallb uint8_color palette = true →
   ∀ t k, colorScalar state info = Some t → F.to_int t = Some k →
          ∃ color, shade state palette info = Some color ∧ color ≠ mkColor 0 0 0) ∧
  (iteration info ≠ -1 →
   ∀ t, colorScalar state info = Some t → F.to_int t = None →
        shade state palette info = None) ∧
  bright_palette <$> PALETTES = [true; false; false; true; true] ∧
  Forall (λ p, p ≠ [] ∧ forallb uint8_color p = true) PALETTES ∧
  mapColor (palette_at 1) (F.lit 0 0) = Some (mkColor 0 0 0) ∧
  mapColor (palette_at 2) (F.lit 0 0) = Some (mkColor 0 0 0).
Proof.
  assert (iteration info ≠ -1 → bright_palette palette = true →
          shade state palette info ≠ Some (mkColor 0 0 0)) as Hnot.
  { intros Hit Hpal. unfold shade. rewrite bool_decide_false by done.
    destruct (colorScalar state info) as [t|] eqn:Ht; [|done].
    change (mapColor palette t ≠ Some (mkColor 0 0 0)).
    apply mapColor_not_black; [done|]. by apply colorScalar_valid in Ht. }
  split; [|split; [|split; [|split; [|split; [|split; [|split]]]]]].
  - intros Hit. unfold shade. by rewrite bool_decide_true.
  - exact Hnot.
  - intros Hit Hpal Hne Huint t k Ht Hk.
    destruct (mapColor_is_Some palette t k Hne Huint) as [color Hcolor];
      [by apply colorScalar_valid in Ht|done|].
    assert (shade state palette info = Some color) as Hshade.
    { unfold shade. rewrite bool_decide_false by done. rewrite Ht. exact Hcolor. }
    exists color. split; [done|]. intros ->. by apply (Hnot Hit Hpal).
  - intros Hit t Ht Hk. unfold shade. rewrite bool_decide_false by done.
    rewrite Ht. simpl. unfold mapColor. by rewrite Hk.
  - by vm_compute.
  - repeat constructor; by vm_compute.
  - by vm_compute.
  - by vm_compute.
Qed.

Lemma black_is_interior_witness :
  shade (stateWith (D.lit 3 0) 128 false true false) (palette_at 0) sentinel =
  Some (mkColor 0 0 0) ∧
  ∃ color,
    shade (stateWith (D.lit 3 0) 128 false true false) (palette_at 0)
      {| iteration := 5; smoothIteration := None; stripeSum := Some (D.lit 0 0) |} =
    Some color ∧ color ≠ mkColor 0 0 0.
Proof.
  split.
  - apply (proj1 (black_is_interior (stateWith (D.lit 3 0) 128 false true false)
             (palette_at 0) sentinel)). reflexivity.
  - apply (proj1 (proj2 (proj2 (black_is_interior
             (stateWith (D.lit 3 0) 128 false true false) (palette_at 0)
             {| iteration := 5; smoothIteration := None; stripeSum := Some (D.lit 0 0) |})))
             ltac:(by vm_compute) ltac:(by vm_compute) ltac:(by vm_compute)
             ltac:(by vm_compute) (F.lit 0 0) 0);
      by vm_compute.
Defined.

(** In stripe mode with inner detail off the point [c = 1] escapes in
    the fifth pass with [stripeSum = 0], and over the Fire palette its
    pixel is black. *)
Lemma fire_escaped_pixel_black :
  iteration <$> sample (stateWith (D.lit 3 0) 128 false true false) (D.lit 1 0) (D.lit 0 0) =
  Some 5 ∧
  regionPixel (stateWith (D.lit 3 0) 128 false true false) (palette_at 1)
    (D.lit 1 0) (D.lit 0 0) = Some (mkColor 0 0 0).
Proof. split; by vm_compute. Qed.

(** ** Buffers after a sequence of stores *)

Lemma store_lookup (p p' : list Z) (i v : Z) :
  store p i v = Some p' → p' !! Z.to_nat i = Some v.
Proof.
  unfold store. case_bool_decide as Hi; [|done]. intros [= <-].
  apply list_lookup_insert_eq. lia.
Qed.

Lemma store_lookup_ne (p p' : list Z) (i j v : Z) :
  store p i v = Some p' → 0 ≤ j → j ≠ i → p' !! Z.to_nat j = p !! Z.to_nat j.
Proof.
  unfold store. case_bool_decide as Hi; [|done]. intros [= <-] Hj Hne.
  apply list_lookup_insert_ne. lia.
Qed.

Lemma run_stores_cons (i v : Z) (ws : list (Z * Z)) (p : list Z) :
  run_stores ((i, v) :: ws) p = p' ← store p i v; run_stores ws p'.
Proof. done. Qed.

Lemma run_stores_length (ws : list (Z * Z)) (p out : list Z) :
  run_stores ws p = Some out → length out = length p.
Proof.
  revert p. induction ws as [|[i v] ws IH]; intros p; [by intros [= <-]|].
  rewrite run_stores_cons.
  destruct (store p i v) as [p'|] eqn:Hst; [|done]. simpl.
  intros Hrun. apply IH in Hrun. apply store_length in Hst. congruence.
Qed.

(** A place that no store names keeps its byte. *)
Lemma run_stores_frame (ws : list (Z * Z)) (p out : list Z) (j : Z) :
  run_stores ws p = Some out → 0 ≤ j → j ∉ ws.*1 →
  out !! Z.to_nat j = p !! Z.to_nat j.
Proof.
  revert p. induction ws as [|[i v] ws IH]; intros p; [by intros [= <-]|].
  rewrite run_stores_cons.
  destruct (store p i v) as [p'|] eqn:Hst; [|done]. simpl.
  intros Hrun Hj Hnot. rewrite ?fmap_cons in Hnot.
  apply not_elem_of_cons in Hnot as [Hne Hnot].
  rewrite (IH _ Hrun Hj Hnot). by eapply store_lookup_ne.
Qed.

(** Two runs of the same stores agree at every place that a store
    names or at which the buffers agreed before. *)
Lemma run_stores_agree (ws : list (Z * Z)) (q1 q2 o1 o2 : list Z) (n : nat) :
  run_stores ws q1 = Some o1 → run_stores ws q2 = Some o2 →
  Z.of_nat n ∈ ws.*1 ∨ q1 !! n = q2 !! n → o1 !! n = o2 !! n.
Proof.
  revert q1 q2. induction ws as [|[j w] ws IH]; intros q1 q2.
  { intros [= <-] [= <-] [?%elem_of_nil|?]; done. }
  rewrite !run_stores_cons.
  destruct (store q1 j w) as [q1'|] eqn:S1; [|done].
  destruct (store q2 j w) as [q2'|] eqn:S2; [|done]. simpl.
  intros R1 R2 Hn. apply (IH _ _ R1 R2).
  destruct (decide (Z.of_nat n = j)) as [<-|Hne].
  - right. apply store_lookup in S1, S2. rewrite Nat2Z.id in *. congruence.
  - destruct Hn as [Hn|Hn].
    + rewrite ?fmap_cons in Hn. apply elem_of_cons in Hn as [?|?]; [done|by left].
    + right. pose proof (store_lookup_ne _ _ _ (Z.of_nat n) _ S1 ltac:(lia) Hne) as E1.
      pose proof (store_lookup_ne _ _ _ (Z.of_nat n) _ S2 ltac:(lia) Hne) as E2.
      rewrite Nat2Z.id in *. congruence.
Qed.

(** A place for which all stores carry the same byte holds that byte. *)
Lemma run_stores_lookup (ws : list (Z * Z)) (p out : list Z) (i v : Z) :
  run_stores ws p = Some out → (i, v) ∈ ws → (∀ v', (i, v') ∈ ws → v' = v) →
  out !! Z.to_nat i = Some v.
Proof.
  revert p. induction ws as [|[j w] ws IH]; intros p; [by intros _ ?%elem_of_nil|].
  rewrite run_stores_cons.
  destruct (store p j w) as [p'|] eqn:Hst; [|done]. simpl.
  intros Hrun Hin Huniq.
  destruct (decide ((i, v) ∈ ws)) as [Hlater|Hlater].
  { apply (IH _ Hrun Hlater). intros v' Hv'. apply Huniq. by right. }
  apply elem_of_cons in Hin as [[= <- <-]|?]; [|done].
  assert (0 ≤ i) as Hi.
  { unfold store in Hst. case_bool_decide; [lia|done]. }
  rewrite (run_stores_frame _ _ _ i Hrun Hi).
  - by eapply store_lookup.
  - intros ([i' v'] & Heq & Hin')%list_elem_of_fmap. simpl in Heq. subst i'.
    assert (v' = v) as -> by (apply Huniq; by right). done.
Qed.

(** The stores are defined exactly when all of them are in range. *)
Lemma run_stores_defined (ws : list (Z * Z)) (p : list Z) :
  is_Some (run_stores ws p) ↔
  ∀ i, i ∈ ws.*1 → 0 ≤ i < Z.of_nat (length p) ∧ i ≤ INT_MAX.
Proof.
  revert p. induction ws as [|[i v] ws IH]; intros p.
  { split; [intros _ i ?%elem_of_nil; done|by eexists]. }
  rewrite run_stores_cons, fmap_cons. unfold store at 1. case_bool_decide as Hi; simpl.
  - rewrite IH. rewrite length_insert. split.
    + intros H j [->|?]%elem_of_cons; [done|by apply H].
    + intros H j Hj. apply H. by right.
  - split; [by intros [? ?]|]. intros H. destruct Hi. apply H. by left.
Qed.

(** Two buffers of one length are the same after stores that name
    every place. *)
Lemma run_stores_overwrite (ws : list (Z * Z)) (p1 p2 : list Z) :
  length p1 = length p2 →
  (∀ i, 0 ≤ i < Z.of_nat (length p1) → i ∈ ws.*1) →
  run_stores ws p1 = run_stores ws p2.
Proof.
  intros Hlen Hall.
  pose proof (run_stores_defined ws p1) as D1.
  pose proof (run_stores_defined ws p2) as D2. rewrite <- Hlen in D2.
  destruct (run_stores ws p1) as [o1|] eqn:H1, (run_stores ws p2) as [o2|] eqn:H2.
  - f_equal. apply list_eq. intros n.
    destruct (decide (n < length p1)%nat) as [Hn|Hn].
    + eapply run_stores_agree; [done..|]. left. apply Hall. lia.
    + apply run_stores_length in H1, H2. rewrite !lookup_ge_None_2 by lia. done.
  - exfalso. assert (is_Some (@None (list Z))) as [? ?]; [|done].
    apply D2, D1. eauto.
  - exfalso. assert (is_Some (@None (list Z))) as [? ?]; [|done].
    apply D1, D2. eauto.
  - done.
Qed.

(** ** What the region renderer writes *)

Lemma mapM_Some_elem {A B : Type} (f : A → option B) (l : list A) (k : list B) (a : A) :
  mapM f l = Some k → a ∈ l → ∃ b, f a = Some b ∧ b ∈ k.
Proof.
  revert k. induction l as [|a' l IH]; intros k; [by intros _ ?%elem_of_nil|].
  simpl. destruct (f a') as [b'|] eqn:Hfa; [|done]. simpl.
  destruct (mapM f l) as [k'|]; [|done]. simpl. intros [= <-].
  intros [->|Hin]%elem_of_cons.
  - exists b'. split; [done|by left].
  - destruct (IH _ eq_refl Hin) as (b & ? & ?). exists b. split; [done|by right].
Qed.

Lemma mapM_Some_elem_inv {A B : Type} (f : A → option B) (l : list A) (k : list B) (b : B) :
  mapM f l = Some k → b ∈ k → ∃ a, a ∈ l ∧ f a = Some b.
Proof.
  revert k. induction l as [|a' l IH]; intros k; simpl.
  { intros [= <-] ?%elem_of_nil. done. }
  destruct (f a') as [b'|] eqn:Hfa; [|done]. simpl.
  destruct (mapM f l) as [k'|]; [|done]. simpl. intros [= <-].
  intros [->|Hin]%elem_of_cons.
  - exists a'. split; [by left|done].
  - destruct (IH _ eq_refl Hin) as (a & ? & ?). exists a. split; [by right|done].
Qed.

Lemma mapM_is_Some_elem {A B : Type} (f : A → option B) (l : list A) :
  (∀ a, a ∈ l → is_Some (f a)) → is_Some (mapM f l).
Proof.
  induction l as [|a l IH]; intros Hall; [by eexists|].
  simpl. destruct (Hall a ltac:(by left)) as [b ->]. simpl.
  destruct IH as [k ->]; [|by eexists]. intros a' ?. apply Hall. by right.
Qed.

Lemma elem_of_concat {A : Type} (ls : list (list A)) (x : A) :
  x ∈ concat ls ↔ ∃ l, x ∈ l ∧ l ∈ ls.
Proof.
  induction ls as [|l ls IH]; simpl.
  - split; [by intros ?%elem_of_nil|by intros (? & _ & ?%elem_of_nil)].
  - rewrite elem_of_app, IH. split.
    + intros [?|(l' & ? & ?)]; [exists l; split; [done|by left]|].
      exists l'. split; [done|by right].
    + intros (l' & ? & [->|?]%elem_of_cons); [by left|right; by exists l'].
Qed.

(** The elements of the concatenation of the traces of a loop. *)
Lemma mapM_concat_elem {A B : Type} (f : A → option (list B)) (l : list A)
    (trs : list (list B)) (b : B) :
  mapM f l = Some trs →
  b ∈ concat trs ↔ ∃ a tr, a ∈ l ∧ f a = Some tr ∧ b ∈ tr.
Proof.
  intros Hm. rewrite elem_of_concat. split.
  - intros (tr & Hb & Htr). destruct (mapM_Some_elem_inv _ _ _ _ Hm Htr) as (a & ? & ?).
    by exists a, tr.
  - intros (a & tr & Ha & Hfa & Hb).
    destruct (mapM_Some_elem _ _ _ _ Hm Ha) as (tr' & Hfa' & ?).
    exists tr. split; [done|]. congruence.
Qed.

Lemma pixelStores_elem (idx : Z) (color : Color) (i v : Z) :
  (i, v) ∈ pixelStores idx color ↔
  (i = idx ∧ v = r color) ∨ (i = idx + 1 ∧ v = g color) ∨
  (i = idx + 2 ∧ v = b color) ∨ (i = idx + 3 ∧ v = 255).
Proof.
  unfold pixelStores. rewrite !elem_of_cons, elem_of_nil.
  split; intros H; repeat destruct H as [H|H]; try done;
    try (injection H as -> ->); try (destruct H as [-> ->]); eauto 10.
Qed.

(** The index of a byte determines its pixel and its channel. *)
Lemma pixel_index_inj (width x y x' y' k k' : Z) :
  0 ≤ x < width → 0 ≤ x' < width → 0 ≤ k < 4 → 0 ≤ k' < 4 →
  (y * width + x) * 4 + k = (y' * width + x') * 4 + k' →
  y = y' ∧ x = x' ∧ k = k'.
Proof.
  intros Hx Hx' Hk Hk' Heq.
  assert (y * width + x = y' * width + x' ∧ k = k') as [Hpix ->] by lia.
  assert (y = y'); [|subst; lia].
  destruct (Z.lt_trichotomy y y') as [?|[?|?]]; [|done|]; nia.
Qed.

Section RegionFacts.
Context `{M : Libm}.

Lemma rowStores_elem (state : RenderState) (palette : list Color) (width y : Z)
    (tr : list (Z * Z)) (w : Z * Z) :
  rowStores state palette width y = Some tr →
  w ∈ tr ↔ ∃ x color, 0 ≤ x < width ∧ pixelColor state palette width x y = Some color ∧
                      w ∈ pixelStores ((y * width + x) * 4) color.
Proof.
  unfold rowStores. intros [Hrows _]%stepped_Some.
  destruct (mapM _ _) as [row|] eqn:Hrow; [|done]. simpl in Hrows.
  injection Hrows as <-. rewrite (mapM_concat_elem _ _ _ _ Hrow). split.
  - intros (x & tr & Hx%elem_of_seqZ & [Hcol _]%stepped_Some & Hw). exists x.
    unfold pixelColor. destruct (regionPixel _ _ _ _) as [color|]; [|done].
    exists color. simpl in Hcol. injection Hcol as <-. split; [lia|done].
  - intros (x & color & Hx & Hcol & Hw). exists x, (pixelStores ((y * width + x) * 4) color).
    assert (x ∈ seqZ 0 width) as Hin by (apply elem_of_seqZ; lia).
    split; [done|].
    destruct (mapM_Some_elem _ _ _ x Hrow Hin) as (tr' & [_ Hstep]%stepped_Some & _).
    split; [|done]. apply stepped_Some. split; [|done].
    unfold pixelColor in Hcol. by rewrite Hcol.
Qed.

Lemma regionStores_elem (state : RenderState) (palette : list Color)
    (startY endY width : Z) (tr : list (Z * Z)) (w : Z * Z) :
  PALETTES !! mod_size (colorScheme state) (length PALETTES) = Some palette →
  regionStores state startY endY width = Some tr →
  w ∈ tr ↔ ∃ x y color, startY ≤ y < endY ∧ 0 ≤ x < width ∧
                        pixelColor state palette width x y = Some color ∧
                        w ∈ pixelStores ((y * width + x) * 4) color.
Proof.
  intros Hpal. unfold regionStores, rowsStores. rewrite Hpal. simpl.
  destruct (mapM _ _) as [rows|] eqn:Hrows; [|done]. simpl. intros [= <-].
  rewrite (mapM_concat_elem _ _ _ _ Hrows). split.
  - intros (y & row & Hy%elem_of_seqZ & Hrow & Hw).
    apply (rowStores_elem _ _ _ _ _ w) in Hrow. apply Hrow in Hw as (x & color & ? & ? & ?).
    exists x, y, color. split; [lia|done].
  - intros (x & y & color & Hy & Hx & Hcol & Hw).
    destruct (mapM_Some_elem _ _ _ y Hrows) as (row & Hrow & _); [apply elem_of_seqZ; lia|].
    exists y, row. split; [apply elem_of_seqZ; lia|]. split; [done|].
    apply (rowStores_elem _ _ _ _ _ w Hrow). by exists x, color.
Qed.

(** Where the trace of a region is defined, so are the colours of all
    pixels of its rows. *)
Lemma regionStores_colors (state : RenderState) (palette : list Color)
    (startY endY width x y : Z) :
  PALETTES !! mod_size (colorScheme state) (length PALETTES) = Some palette →
  is_Some (regionStores state startY endY width) →
  startY ≤ y < endY → 0 ≤ x < width → is_Some (pixelColor state palette width x y).
Proof.
  intros Hpal. unfold regionStores, rowsStores. rewrite Hpal. simpl.
  intros [tr Htr] Hy Hx.
  destruct (mapM _ _) as [rows|] eqn:Hrows; [|done].
  destruct (mapM_Some_elem _ _ _ y Hrows) as (row & Hrow & _); [apply elem_of_seqZ; lia|].
  unfold rowStores in Hrow. apply stepped_Some in Hrow as [Hrow _].
  destruct (mapM _ (seqZ 0 width)) as [blocks|] eqn:Hb; [|done].
  destruct (mapM_Some_elem _ _ _ x Hb) as (blk & [Hblk _]%stepped_Some & _);
    [apply elem_of_seqZ; lia|].
  unfold pixelColor. by destruct (regionPixel _ _ _ _).
Qed.

(** With counters that stay in [int], the trace of a region is defined
    as soon as the colours of all pixels of its rows are. *)
Lemma regionStores_is_Some (state : RenderState) (palette : list Color)
    (startY endY width : Z) :
  PALETTES !! mod_size (colorScheme state) (length PALETTES) = Some palette →
  0 ≤ startY → endY ≤ INT_MAX → width ≤ INT_MAX →
  (∀ x y, startY ≤ y < endY → 0 ≤ x < width →
          is_Some (pixelColor state palette width x y)) →
  is_Some (regionStores state startY endY width).
Proof.
  intros Hpal Hs He Hw Hall. unfold regionStores, rowsStores. rewrite Hpal. simpl.
  assert (INT_MIN ≤ 0) as Hmin by done.
  destruct (mapM_is_Some_elem (rowStores state palette width) (seqZ startY (endY - startY)))
    as [rows ->]; [|by eexists].
  intros y Hy%elem_of_seqZ. unfold rowStores.
  destruct (mapM_is_Some_elem (λ x,
    stepped x 1 (
      color ← regionPixel state palette
        (pixelCoord (viewportX state) (D.div (viewportSize state) (D.of_int 2))
           (D.div (viewportSize state) (D.of_int width)) x)
        (pixelCoord (viewportY state) (D.div (viewportSize state) (D.of_int 2))
           (D.div (viewportSize state) (D.of_int width)) y);
      Some (pixelStores ((y * width + x) * 4) color))) (seqZ 0 width)) as [blocks Hblocks].
  { intros x Hx%elem_of_seqZ.
    destruct (Hall x y ltac:(lia) ltac:(lia)) as [color Hcol].
    unfold pixelColor in Hcol. rewrite Hcol. simpl. unfold stepped. simpl.
    rewrite int_add_Some by lia. by eexists. }
  cbv zeta. rewrite Hblocks. unfold stepped. simpl.
  rewrite int_add_Some by lia. by eexists.
Qed.

(** The places a region writes, in program order. *)
Lemma regionStores_places (state : RenderState) (startY endY width : Z) (tr : list (Z * Z)) :
  regionStores state startY endY width = Some tr →
  tr.*1 = seqZ (startY * (4 * Z.max 0 width))
            (Z.max 0 (endY - startY) * (4 * Z.max 0 width)).
Proof.
  unfold regionStores, rowsStores.
  destruct (PALETTES !! _) as [palette|]; [|done]. simpl.
  destruct (mapM _ _) as [rows|] eqn:Hrows; [|done]. simpl. intros [= <-].
  rewrite seqZ_to_nat in Hrows.
  eapply (blocks_places _ 0 (4 * Z.max 0 width)) in Hrows; [|lia|].
  - rewrite Hrows. f_equal; lia.
  - intros k tr' Hk. by apply rowStores_places in Hk.
Qed.
End RegionFacts.

Lemma NoDup_fst_unique {A B : Type} (l : list (A * B)) (a : A) (b b' : B) :
  NoDup l.*1 → (a, b) ∈ l → (a, b') ∈ l → b = b'.
Proof.
  induction l as [|[a0 b0] l IH]; [by intros _ ?%elem_of_nil|].
  rewrite fmap_cons. intros [Hnot Hnd]%NoDup_cons H1 H2.
  apply elem_of_cons in H1 as [H1|H1]; apply elem_of_cons in H2 as [H2|H2].
  - congruence.
  - injection H1 as <- <-. destruct Hnot. apply list_elem_of_fmap. by exists (a, b').
  - injection H2 as <- <-. destruct Hnot. apply list_elem_of_fmap. by exists (a, b).
  - by apply IH.
Qed.

Section RenderTheorems.
Context `{M : Libm}.

(** A defined run of [renderFractalRegion] leaves, at every pixel of
    its rows, the three channels of the colour computed for the pixel
    and the alpha byte 255. *)
Theorem renderFractalRegion_pixel (pixels out : list Z) (state : RenderState)
    (palette : list Color) (startY endY width height x y : Z) :
  renderFractalRegion pixels state startY endY width height = Some out →
  PALETTES !! mod_size (colorScheme state) (length PALETTES) = Some palette →
  startY ≤ y < endY → 0 ≤ x < width →
  ∃ color, pixelColor state palette width x y = Some color ∧
           ∀ w, w ∈ pixelStores ((y * width + x) * 4) color →
                out !! Z.to_nat w.1 = Some w.2.
Proof.
  rewrite renderFractalRegion_stores. intros Hrun Hpal Hy Hx.
  destruct (regionStores state startY endY width) as [tr|] eqn:Htr; [|done].
  simpl in Hrun.
  destruct (regionStores_colors state palette startY endY width x y Hpal
              ltac:(by eexists) Hy Hx) as [color Hcol].
  exists color. split; [done|]. intros [i v] Hw. simpl.
  assert ((i, v) ∈ tr) as Hin.
  { apply (regionStores_elem state palette startY endY width tr _ Hpal Htr).
    by exists x, y, color. }
  apply (run_stores_lookup tr pixels); [done..|].
  intros v' Hin'. eapply NoDup_fst_unique; [|exact Hin'|exact Hin].
  by eapply regionStores_NoDup.
Qed.

(** [renderFractalRegion] keeps the length of the buffer and every
    byte outside the rows [startY .. endY). *)
Theorem renderFractalRegion_frame (pixels out : list Z) (state : RenderState)
    (startY endY width height i : Z) :
  renderFractalRegion pixels state startY endY width height = Some out →
  length out = length pixels ∧
  (0 ≤ i → ¬ (startY * width * 4 ≤ i < endY * width * 4) →
   out !! Z.to_nat i = pixels !! Z.to_nat i).
Proof.
  rewrite renderFractalRegion_stores.
  destruct (regionStores state startY endY width) as [tr|] eqn:Htr; [|done].
  simpl. intros Hrun. split; [by eapply run_stores_length|].
  intros Hi Hout. apply (run_stores_frame tr); [done..|].
  rewrite (regionStores_places _ _ _ _ _ Htr), elem_of_seqZ. nia.
Qed.

(** On a buffer of [width * height] pixels whose size in bytes is an
    [int], a band inside the image is rendered without a store out of
    range and without overflow of an index or of a counter: the run is
    undefined only when the colour of one of its pixels is. *)
Theorem renderFractalRegion_defined (pixels : list Z) (state : RenderState)
    (palette : list Color) (startY endY width height : Z) :
  PALETTES !! mod_size (colorScheme state) (length PALETTES) = Some palette →
  Z.of_nat (length pixels) = width * height * 4 →
  0 ≤ startY → endY ≤ height → 0 ≤ width ≤ INT_MAX → height ≤ INT_MAX →
  width * height * 4 ≤ INT_MAX →
  is_Some (renderFractalRegion pixels state startY endY width height) ↔
  ∀ x y, startY ≤ y < endY → 0 ≤ x < width → is_Some (pixelColor state palette width x y).
Proof.
  intros Hpal Hlen Hs He Hw Hh Hsize.
  rewrite renderFractalRegion_stores. split.
  - intros [out Hrun] x y Hy Hx.
    apply (regionStores_colors state palette startY endY width x y Hpal); [|done..].
    by destruct (regionStores state startY endY width); [eexists|].
  - intros Hall.
    destruct (regionStores_is_Some state palette startY endY width Hpal Hs
                ltac:(lia) ltac:(lia) Hall) as [tr Htr].
    rewrite Htr. simpl.
    apply run_stores_defined. intros i.
    rewrite (regionStores_places _ _ _ _ _ Htr), elem_of_seqZ. nia.
Qed.

Lemma workers_places (N : Z) (state : RenderState) (width height : Z)
    (traces : list (list (Z * Z))) :
  1 ≤ N → 0 ≤ width → 0 ≤ height →
  mapM (λ se, regionStores state se.1 se.2 width) (bands N height) = Some traces →
  (concat traces).*1 = seqZ 0 (width * height * 4).
Proof.
  intros HN Hw Hh Htraces.
  pose proof (regionStores_bands state N width height HN) as Hbands.
  rewrite Htraces in Hbands. simpl in Hbands.
  rewrite (regionStores_places _ _ _ _ _ Hbands). f_equal; lia.
Qed.

(** The workers of [renderFractal] write every byte of the image
    exactly once: the places of their stores, worker after worker, are
    [0, 1, ..., 4 * width * height - 1]. *)
Theorem renderFractal_writes_once (N : Z) (state : RenderState) (width height : Z)
    (traces : list (list (Z * Z))) :
  1 ≤ N → 0 ≤ width → 0 ≤ height →
  mapM (λ se, regionStores state se.1 se.2 width) (bands N height) = Some traces →
  (concat traces).*1 = seqZ 0 (width * height * 4) ∧ NoDup (concat traces).*1.
Proof.
  intros HN Hw Hh Htraces.
  rewrite (workers_places N state width height traces) by done.
  split; [done|apply NoDup_seqZ].
Qed.

(** A full-resolution render of a [width * height] buffer does not
    depend on what the buffer held before. *)
Lemma renderFractal_overwrites (N : Z) (p1 p2 : list Z) (state : RenderState)
    (width height : Z) (out1 out2 : option (list Z)) :
  1 ≤ N → 0 ≤ width → 0 ≤ height →
  Z.of_nat (length p1) = width * height * 4 → length p2 = length p1 →
  renderFractal N p1 state width height false out1 →
  renderFractal N p2 state width height false out2 →
  out1 = out2.
Proof.
  intros HN Hw Hh Hlen Hlen2 H1 H2.
  inversion H1 as [|Hnone1|traces1 tr1 Hsome1 Hmerge1]; subst;
    inversion H2 as [|Hnone2|traces2 tr2 Hsome2 Hmerge2]; subst; try congruence.
  assert (traces2 = traces1) as -> by congruence.
  pose proof (workers_places N state width height traces1 HN Hw Hh Hsome1) as Hpl.
  assert (NoDup (concat traces1).*1) as Hnd by (rewrite Hpl; apply NoDup_seqZ).
  apply interleaves_Permutation in Hmerge1, Hmerge2.
  rewrite (run_stores_Permutation tr1 (concat traces1)) by (by rewrite ?Hmerge1).
  rewrite (run_stores_Permutation tr2 (concat traces1)) by (by rewrite ?Hmerge2).
  apply run_stores_overwrite; [done|].
  intros i Hi. rewrite Hpl. apply elem_of_seqZ. lia.
Qed.
End RenderTheorems.

Section ShotTheorems.
Context `{M : Libm}.

(** The image that [saveHighResScreenshot] saves holds no byte of the
    uninitialised buffer it allocates: it is the same for every
    content of the fresh buffer. *)
Theorem saveHighResScreenshot_initialised (N : Z) (fresh1 fresh2 : list Z)
    (state : RenderState) (width height scale : Z) (image1 image2 : option (list Z)) :
  1 ≤ N → 0 ≤ width * scale → 0 ≤ height * scale →
  saveHighResScreenshot N fresh1 state width height scale image1 →
  saveHighResScreenshot N fresh2 state width height scale image2 →
  image1 = image2.
Proof.
  unfold saveHighResScreenshot. intros HN Hw Hh [Hlen1 Hrun1] [Hlen2 Hrun2].
  apply (renderFractal_overwrites N fresh1 fresh2 state (width * scale) (height * scale));
    [done|done|done|exact Hlen1|lia|exact Hrun1|exact Hrun2].
Qed.
End ShotTheorems.

(** ** What the preview writes *)

Lemma strided_elem (fuel : nat) (v bound step x : Z) :
  0 < step → bound - v ≤ Z.of_nat fuel →
  x ∈ strided fuel v bound step ↔ ∃ k, 0 ≤ k ∧ x = v + k * step ∧ x < bound.
Proof.
  intros Hstep. revert v. induction fuel as [|fuel IH]; intros v Hfuel; simpl.
  { split; [by intros ?%elem_of_nil|]. intros (k & ? & -> & ?). nia. }
  case_bool_decide as Hv.
  - rewrite elem_of_cons, IH by lia. split.
    + intros [->|(k & ? & -> & ?)]; [exists 0; lia|]. exists (k + 1). lia.
    + intros (k & Hk & -> & ?). destruct (decide (k = 0)) as [->|?]; [left; lia|].
      right. exists (k - 1). lia.
  - split; [by intros ?%elem_of_nil|]. intros (k & ? & -> & ?). nia.
Qed.

Lemma blockOrigins_elem (bound downscale x : Z) (xs : list Z) :
  0 < downscale → blockOrigins bound downscale = Some xs →
  x ∈ xs ↔ ∃ k, 0 ≤ k ∧ x = k * downscale ∧ x < bound.
Proof.
  intros Hd. unfold blockOrigins. rewrite bool_decide_true by done. intros [= <-].
  rewrite strided_elem by lia. split; intros (k & ? & -> & ?); exists k; lia.
Qed.

Lemma blockOrigins_nonneg (bound downscale x : Z) (xs : list Z) :
  blockOrigins bound downscale = Some xs → x ∈ xs → 0 ≤ x.
Proof.
  unfold blockOrigins. case_bool_decide as Hd.
  - intros [= <-]. rewrite strided_elem by lia. intros (k & ? & -> & ?). nia.
  - case_bool_decide; [|done]. by intros [= <-] ?%elem_of_nil.
Qed.

Lemma blockStores_elem (width height downscale x y : Z) (color : Color)
    (blk : list (Z * Z)) (w : Z * Z) :
  blockStores width height downscale x y color = Some blk →
  w ∈ blk ↔
  ∃ by_ bx, 0 ≤ by_ < Z.min downscale (height - y) ∧ 0 ≤ bx < Z.min downscale (width - x) ∧
            w ∈ pixelStores (((y + by_) * width + (x + bx)) * 4) color.
Proof.
  unfold blockStores.
  destruct (mapM _ _) as [rows|] eqn:Hrows; [|done]. simpl. intros [= <-].
  rewrite (mapM_concat_elem _ _ _ _ Hrows). split.
  - intros (by_ & row & Hby%elem_of_seqZ & [Hrow _]%stepped_Some & Hw).
    destruct (mapM _ (seqZ 0 (Z.min downscale (width - x)))) as [cells|] eqn:Hcells;
      [|done].
    simpl in Hrow. injection Hrow as <-.
    apply (mapM_concat_elem _ _ _ _ Hcells) in Hw
      as (bx & cell & Hbx%elem_of_seqZ & [[= <-] _]%stepped_Some & Hw).
    exists by_, bx. split; [lia|]. split; [lia|done].
  - intros (by_ & bx & Hby & Hbx & Hw).
    assert (by_ ∈ seqZ 0 (Z.min downscale (height - y))) as Hiny by (apply elem_of_seqZ; lia).
    assert (bx ∈ seqZ 0 (Z.min downscale (width - x))) as Hinx by (apply elem_of_seqZ; lia).
    destruct (mapM_Some_elem _ _ _ by_ Hrows Hiny) as (row & Hrow & _).
    exists by_, row. split; [done|]. split; [done|].
    apply stepped_Some in Hrow as [Hrow _].
    destruct (mapM _ (seqZ 0 (Z.min downscale (width - x)))) as [cells|] eqn:Hcells;
      [|done].
    simpl in Hrow. injection Hrow as <-.
    apply (mapM_concat_elem _ _ _ _ Hcells).
    destruct (mapM_Some_elem _ _ _ bx Hcells Hinx) as (cell & Hcell & _).
    exists bx, cell. split; [done|]. split; [done|].
    apply stepped_Some in Hcell as [[= <-] _]. done.
Qed.

(** With counters that stay in [int] the block fill is defined. *)
Lemma blockStores_is_Some (width height downscale x y : Z) (color : Color) :
  downscale ≤ INT_MAX →
  is_Some (blockStores width height downscale x y color).
Proof.
  intros Hd. unfold blockStores.
  assert (INT_MIN ≤ 0) as Hmin by done.
  destruct (mapM_is_Some_elem (λ by_,
    stepped by_ 1 (
      cells ← mapM (λ bx,
        stepped bx 1 (Some (pixelStores (((y + by_) * width + (x + bx)) * 4) color)))
        (seqZ 0 (Z.min downscale (width - x)));
      Some (concat cells))) (seqZ 0 (Z.min downscale (height - y)))) as [rows ->];
    [|by eexists].
  intros by_ Hby%elem_of_seqZ.
  destruct (mapM_is_Some_elem (λ bx,
    stepped bx 1 (Some (pixelStores (((y + by_) * width + (x + bx)) * 4) color)))
    (seqZ 0 (Z.min downscale (width - x)))) as [cells ->].
  { intros bx Hbx%elem_of_seqZ. unfold stepped. simpl.
    rewrite int_add_Some by lia. by eexists. }
  unfold stepped. simpl. rewrite int_add_Some by lia. by eexists.
Qed.

Section PreviewFacts.
Context `{M : Libm}.

Lemma renderPreview_stores (p : list Z) (state : RenderState) (width height downscale : Z) :
  renderPreview p state width height downscale =
  tr ← previewStores state width height downscale; run_stores tr p.
Proof.
  unfold renderPreview, previewStores.
  destruct (PALETTES !! _) as [palette|]; [|done]. simpl.
  destruct (blockOrigins height downscale) as [ys|]; [|done]. simpl.
  rewrite (for_int_stores _ _ (λ y,
    xs ← blockOrigins width downscale;
    blocks ← mapM (λ x,
      stepped x downscale (
        color ← pixelColor state palette width x y;
        blockStores width height downscale x y color)) xs;
    Some (concat blocks))).
  { by destruct (mapM _ _). }
  intros p' y _. destruct (blockOrigins width downscale) as [xs|] eqn:Hxs; [|done]. simpl.
  rewrite (for_int_stores _ _ (λ x,
    color ← pixelColor state palette width x y;
    blockStores width height downscale x y color)).
  { by destruct (mapM _ _). }
  intros p'' x Hx%(blockOrigins_nonneg _ _ _ _ Hxs). unfold pixelColor, previewPixel.
  change (info ← sample state ?cr ?ci; shade state palette info)
    with (regionPixel state palette cr ci).
  destruct (regionPixel _ _ _ _) as [color|]; [|done]. simpl.
  unfold blockStores.
  rewrite (for_int_stores _ _ (λ by_,
    cells ← mapM (λ bx,
      stepped bx 1 (Some (pixelStores (((y + by_) * width + (x + bx)) * 4) color)))
      (seqZ 0 (Z.min downscale (width - x)));
    Some (concat cells))).
  { by destruct (mapM _ _). }
  intros q by_ _.
  rewrite (for_int_stores _ _ (λ bx,
    Some (pixelStores (((y + by_) * width + (x + bx)) * 4) color))).
  { by destruct (mapM _ _). }
  intros q' bx Hbx%elem_of_seqZ. simpl. apply fillPixel_stores. lia.
Qed.

Lemma previewStores_elem (state : RenderState) (palette : list Color)
    (width height downscale : Z) (tr : list (Z * Z)) (w : Z * Z) :
  0 < downscale →
  PALETTES !! mod_size (colorScheme state) (length PALETTES) = Some palette →
  previewStores state width height downscale = Some tr →
  w ∈ tr ↔ ∃ kx ky color blk,
    0 ≤ kx ∧ kx * downscale < width ∧ 0 ≤ ky ∧ ky * downscale < height ∧
    pixelColor state palette width (kx * downscale) (ky * downscale) = Some color ∧
    blockStores width height downscale (kx * downscale) (ky * downscale) color = Some blk ∧
    w ∈ blk.
Proof.
  intros Hd Hpal. unfold previewStores. rewrite Hpal. simpl.
  destruct (blockOrigins height downscale) as [ys|] eqn:Hys; [|done]. simpl.
  destruct (mapM _ ys) as [rows|] eqn:Hrows; [|done]. simpl. intros [= <-].
  rewrite (mapM_concat_elem _ _ _ _ Hrows). split.
  - intros (y & row & Hy & [Hrow _]%stepped_Some & Hw).
    apply (blockOrigins_elem _ _ _ _ Hd Hys) in Hy as (ky & ? & -> & ?).
    destruct (blockOrigins width downscale) as [xs|] eqn:Hxs; [|done]. simpl in Hrow.
    destruct (mapM _ xs) as [blocks|] eqn:Hblocks; [|done]. simpl in Hrow.
    injection Hrow as <-.
    apply (mapM_concat_elem _ _ _ _ Hblocks) in Hw
      as (x & blk & Hx & [Hblk _]%stepped_Some & Hw).
    apply (blockOrigins_elem _ _ _ _ Hd Hxs) in Hx as (kx & ? & -> & ?).
    destruct (pixelColor _ _ _ _ _) as [color|] eqn:Hcol; [|done]. simpl in Hblk.
    by exists kx, ky, color, blk.
  - intros (kx & ky & color & blk & Hkx & Hx & Hky & Hy & Hcol & Hblk & Hw).
    assert (ky * downscale ∈ ys) as Hiny.
    { apply (blockOrigins_elem _ _ _ _ Hd Hys). by exists ky. }
    destruct (mapM_Some_elem _ _ _ _ Hrows Hiny) as (row & Hrow & _).
    exists (ky * downscale), row. split; [done|]. split; [done|].
    apply stepped_Some in Hrow as [Hrow _].
    destruct (blockOrigins width downscale) as [xs|] eqn:Hxs; [|done]. simpl in Hrow.
    destruct (mapM _ xs) as [blocks|] eqn:Hblocks; [|done]. simpl in Hrow.
    injection Hrow as <-.
    apply (mapM_concat_elem _ _ _ _ Hblocks).
    assert (kx * downscale ∈ xs) as Hinx.
    { apply (blockOrigins_elem _ _ _ _ Hd Hxs). by exists kx. }
    destruct (mapM_Some_elem _ _ _ _ Hblocks Hinx) as (blk' & Hblk' & _).
    exists (kx * downscale), blk. split; [done|]. split; [|done].
    apply stepped_Some in Hblk' as [_ Hstep]. apply stepped_Some. split; [|done].
    by rewrite Hcol.
Qed.

Lemma previewStores_defined (state : RenderState) (palette : list Color)
    (width height downscale kx ky : Z) (tr : list (Z * Z)) :
  0 < downscale →
  PALETTES !! mod_size (colorScheme state) (length PALETTES) = Some palette →
  previewStores state width height downscale = Some tr →
  0 ≤ kx → kx * downscale < width → 0 ≤ ky → ky * downscale < height →
  is_Some (pixelColor state palette width (kx * downscale) (ky * downscale)).
Proof.
  intros Hd Hpal. unfold previewStores. rewrite Hpal. simpl.
  destruct (blockOrigins height downscale) as [ys|] eqn:Hys; [|done]. simpl.
  destruct (mapM _ ys) as [rows|] eqn:Hrows; [|done]. simpl. intros _ Hkx Hx Hky Hy.
  assert (ky * downscale ∈ ys) as Hiny.
  { apply (blockOrigins_elem _ _ _ _ Hd Hys). by exists ky. }
  destruct (mapM_Some_elem _ _ _ _ Hrows Hiny) as (row & [Hrow _]%stepped_Some & _).
  destruct (blockOrigins width downscale) as [xs|] eqn:Hxs; [|done]. simpl in Hrow.
  destruct (mapM _ xs) as [blocks|] eqn:Hblocks; [|done].
  assert (kx * downscale ∈ xs) as Hinx.
  { apply (blockOrigins_elem _ _ _ _ Hd Hxs). by exists kx. }
  destruct (mapM_Some_elem _ _ _ _ Hblocks Hinx) as (blk & [Hblk _]%stepped_Some & _).
  by destruct (pixelColor _ _ _ _ _).
Qed.

Lemma previewStores_block (state : RenderState) (palette : list Color)
    (width height downscale kx ky : Z) (color : Color) (tr : list (Z * Z)) :
  0 < downscale →
  PALETTES !! mod_size (colorScheme state) (length PALETTES) = Some palette →
  previewStores state width height downscale = Some tr →
  0 ≤ kx → kx * downscale < width → 0 ≤ ky → ky * downscale < height →
  pixelColor state palette width (kx * downscale) (ky * downscale) = Some color →
  is_Some (blockStores width height downscale (kx * downscale) (ky * downscale) color).
Proof.
  intros Hd Hpal. unfold previewStores. rewrite Hpal. simpl.
  destruct (blockOrigins height downscale) as [ys|] eqn:Hys; [|done]. simpl.
  destruct (mapM _ ys) as [rows|] eqn:Hrows; [|done]. simpl. intros _ Hkx Hx Hky Hy Hcol.
  assert (ky * downscale ∈ ys) as Hiny.
  { apply (blockOrigins_elem _ _ _ _ Hd Hys). by exists ky. }
  destruct (mapM_Some_elem _ _ _ _ Hrows Hiny) as (row & [Hrow _]%stepped_Some & _).
  destruct (blockOrigins width downscale) as [xs|] eqn:Hxs; [|done]. simpl in Hrow.
  destruct (mapM _ xs) as [blocks|] eqn:Hblocks; [|done].
  assert (kx * downscale ∈ xs) as Hinx.
  { apply (blockOrigins_elem _ _ _ _ Hd Hxs). by exists kx. }
  destruct (mapM_Some_elem _ _ _ _ Hblocks Hinx) as (blk & [Hblk _]%stepped_Some & _).
  rewrite Hcol in Hblk. simpl in Hblk. by eexists.
Qed.

(** A defined run of [renderPreview] leaves at every pixel of the image
    the colour computed for the origin of its block, the pixel
    [(x - x mod downscale, y - y mod downscale)], and the alpha byte
    255. *)
Theorem renderPreview_block (pixels out : list Z) (state : RenderState)
    (palette : list Color) (width height downscale x y : Z) :
  0 < downscale →
  renderPreview pixels state width height downscale = Some out →
  PALETTES !! mod_size (colorScheme state) (length PALETTES) = Some palette →
  0 ≤ x < width → 0 ≤ y < height →
  ∃ color,
    pixelColor state palette width (x - x mod downscale) (y - y mod downscale) = Some color ∧
    ∀ w, w ∈ pixelStores ((y * width + x) * 4) color → out !! Z.to_nat w.1 = Some w.2.
Proof.
  intros Hd. rewrite renderPreview_stores. intros Hrun Hpal Hx Hy.
  destruct (previewStores state width height downscale) as [tr|] eqn:Htr; [|done].
  simpl in Hrun.
  pose proof (Z.div_mod x downscale ltac:(lia)) as Hxdm.
  pose proof (Z.div_mod y downscale ltac:(lia)) as Hydm.
  pose proof (Z.mod_pos_bound x downscale Hd) as Hxm.
  pose proof (Z.mod_pos_bound y downscale Hd) as Hym.
  pose proof (Z.div_pos x downscale ltac:(lia) Hd) as Hxd.
  pose proof (Z.div_pos y downscale ltac:(lia) Hd) as Hyd.
  replace (x - x mod downscale) with (x / downscale * downscale) by lia.
  replace (y - y mod downscale) with (y / downscale * downscale) by lia.
  destruct (previewStores_defined state palette width height downscale
              (x / downscale) (y / downscale) tr Hd Hpal Htr) as [color Hcol]; [lia..|].
  exists color. split; [done|]. intros [i v] Hw. simpl.
  apply (run_stores_lookup tr pixels); [done| |].
  - destruct (previewStores_block state palette width height downscale
                (x / downscale) (y / downscale) color tr Hd Hpal Htr) as [blk Hblk];
      [lia..|done|].
    apply (previewStores_elem state palette width height downscale tr _ Hd Hpal Htr).
    exists (x / downscale), (y / downscale), color, blk.
    split; [done|]. split; [lia|]. split; [done|]. split; [lia|]. split; [done|].
    split; [done|].
    apply (blockStores_elem _ _ _ _ _ _ _ _ Hblk). exists (y mod downscale), (x mod downscale).
    split; [lia|]. split; [lia|].
    replace (y / downscale * downscale + y mod downscale) with y by lia.
    by replace (x / downscale * downscale + x mod downscale) with x by lia.
  - intros v' Hin'.
    apply (previewStores_elem state palette width height downscale tr _ Hd Hpal Htr) in Hin'
      as (kx & ky & color' & blk' & Hkx & Hkxw & Hky & Hkyh & Hcol' & Hblk & Hin').
    apply (blockStores_elem _ _ _ _ _ _ _ _ Hblk) in Hin' as (by_ & bx & Hby & Hbx & Hw').
    assert (∃ k, 0 ≤ k < 4 ∧ i = (y * width + x) * 4 + k) as (k & Hk & Hi).
    { apply pixelStores_elem in Hw as [[-> _]|[[-> _]|[[-> _]|[-> _]]]];
        [exists 0|exists 1|exists 2|exists 3]; lia. }
    assert (∃ k', 0 ≤ k' < 4 ∧
                  i = ((ky * downscale + by_) * width + (kx * downscale + bx)) * 4 + k')
      as (k' & Hk' & Hi').
    { apply pixelStores_elem in Hw' as [[-> _]|[[-> _]|[[-> _]|[-> _]]]];
        [exists 0|exists 1|exists 2|exists 3]; lia. }
    destruct (pixel_index_inj width x y (kx * downscale + bx) (ky * downscale + by_) k k')
      as (Hyeq & Hxeq & _); [lia|nia|lia|lia|lia|].
    assert (kx = x / downscale) as -> by (apply (Z.div_unique x downscale kx bx); lia).
    assert (ky = y / downscale) as -> by (apply (Z.div_unique y downscale ky by_); lia).
    assert (color' = color) as -> by congruence.
    rewrite <- Hyeq, <- Hxeq in Hw'.
    eapply NoDup_fst_unique; [|exact Hw'|exact Hw].
    rewrite pixelStores_places. apply NoDup_seqZ.
Qed.
End PreviewFacts.

Section ParallelFacts.
Context `{M : Libm}.

(** On a buffer of [width * height] pixels whose size in bytes is an
    [int], the parallel render stores nothing out of range and
    overflows no index or counter, whatever the number of workers and
    the order of their stores: it is undefined only when the colour of
    a pixel of the image is. *)
Theorem renderFractal_defined (N : Z) (pixels : list Z) (state : RenderState)
    (palette : list Color) (width height : Z) (out : option (list Z)) :
  1 ≤ N → 0 ≤ width ≤ INT_MAX → 0 ≤ height ≤ INT_MAX →
  width * height * 4 ≤ INT_MAX →
  Z.of_nat (length pixels) = width * height * 4 →
  PALETTES !! mod_size (colorScheme state) (length PALETTES) = Some palette →
  renderFractal N pixels state width height false out →
  is_Some out ↔
  ∀ x y, 0 ≤ y < height → 0 ≤ x < width → is_Some (pixelColor state palette width x y).
Proof.
  intros HN Hw Hh Hsize Hlen Hpal Hrun.
  pose proof (regionStores_bands state N width height HN) as Hbands.
  pose proof (regionStores_colors state palette 0 height width) as Hcolors.
  pose proof (regionStores_is_Some state palette 0 height width Hpal ltac:(lia)
                ltac:(lia) ltac:(lia)) as Hdefined.
  inversion Hrun as [|Hnone|traces tr Hsome Hmerge]; subst.
  - rewrite Hnone in Hbands. simpl in Hbands. rewrite Hbands in Hdefined.
    split; [by intros [? ?]|]. intros Hall. by destruct (Hdefined Hall).
  - rewrite Hsome in Hbands. simpl in Hbands. rewrite Hbands in Hcolors.
    split.
    + intros _ x y Hy Hx. apply Hcolors; [done|by eexists|done..].
    + intros _. apply run_stores_defined. intros i Hi.
      apply interleaves_Permutation in Hmerge.
      rewrite Hmerge, (workers_places N state width height traces) in Hi by (done || lia).
      apply elem_of_seqZ in Hi. lia.
Qed.
End ParallelFacts.

Section PreviewBounds.
Context `{M : Libm}.

Lemma previewStores_is_Some (state : RenderState) (palette : list Color)
    (width height downscale : Z) :
  0 < downscale → width + downscale ≤ INT_MAX → height + downscale ≤ INT_MAX →
  PALETTES !! mod_size (colorScheme state) (length PALETTES) = Some palette →
  (∀ kx ky, 0 ≤ kx → kx * downscale < width → 0 ≤ ky → ky * downscale < height →
            is_Some (pixelColor state palette width (kx * downscale) (ky * downscale))) →
  is_Some (previewStores state width height downscale).
Proof.
  intros Hd Hwd Hhd Hpal Hall. unfold previewStores. rewrite Hpal. simpl.
  assert (INT_MIN ≤ 0) as Hmin by done.
  destruct (blockOrigins height downscale) as [ys|] eqn:Hys.
  2:{ unfold blockOrigins in Hys. by rewrite bool_decide_true in Hys. }
  destruct (blockOrigins width downscale) as [xs|] eqn:Hxs.
  2:{ unfold blockOrigins in Hxs. by rewrite bool_decide_true in Hxs. }
  simpl.
  destruct (mapM_is_Some_elem (λ y,
      stepped y downscale (
        blocks ← mapM (λ x,
          stepped x downscale (
            color ← pixelColor state palette width x y;
            blockStores width height downscale x y color)) xs;
        Some (concat blocks))) ys) as [rows Hrows].
  { intros y (ky & Hky & -> & Hy)%(blockOrigins_elem _ _ _ _ Hd Hys).
    destruct (mapM_is_Some_elem (λ x,
        stepped x downscale (
          color ← pixelColor state palette width x (ky * downscale);
          blockStores width height downscale x (ky * downscale) color)) xs)
      as [blocks ->].
    { intros x (kx & Hkx & -> & Hx)%(blockOrigins_elem _ _ _ _ Hd Hxs).
      destruct (Hall kx ky Hkx Hx Hky Hy) as [color ->]. simpl.
      destruct (blockStores_is_Some width height downscale (kx * downscale)
                  (ky * downscale) color ltac:(nia)) as [blk ->].
      unfold stepped. simpl. rewrite int_add_Some by nia. by eexists. }
    unfold stepped. simpl. rewrite int_add_Some by nia. by eexists. }
  simpl in Hrows. rewrite Hrows. by eexists.
Qed.

(** On a buffer of [width * height] pixels whose size in bytes is an
    [int], and with counters that stay in [int], the block fill of
    [renderPreview] stays inside the image, also where the last blocks
    are cut off by its edges, and no index overflows: the preview is
    undefined only when the colour of a block origin is. *)
Theorem renderPreview_defined (pixels : list Z) (state : RenderState)
    (palette : list Color) (width height downscale : Z) :
  0 < downscale → 0 ≤ width → 0 ≤ height →
  width + downscale ≤ INT_MAX → height + downscale ≤ INT_MAX →
  width * height * 4 ≤ INT_MAX →
  Z.of_nat (length pixels) = width * height * 4 →
  PALETTES !! mod_size (colorScheme state) (length PALETTES) = Some palette →
  is_Some (renderPreview pixels state width height downscale) ↔
  ∀ kx ky, 0 ≤ kx → kx * downscale < width → 0 ≤ ky → ky * downscale < height →
           is_Some (pixelColor state palette width (kx * downscale) (ky * downscale)).
Proof.
  intros Hd Hw Hh Hwd Hhd Hsize Hlen Hpal. rewrite renderPreview_stores. split.
  - intros [out Hrun] kx ky Hkx Hx Hky Hy.
    destruct (previewStores state width height downscale) as [tr|] eqn:Htr; [|done].
    by eapply previewStores_defined.
  - intros Hall.
    destruct (previewStores_is_Some state palette width height downscale Hd Hwd Hhd
                Hpal Hall) as [tr Htr].
    rewrite Htr. simpl. apply run_stores_defined.
    intros i ([i' v] & -> & Hin)%list_elem_of_fmap. simpl.
    apply (previewStores_elem state palette width height downscale tr _ Hd Hpal Htr) in Hin
      as (kx & ky & color & blk & Hkx & Hx & Hky & Hy & _ & Hblk & Hin).
    apply (blockStores_elem _ _ _ _ _ _ _ _ Hblk) in Hin as (by_ & bx & Hby & Hbx & Hw').
    assert (∃ k, 0 ≤ k < 4 ∧
                 i' = ((ky * downscale + by_) * width + (kx * downscale + bx)) * 4 + k)
      as (k & Hk & ->).
    { apply pixelStores_elem in Hw' as [[-> _]|[[-> _]|[[-> _]|[-> _]]]];
        [exists 0|exists 1|exists 2|exists 3]; lia. }
    rewrite Hlen.
    assert (0 ≤ ky * downscale + by_ < height) as Hrow by nia.
    assert (0 ≤ kx * downscale + bx < width) as Hcol by nia.
    nia.
Qed.
End PreviewBounds.

(** ** The event handlers *)

Section HandlerFacts.
Context `{M : Libm}.

Lemma adjustIterations_settled (state state' : RenderState) :
  adjustIterations state = Some state' →
  0 ≤ colorScheme state < Z.of_nat (length PALETTES) →
  fractalType state = 0 ∨ fractalType state = 1 →
  innerCalculation state = false →
  100 ≤ maxIterations state ≤ 10000 →
  settled state'.
Proof.
  unfold adjustIterations, settled. intros Hrun Hc Ht Hi Hm.
  destruct (autoIterations state).
  - destruct (D.to_int _) as [k|]; [|done]. simpl in Hrun. injection Hrun as <-.
    simpl. split; [lia|done].
  - by injection Hrun as <-.
Qed.

Lemma handleEvent_settled (state state' : RenderState) (event : Event) :
  settled state → handleEvent state event = Some state' → settled state'.
Proof.
  intros (Hm & Hc & Ht & Hi).
  destruct event as [mousePos delta|lastPos curPos|code mx my]; simpl.
  - unfold onMouseWheel. case_bool_decide; [|by intros [= <-]].
    intros Hrun. by eapply adjustIterations_settled.
  - by intros [= <-].
  - destruct code; simpl; try (by intros [= <-]);
      try (intros [= <-]; unfold settled; simpl; split; [lia|done]).
    + intros Hrun. by eapply adjustIterations_settled.
    + intros [= <-]. by destruct (showJulia state).
    + intros [= <-]. unfold settled. simpl. split; [done|]. split; [|done].
      pose proof (mod_size_lt (colorScheme state + 1) (length PALETTES) ltac:(simpl; lia)).
      change (length PALETTES) with 5%nat in *. lia.
    + intros [= <-]. unfold settled. simpl. split; [|done].
      rewrite Z.quot_div_nonneg by lia.
      assert (maxIterations state / 2 ≤ maxIterations state)
        by (apply Z.div_le_upper_bound; lia).
      lia.
    + destruct (negb (autoIterations state)) eqn:Hauto.
      * intros Hrun. by eapply adjustIterations_settled.
      * by intros [= <-].
    + intros [= <-]. unfold settled. simpl. split; [done|]. split; [done|].
      split; [|done]. destruct Ht as [-> | ->]; [by right|by left].
Qed.

(** The handlers keep the state settled, whatever the events are: the
    cap stays in [100, 10000], the colour scheme a palette index, the
    fractal type 0 or 1, and inner calculation off. *)
Theorem events_keep_settled (events : list Event) (state state' : RenderState) :
  settled state → for_each events handleEvent state = Some state' → settled state'.
Proof.
  revert state. induction events as [|event events IH]; intros state Hs; simpl.
  { by intros [= <-]. }
  destruct (handleEvent state event) as [state1|] eqn:Hev; [|done]. simpl.
  apply IH. by eapply handleEvent_settled.
Qed.

(** Halving after doubling the cap gives the cap back up to 5000, and
    doubling after halving gives an even cap from 200 on back; both
    switch auto-iteration off. *)
Theorem keyI_keyK_roundtrip (state : RenderState) (mx my : double) :
  (100 ≤ maxIterations state ≤ 5000 →
   for_each [KeyPressed KeyI mx my; KeyPressed KeyK mx my] handleEvent state =
   Some (with_autoIterations state false)) ∧
  (200 ≤ maxIterations state ≤ 10000 → Z.even (maxIterations state) = true →
   for_each [KeyPressed KeyK mx my; KeyPressed KeyI mx my] handleEvent state =
   Some (with_autoIterations state false)).
Proof.
  destruct state as [vx vy vs m cd sj jx jy cs au ft st sf si ic].
  cbn [maxIterations]. split.
  - intros Hm. cbn. unfold set_maxIterations, with_autoIterations. cbn.
    do 2 f_equal. rewrite Z.min_r by lia.
    rewrite Z.quot_mul by lia. lia.
  - intros Hm Heven. cbn. unfold set_maxIterations, with_autoIterations. cbn.
    do 2 f_equal. apply Z.even_spec in Heven as [k ->].
    rewrite (Z.mul_comm 2 k) in *. rewrite Z.quot_mul by lia. lia.
Qed.

(** The cyclic keys: in a settled state five presses of C, two of T
    and two of Z each lead back to the state. *)
Theorem cyclic_keys (state : RenderState) (mx my : double) :
  settled state →
  for_each (replicate 5 (KeyPressed KeyC mx my)) handleEvent state = Some state ∧
  for_each (replicate 2 (KeyPressed KeyT mx my)) handleEvent state = Some state ∧
  for_each (replicate 2 (KeyPressed KeyZ mx my)) handleEvent state = Some state.
Proof.
  destruct state as [vx vy vs m cd sj jx jy cs au ft st sf si ic].
  intros (_ & Hc & Ht & _). simpl in Hc, Ht. split; [|split].
  - assert (cs = 0 ∨ cs = 1 ∨ cs = 2 ∨ cs = 3 ∨ cs = 4) as Hcs by (simpl in Hc; lia).
    destruct Hcs as [->|[->|[->|[->| ->]]]]; reflexivity.
  - destruct Ht as [-> | ->]; reflexivity.
  - simpl. unfold with_colors. simpl. by rewrite negb_involutive.
Qed.
End HandlerFacts.

(** ** Zooming *)

Lemma mul_pow2_exact (s : bool) (m : positive) (e j : Z) :
  Zpos (digits2_pos m) = D.prec →
  SpecFloat.emin D.prec D.emax ≤ e + j ≤ D.emax - D.prec →
  D.mul (S754_finite s m e) (S754_finite false 4503599627370496 (j - 52)) =
  S754_finite s m (e + j).
Proof.
  intros Hd He. unfold D.mul. cbn [SFmul]. rewrite xorb_false_r.
  pose proof (digits2_bounds m) as [Dlo Dhi]. rewrite Hd in Dlo, Dhi.
  change (2 ^ (D.prec - 1)) with 4503599627370496 in Dlo.
  change (2 ^ D.prec) with 9007199254740992 in Dhi.
  set (mp := (m * 4503599627370496)%positive).
  assert (Zpos mp = Zpos m * 2 ^ 52) as Hmp by (unfold mp; lia).
  assert (Zpos (digits2_pos mp) = 105) as Hdp.
  { apply (Zdigits2_unique (Zpos mp) 105); [lia|]. rewrite Hmp.
    change (2 ^ (105 - 1)) with (4503599627370496 * 2 ^ 52).
    change (2 ^ 105) with (9007199254740992 * 2 ^ 52). lia. }
  destruct (bra_exact_spec D.prec D.emax D_prec_pos s mp (e + (j - 52)))
    as (m2 & _ & Hexact & ->).
  rewrite Hdp in Hexact |- *.
  assert (Z.max 0 (SpecFloat.fexp D.prec D.emax (105 + (e + (j - 52))) - (e + (j - 52))) = 52)
    as Hk.
  { unfold SpecFloat.fexp, SpecFloat.emin, D.prec, D.emax in *. lia. }
  rewrite Hk in Hexact |- *.
  rewrite Hmp, Z.mod_mul, Z.div_mul in Hexact by lia.
  rewrite (Hexact eq_refl).
  cbv zeta.
  repeat (rewrite decide_False by (change (2 ^ D.prec) with 9007199254740992; lia)).
  replace (e + (j - 52) + 52) with (e + j) by lia.
  destruct (Z.leb_spec (e + j) (D.emax - D.prec)); [|lia]. done.
Qed.

(** A valid [double] of magnitude [2^-1021 .. 2^1022] is normal. *)
Lemma normal_range (m : positive) (e : Z) :
  D.valid (S754_finite false m e) = true →
  between 1 (-1021) 1 1022 (S754_finite false m e) →
  Zpos (digits2_pos m) = D.prec ∧ -1074 < e ≤ 970.
Proof.
  unfold D.valid. simpl. unfold bounded, canonical_mantissa.
  intros [Hc Hb]%andb_true_iff [Hlo Hhi]. apply Z.eqb_eq in Hc. apply Z.leb_le in Hb.
  pose proof (digits2_bounds m) as [Dlo Dhi].
  set (d := Zpos (digits2_pos m)) in *.
  assert (0 < d) as Hd by (unfold d; lia). clearbody d.
  unfold SpecFloat.fexp, SpecFloat.emin, D.prec, D.emax in *.
  assert (-1074 < e) as He.
  { destruct (decide (-1074 < e)); [done|]. exfalso.
    assert (e = -1074) as -> by lia. assert (d ≤ 53) by lia.
    apply (dle_elim (-1074)) in Hlo; [|lia..].
    rewrite Z.sub_diag, Z.mul_1_r, Z.mul_1_l in Hlo.
    change (2 ^ (-1021 - -1074)) with (2 ^ 53) in Hlo.
    pose proof (pow2_le_mono d 53 ltac:(lia)) as Hpd.
    change (2 ^ 53) with 9007199254740992 in *. lia. }
  assert (d = 53) as -> by lia.
  split; [done|]. split; [done|].
  destruct (decide (e = 971)) as [->|?]; [exfalso|lia].
  apply (dle_elim 971) in Hhi; [|lia..].
  rewrite Z.sub_diag, Z.mul_1_r, Z.mul_1_l in Hhi.
  change (2 ^ (1022 - 971)) with 2251799813685248 in Hhi.
  change (2 ^ (53 - 1)) with 4503599627370496 in Dlo. lia.
Qed.

Section ZoomFacts.
Context `{M : Libm}.

Lemma adjustIterations_viewportSize (state state' : RenderState) :
  adjustIterations state = Some state' → viewportSize state' = viewportSize state.
Proof.
  unfold adjustIterations. destruct (autoIterations state); [|by intros [= <-]].
  destruct (D.to_int _); [|done]. by intros [= <-].
Qed.

Lemma onMouseWheel_viewportSize (state state' : RenderState) (mousePos : Z * Z)
    (delta : float) :
  0 ≤ mousePos.1 < WINDOW_WIDTH ∧ 0 ≤ mousePos.2 < WINDOW_HEIGHT →
  onMouseWheel state mousePos delta = Some state' →
  viewportSize state' =
  D.mul (viewportSize state)
        (if SFltb (F.lit 0 0) delta then D.lit 1 (-1) else D.lit 2 0).
Proof.
  intros Hin. unfold onMouseWheel. rewrite bool_decide_true by done.
  by intros ->%adjustIterations_viewportSize.
Qed.

(** Scrolling one notch in and one notch out, in either order and with
    the mouse anywhere in the window, gives the viewport size back
    bit for bit when it is a normal [double] from [2^-1021] to
    [2^1022]. *)
Theorem wheel_roundtrip (state state' : RenderState) (pos1 pos2 : Z * Z)
    (delta1 delta2 : float) :
  0 ≤ pos1.1 < WINDOW_WIDTH ∧ 0 ≤ pos1.2 < WINDOW_HEIGHT →
  0 ≤ pos2.1 < WINDOW_WIDTH ∧ 0 ≤ pos2.2 < WINDOW_HEIGHT →
  SFltb (F.lit 0 0) delta2 = negb (SFltb (F.lit 0 0) delta1) →
  D.valid (viewportSize state) = true →
  between 1 (-1021) 1 1022 (viewportSize state) →
  for_each [MouseWheelScrolled pos1 delta1; MouseWheelScrolled pos2 delta2]
    handleEvent state = Some state' →
  viewportSize state' = viewportSize state.
Proof.
  intros Hin1 Hin2 Hdir Hvalid Hrange. cbn [for_each handleEvent].
  destruct (onMouseWheel state pos1 delta1) as [state1|] eqn:H1; [|done]. simpl.
  destruct (onMouseWheel state1 pos2 delta2) as [state2|] eqn:H2; [|done]. simpl.
  intros [= <-].
  apply onMouseWheel_viewportSize in H1; [|done].
  apply onMouseWheel_viewportSize in H2; [|done].
  rewrite H2, H1, Hdir. clear H1 H2.
  destruct (viewportSize state) as [| | |[] m e]; try done.
  destruct (normal_range m e Hvalid Hrange) as (Hd & He1 & He2).
  change (D.lit 1 (-1)) with (S754_finite false 4503599627370496 (-1 - 52)).
  change (D.lit 2 0) with (S754_finite false 4503599627370496 (1 - 52)).
  assert (SpecFloat.emin D.prec D.emax = -1074) as Hemin by done.
  assert (D.emax - D.prec = 971) as Hemax by done.
  destruct (SFltb (F.lit 0 0) delta1); simpl negb;
    rewrite !mul_pow2_exact by (rewrite ?Hemin, ?Hemax; first [done|lia]);
    f_equal; lia.
Qed.
End ZoomFacts.

Lemma wheel_roundtrip_witness :
  viewportSize <$>
    for_each [MouseWheelScrolled (400, 300) (F.lit 1 0);
              MouseWheelScrolled (10, 790) (F.lit (-1) 0)]
      handleEvent (with_autoIterations defaultState false) = Some (D.lit 3 0).
Proof.
  destruct (for_each _ handleEvent (with_autoIterations defaultState false))
    as [state'|] eqn:Hrun; [|by vm_compute in Hrun].
  simpl. f_equal.
  apply (wheel_roundtrip (with_autoIterations defaultState false) state'
           (400, 300) (10, 790) (F.lit 1 0) (F.lit (-1) 0));
    [by vm_compute|by vm_compute|by vm_compute|by vm_compute|split; by vm_compute|exact Hrun].
Defined.

(** ** The main loop *)

Lemma same_picture_refl (a : RenderState) : same_picture a a.
Proof. by destruct a. Qed.

Section MainLoopFacts.
Context `{M : Libm}.

Lemma onKeyPressed_picture (state state' : RenderState) (code : Key) (mx my : double) :
  onKeyPressed state code mx my = Some state' →
  redraws code state' = false → same_picture state state'.
Proof.
  destruct code; simpl; try done; try (intros [= <-] _; apply same_picture_refl).
  destruct (negb (autoIterations state)) eqn:Hauto.
  - unfold adjustIterations. simpl. destruct (D.to_int _); [|done]. simpl.
    by intros [= <-] ?.
  - intros [= <-] _. unfold same_picture. by destruct state.
Qed.

Lemma same_picture_trans (a b c : RenderState) :
  same_picture a b → same_picture b c → same_picture a c.
Proof.
  unfold same_picture. intros <- <-. by destruct a.
Qed.

Lemma onEvent_pending (start : RenderState) (vars vars' : MainState * bool * bool)
    (event : WindowEvent) :
  pending_ok start vars → onEvent vars event = Some vars' →
  pending_ok start vars' ∧ rendered vars'.1.1 = rendered vars.1.1.
Proof.
  destruct vars as [[m needsRedraw] usePreview]. unfold pending_ok. simpl.
  intros Hok. destruct event as [|pos delta|[] pos|[]|pos|code|]; simpl.
  - by intros [= <-].
  - case_bool_decide; [|by intros [= <-]].
    destruct (onMouseWheel _ _ _); [|done]. simpl. intros [= <-]. simpl. by split; [left|].
  - by intros [= <-].
  - by intros [= <-].
  - by intros [= <-].
  - by intros [= <-].
  - destruct (isDragging m); intros [= <-]; simpl; [by split; [left|]|done].
  - destruct (onKeyPressed _ _ _ _) as [state'|] eqn:Hkey; [|done]. simpl.
    destruct (redraws code state') eqn:Hred; intros [= <-]; simpl; [by split; [left|]|].
    split; [|done]. destruct Hok as [?|Hok]; [by left|right].
    eapply same_picture_trans; [exact Hok|]. by eapply onKeyPressed_picture.
  - by intros [= <-].
Qed.

Lemma events_pending (start : RenderState) (events : list WindowEvent)
    (vars vars' : MainState * bool * bool) :
  pending_ok start vars → for_each events onEvent vars = Some vars' →
  pending_ok start vars' ∧ rendered vars'.1.1 = rendered vars.1.1.
Proof.
  revert vars. induction events as [|event events IH]; intros vars Hok; simpl.
  { by intros [= <-]. }
  destruct (onEvent vars event) as [vars1|] eqn:Hev; [|done]. simpl. intros Hrun.
  destruct (onEvent_pending _ _ _ _ Hok Hev) as [Hok1 Hr1].
  destruct (IH _ Hok1 Hrun) as [Hok' Hr']. split; [done|congruence].
Qed.

Lemma frame_shows_state (m m' : MainState) (events : list WindowEvent) (delayPassed : bool) :
  same_picture (rendered m).1 (renderState m) →
  frame m events delayPassed = Some m' →
  same_picture (rendered m').1 (renderState m').
Proof.
  intros Hm. unfold frame.
  destruct (for_each events onEvent (m, false, false)) as [[[m1 needsRedraw] usePreview]|]
    eqn:Hev; [|done].
  simpl. intros [= <-]. simpl.
  assert (pending_ok (renderState m) (m, false, false)) as Hstart
    by (right; apply same_picture_refl).
  destruct (events_pending (renderState m) events _ _ Hstart Hev) as [Hok Hr].
  unfold pending_ok in Hok. simpl in Hok, Hr.
  destruct (needsRedraw || _) eqn:Hredraw; simpl; [apply same_picture_refl|].
  apply orb_false_iff in Hredraw as [-> _].
  destruct Hok as [?|Hok]; [done|]. rewrite Hr.
  by eapply same_picture_trans.
Qed.

(** The picture on the screen is never stale: after every frame the
    last call of [renderFractal] was made with the current state, up to
    [autoIterations], which the renderers do not read. *)
Theorem frames_show_state (inputs : list (list WindowEvent * bool)) (m m' : MainState) :
  same_picture (rendered m).1 (renderState m) →
  mainFrames inputs m = Some m' →
  same_picture (rendered m').1 (renderState m').
Proof.
  unfold mainFrames. revert m. induction inputs as [|[events delay] inputs IH]; intros m Hm.
  { by intros [= <-]. }
  cbn [for_each]. destruct (windowOpen m).
  - destruct (frame m _ _) as [m1|] eqn:Hframe; [|done]. simpl.
    apply IH. by eapply frame_shows_state.
  - simpl. by apply IH.
Qed.

Lemma frame_idle (m : MainState) (delayPassed : bool) :
  viewChanged m = false → pendingHighQualityRender m = false →
  frame m [] delayPassed = Some m.
Proof.
  destruct m as [st last drag mcx mcy vc pend open shown]. simpl.
  intros -> ->. reflexivity.
Qed.

Lemma frames_idle (m : MainState) (delays : list bool) :
  viewChanged m = false → pendingHighQualityRender m = false →
  mainFrames ((λ d, ([], d)) <$> delays) m = Some m.
Proof.
  intros Hv Hp. unfold mainFrames.
  induction delays as [|d delays IH]; [done|].
  rewrite fmap_cons. cbn [for_each fst snd].
  destruct (windowOpen m); [rewrite frame_idle by done|]; exact IH.
Qed.

(** A key that redraws, handled in the frame of a wheel scroll, leaves
    the preview on the screen with nothing pending: the frames that
    follow without events do not render again. *)
Theorem preview_sticks (m m' : MainState) (mousePos : Z * Z) (delta : float) (code : Key)
    (delayPassed : bool) (delays : list bool) :
  0 ≤ mousePos.1 < WINDOW_WIDTH ∧ 0 ≤ mousePos.2 < WINDOW_HEIGHT →
  (∀ state, redraws code state = true) →
  frame m [EvMouseWheelScrolled mousePos delta; EvKeyPressed code] delayPassed = Some m' →
  rendered m' = (renderState m', true) ∧
  viewChanged m' = false ∧ pendingHighQualityRender m' = false ∧
  mainFrames ((λ d, ([], d)) <$> delays) m' = Some m'.
Proof.
  intros Hin Hcode. unfold frame. cbn [for_each onEvent].
  rewrite bool_decide_true by done.
  destruct (onMouseWheel _ _ _) as [state1|]; [|done]. cbn.
  destruct (onKeyPressed state1 code _ _) as [state2|]; [|done]. cbn.
  rewrite Hcode. cbn. intros [= <-]. cbn.
  split; [done|]. split; [done|]. split; [done|].
  by apply frames_idle.
Qed.
End MainLoopFacts.

(** ** Worked examples of the further theorems *)

Lemma calculateFractal_detail_assigned_witness :
  ∃ info,
    calculateFractal (D.lit 2 0) (D.lit 2 0) (D.lit 0 0) (D.lit 0 0) 100 false 0 false
      (F.lit 5 0) false = Some info ∧
    (info = sentinel ∨
     (0 ≤ iteration info ∧
      is_Some (smoothIteration info) ∧ is_Some (stripeSum info) ∧
      (0 < 100 → iteration info ≤ 100) ∧
      (0 < 100 → false = false → iteration info < 100) ∧
      (false = false → stripeSum info = Some (D.lit 0 0)) ∧
      ∀ state, is_Some (colorScalar state info))).
Proof.
  eexists. split; [by vm_compute|].
  apply (calculateFractal_detail_assigned (D.lit 2 0) (D.lit 2 0) (D.lit 0 0) (D.lit 0 0)
           100 false 0 false (F.lit 5 0) false).
  by vm_compute.
Defined.

Lemma calculateFractal_stripes_irrelevant_witness :
  ∃ info',
    calculateFractal (D.lit 2 0) (D.lit 2 0) (D.lit 0 0) (D.lit 0 0) 100 false 0 true
      (F.lit 7 0) false = Some info' ∧
    iteration info' = 3 ∧
    smoothIteration info' = Some (S754_finite false 8050846884881960 (-52)).
Proof.
  apply (calculateFractal_stripes_irrelevant (D.lit 2 0) (D.lit 2 0) (D.lit 0 0)
           (D.lit 0 0) 100 false 0 false (F.lit 5 0) true (F.lit 7 0) false
           {| iteration := 3;
              smoothIteration := Some (S754_finite false 8050846884881960 (-52));
              stripeSum := Some (D.lit 0 0) |}).
  by vm_compute.
Defined.

Lemma interpolateColors_between_witness :
  ∃ c, interpolateColors (mkColor 66 30 15) (mkColor 25 7 26) (D.lit 1 (-1)) = Some c ∧
       channels_between (mkColor 66 30 15) (mkColor 25 7 26) c ∧ uint8_color c = true.
Proof.
  apply (interpolateColors_between (mkColor 66 30 15) (mkColor 25 7 26) (D.lit 1 (-1)));
    by vm_compute.
Defined.

Lemma mapColor_defined_witness :
  ∃ c1 c2 c,
    palette_at 0 !! mod_size 2 (length (palette_at 0)) = Some c1 ∧
    palette_at 0 !! mod_size (Z.of_nat (mod_size 2 (length (palette_at 0))) + 1)
                      (length (palette_at 0)) = Some c2 ∧
    mapColor (palette_at 0) (F.lit 5 (-1)) = Some c ∧ channels_between c1 c2 c.
Proof.
  apply (mapColor_defined (palette_at 0) (F.lit 5 (-1)) 2); by vm_compute.
Defined.

Lemma mapColor_integer_witness :
  mapColor (palette_at 0) (F.lit 3 0) = palette_at 0 !! mod_size 3 (length (palette_at 0)).
Proof. apply (mapColor_integer (palette_at 0) (F.lit 3 0) 3); by vm_compute. Defined.

Lemma mapColor_floor_nonneg_witness :
  mapColor (palette_at 0) (F.lit 5 (-1)) = mapColor_floor (palette_at 0) (F.lit 5 (-1)).
Proof. apply (mapColor_floor_nonneg (palette_at 0) (F.lit 5 (-1)) 2); by vm_compute. Defined.

Lemma renderFractalRegion_pixel_witness :
  ∃ color,
    pixelColor (stateWith (D.lit 1 (-10)) 128 false false true) (palette_at 0) 4 1 2
      = Some color ∧
    ∀ w, w ∈ pixelStores ((2 * 4 + 1) * 4) color →
         concat (replicate 16 [0; 0; 0; 255]) !! Z.to_nat w.1 = Some w.2.
Proof.
  apply (renderFractalRegion_pixel (replicate 64 7) (concat (replicate 16 [0; 0; 0; 255]))
           (stateWith (D.lit 1 (-10)) 128 false false true) (palette_at 0) 0 4 4 4 1 2);
    [by vm_compute|by vm_compute|lia|lia].
Defined.

Lemma renderFractalRegion_frame_witness :
  length (replicate 16 7 ++ concat (replicate 8 [0; 0; 0; 255]) ++ replicate 16 7) =
  length (replicate 64 7) ∧
  (0 ≤ 50 → ¬ (1 * 4 * 4 ≤ 50 < 3 * 4 * 4) →
   (replicate 16 7 ++ concat (replicate 8 [0; 0; 0; 255]) ++ replicate 16 7) !! Z.to_nat 50 =
   replicate 64 7 !! Z.to_nat 50).
Proof.
  apply (renderFractalRegion_frame (replicate 64 7)
           (replicate 16 7 ++ concat (replicate 8 [0; 0; 0; 255]) ++ replicate 16 7)
           (stateWith (D.lit 1 (-10)) 128 false false true) 1 3 4 4 50).
  by vm_compute.
Defined.

Lemma renderFractalRegion_defined_witness :
  is_Some (renderFractalRegion (replicate 64 7)
             (stateWith (D.lit 1 (-10)) 128 false false true) 1 3 4 4) ↔
  ∀ x y, 1 ≤ y < 3 → 0 ≤ x < 4 →
         is_Some (pixelColor (stateWith (D.lit 1 (-10)) 128 false false true)
                    (palette_at 0) 4 x y).
Proof.
  apply (renderFractalRegion_defined (replicate 64 7)
           (stateWith (D.lit 1 (-10)) 128 false false true) (palette_at 0) 1 3 4 4);
    [by vm_compute|by vm_compute|lia|lia|by vm_compute|by vm_compute|by vm_compute].
Defined.

Lemma renderFractal_writes_once_witness :
  ∃ traces,
    mapM (λ se, regionStores (stateWith (D.lit 1 (-10)) 128 false false true) se.1 se.2 4)
      (bands 3 4) = Some traces ∧
    (concat traces).*1 = seqZ 0 (4 * 4 * 4) ∧ NoDup (concat traces).*1.
Proof.
  eexists. split; [by vm_compute|].
  apply (renderFractal_writes_once 3 (stateWith (D.lit 1 (-10)) 128 false false true) 4 4);
    [lia|lia|lia|by vm_compute].
Defined.

Lemma renderFractal_defined_witness :
  ∃ out,
    renderFractal 3 (replicate 64 7) (stateWith (D.lit 1 (-10)) 128 false false true)
      4 4 false out ∧
    (is_Some out ↔
     ∀ x y, 0 ≤ y < 4 → 0 ≤ x < 4 →
            is_Some (pixelColor (stateWith (D.lit 1 (-10)) 128 false false true)
                       (palette_at 0) 4 x y)).
Proof.
  assert (∃ out, renderFractal 3 (replicate 64 7)
                   (stateWith (D.lit 1 (-10)) 128 false false true) 4 4 false out)
    as [out Hout].
  { destruct (mapM (λ se, regionStores (stateWith (D.lit 1 (-10)) 128 false false true)
                            se.1 se.2 4) (bands 3 4)) as [traces|] eqn:Htraces.
    - eexists. eapply renderFractal_joined; [exact Htraces|apply interleaves_concat].
    - eexists. by apply renderFractal_undefined. }
  exists out. split; [done|].
  apply (renderFractal_defined 3 (replicate 64 7)
           (stateWith (D.lit 1 (-10)) 128 false false true) (palette_at 0) 4 4 out);
    [lia|by vm_compute|by vm_compute|by vm_compute|by vm_compute|by vm_compute|done].
Defined.

Lemma saveHighResScreenshot_initialised_witness :
  ∃ image1 image2,
    saveHighResScreenshot 3 (replicate 64 0)
      (stateWith (D.lit 1 (-10)) 128 false false true) 2 2 2 image1 ∧
    saveHighResScreenshot 3 (replicate 64 9)
      (stateWith (D.lit 1 (-10)) 128 false false true) 2 2 2 image2 ∧
    image1 = image2.
Proof.
  assert (∀ fresh : list Z, length fresh = 64%nat →
            ∃ image, saveHighResScreenshot 3 fresh
                       (stateWith (D.lit 1 (-10)) 128 false false true) 2 2 2 image)
    as Hshot.
  { intros fresh Hlen.
    destruct (mapM (λ se, regionStores (stateWith (D.lit 1 (-10)) 128 false false true)
                            se.1 se.2 (2 * 2)) (bands 3 (2 * 2))) as [traces|] eqn:Htraces.
    - exists (run_stores (concat traces) fresh). split; [by rewrite Hlen|].
      eapply renderFractal_joined; [exact Htraces|apply interleaves_concat].
    - exists None. split; [by rewrite Hlen|]. by apply renderFractal_undefined. }
  destruct (Hshot (replicate 64 0) eq_refl) as [image1 H1].
  destruct (Hshot (replicate 64 9) eq_refl) as [image2 H2].
  exists image1, image2. split; [done|]. split; [done|].
  apply (saveHighResScreenshot_initialised 3 (replicate 64 0) (replicate 64 9)
           (stateWith (D.lit 1 (-10)) 128 false false true) 2 2 2); [lia|lia|lia|done|done].
Defined.

Lemma renderPreview_block_witness :
  ∃ color,
    pixelColor (stateWith (D.lit 1 (-10)) 128 false false true) (palette_at 0) 4
      (2 - 2 mod 3) (3 - 3 mod 3) = Some color ∧
    ∀ w, w ∈ pixelStores ((3 * 4 + 2) * 4) color →
         concat (replicate 16 [0; 0; 0; 255]) !! Z.to_nat w.1 = Some w.2.
Proof.
  apply (renderPreview_block (replicate 64 7) (concat (replicate 16 [0; 0; 0; 255]))
           (stateWith (D.lit 1 (-10)) 128 false false true) (palette_at 0) 4 4 3 2 3);
    [lia|by vm_compute|by vm_compute|lia|lia].
Defined.

Lemma events_keep_settled_witness :
  settled defaultState ∧
  ∃ state',
    for_each [KeyPressed KeyI (D.lit 0 0) (D.lit 0 0); KeyPressed KeyC (D.lit 0 0) (D.lit 0 0);
              MouseDragged (10, 10) (20, 5); KeyPressed KeyB (D.lit 0 0) (D.lit 0 0)]
      handleEvent defaultState = Some state' ∧
    settled state'.
Proof.
  assert (settled defaultState) as Hs.
  { unfold settled. simpl. split; [lia|]. split; [lia|]. split; [by left|done]. }
  split; [exact Hs|].
  destruct (for_each _ handleEvent defaultState) as [state'|] eqn:Hrun;
    [|by vm_compute in Hrun].
  exists state'. split; [done|]. exact (events_keep_settled _ _ _ Hs Hrun).
Defined.

Lemma keyI_keyK_roundtrip_witness :
  for_each [KeyPressed KeyI (D.lit 0 0) (D.lit 0 0); KeyPressed KeyK (D.lit 0 0) (D.lit 0 0)]
    handleEvent defaultState = Some (with_autoIterations defaultState false).
Proof.
  apply (proj1 (keyI_keyK_roundtrip defaultState (D.lit 0 0) (D.lit 0 0))).
  simpl. lia.
Defined.

Lemma cyclic_keys_witness :
  for_each (replicate 5 (KeyPressed KeyC (D.lit 0 0) (D.lit 0 0))) handleEvent defaultState
    = Some defaultState.
Proof.
  apply (cyclic_keys defaultState (D.lit 0 0) (D.lit 0 0)).
  unfold settled. simpl. split; [lia|]. split; [lia|]. split; [by left|done].
Defined.

Lemma renderPreview_defined_witness :
  is_Some (renderPreview (replicate 64 7) (stateWith (D.lit 1 (-10)) 128 false false true)
             4 4 3) ↔
  ∀ kx ky, 0 ≤ kx → kx * 3 < 4 → 0 ≤ ky → ky * 3 < 4 →
           is_Some (pixelColor (stateWith (D.lit 1 (-10)) 128 false false true)
                      (palette_at 0) 4 (kx * 3) (ky * 3)).
Proof.
  apply (renderPreview_defined (replicate 64 7)
           (stateWith (D.lit 1 (-10)) 128 false false true) (palette_at 0) 4 4 3);
    [lia|lia|lia|by vm_compute|by vm_compute|by vm_compute|by vm_compute|by vm_compute].
Defined.

Lemma frames_show_state_witness :
  ∃ m m',
    mainStart = Some m ∧
    mainFrames [([EvKeyPressed KeyC; EvMouseButtonPressed true (10, 10);
                  EvMouseMoved (20, 15)], false);
                ([EvMouseButtonReleased true; EvKeyPressed KeyA], false);
                ([], true)] m = Some m' ∧
    same_picture (rendered m').1 (renderState m').
Proof.
  destruct mainStart as [m|] eqn:Hstart; [|by vm_compute in Hstart].
  destruct (mainFrames [([EvKeyPressed KeyC; EvMouseButtonPressed true (10, 10);
                          EvMouseMoved (20, 15)], false);
                        ([EvMouseButtonReleased true; EvKeyPressed KeyA], false);
                        ([], true)] m) as [m'|] eqn:Hrun.
  2:{ vm_compute in Hstart. injection Hstart as <-. by vm_compute in Hrun. }
  exists m, m'. split; [done|]. split; [done|].
  refine (frames_show_state _ m m' _ Hrun).
  vm_compute in Hstart. injection Hstart as <-. by vm_compute.
Defined.

Lemma preview_sticks_witness :
  ∃ m',
    (m ← mainStart; m1 ← frame m [EvKeyPressed KeyI] false;
     frame m1 [EvMouseWheelScrolled (400, 300) (F.lit 1 0); EvKeyPressed KeyC] false)
      = Some m' ∧
    rendered m' = (renderState m', true) ∧
    viewChanged m' = false ∧ pendingHighQualityRender m' = false ∧
    mainFrames ((λ d, ([], d)) <$> [true; true]) m' = Some m'.
Proof.
  destruct mainStart as [m|] eqn:Hstart; [|by vm_compute in Hstart].
  cbn [mbind option_bind].
  destruct (frame m [EvKeyPressed KeyI] false) as [m1|] eqn:Hkey.
  2:{ vm_compute in Hstart. injection Hstart as <-. by vm_compute in Hkey. }
  cbn [mbind option_bind].
  destruct (frame m1 [EvMouseWheelScrolled (400, 300) (F.lit 1 0); EvKeyPressed KeyC] false)
    as [m'|] eqn:Hrun.
  2:{ vm_compute in Hstart. injection Hstart as <-.
      vm_compute in Hkey. injection Hkey as <-. by vm_compute in Hrun. }
  exists m'. split; [reflexivity|].
  refine (preview_sticks m1 m' (400, 300) (F.lit 1 0) KeyC false [true; true] _ _ Hrun);
    [unfold WINDOW_WIDTH, WINDOW_HEIGHT; simpl; lia|done].
Defined.
